(** * Mandelbrot: escape-time evaluation and colour mapping

    A shallow embedding of [src/mandelbrot.py].  Python [float]s are IEEE-754
    binary64 numbers and are modelled by Rocq's primitive floats; Python
    [int]s are unbounded and are modelled by [Z]; a [complex] is a pair of
    floats.  Every operation that can raise does so through [result].

    The arithmetic of the Python runtime that the program relies on
    ([**], [+], [abs], [int()], [/] on ints, [numpy.angle]) is embedded
    after CPython 3.11 ([Objects/floatobject.c], [Objects/complexobject.c],
    [Objects/longobject.c]).  The functions the runtime takes from the C
    mathematical library are the fields of the class [Libm]. *)

From Stdlib Require Import ZArith List Bool Lia Floats QArith Qpower Lqa.
Import ListNotations.

Local Open Scope Z_scope.

(** ** Exceptions and fallible computations *)

Inductive exn : Set :=
| OverflowError
| ZeroDivisionError
| ValueError
| TypeError.

Inductive result (A : Type) : Type :=
| Ok (a : A)
| Raise (e : exn).

Arguments Ok {A} a.
Arguments Raise {A} e.

Definition bind {A B : Type} (m : result A) (k : A -> result B) : result B :=
  match m with
  | Ok a => k a
  | Raise e => Raise e
  end.

Notation "x <- m ;; k" := (bind m (fun x => k))
  (at level 61, m at next level, right associativity).

(** ** Binary64 helpers: conversions between [int] and [float] *)

Module Float64.

(** The value of [float(n)] when it does not overflow: [n] rounded to the
    nearest binary64 number, ties to even. *)
Definition of_Z (n : Z) : float :=
  SF2Prim (binary_normalize prec emax n 0 false).

(** [PyLong_AsDouble]: the conversion an arithmetic operator applies to an
    [int] operand next to a [float] or [complex] one. *)
Definition PyLong_AsDouble (n : Z) : result float :=
  match binary_normalize prec emax n 0 false with
  | S754_infinity _ => Raise OverflowError
  | f => Ok (SF2Prim f)
  end.

(** [int(x)]: truncation toward zero. *)
Definition trunc (x : float) : result Z :=
  match Prim2SF x with
  | S754_nan => Raise ValueError
  | S754_infinity _ => Raise OverflowError
  | S754_zero _ => Ok 0
  | S754_finite s m e => Ok (cond_Zopp s (Z.shiftl (Zpos m) e))
  end.

(** [math.floor(x)]: the largest integer not above [x]. *)
Definition floor (x : float) : result Z :=
  match Prim2SF x with
  | S754_nan => Raise ValueError
  | S754_infinity _ => Raise OverflowError
  | S754_zero _ => Ok 0
  | S754_finite s m e => Ok (Z.shiftl (cond_Zopp s (Zpos m)) e)
  end.

(** [round(x)]: the nearest integer, ties to even. *)
Definition round (x : float) : result Z :=
  match Prim2SF x with
  | S754_nan => Raise ValueError
  | S754_infinity _ => Raise OverflowError
  | S754_zero _ => Ok 0
  | S754_finite s m e =>
      if 0 <=? e then Ok (cond_Zopp s (Z.shiftl (Zpos m) e))
      else
        let lo := Z.shiftl (Zpos m) e in
        let twice_rest := 2 * (Zpos m - Z.shiftl lo (- e)) in
        let up := match twice_rest ?= Z.shiftl 1 (- e) with
                  | Lt => false
                  | Gt => true
                  | Eq => Z.odd lo
                  end in
        Ok (cond_Zopp s (if up then lo + 1 else lo))
  end.

(** [x == floor(x)] for a finite [x]. *)
Definition is_integer (x : float) : bool :=
  match Prim2SF x with
  | S754_zero _ => true
  | S754_finite _ m e => Z.shiftl (Z.shiftl (Zpos m) e) (- e) =? Zpos m
  | _ => false
  end.

(** [DOUBLE_IS_ODD_INTEGER(x)], that is [fmod(fabs(x), 2.0) == 1.0]. *)
Definition is_odd_integer (x : float) : bool :=
  match Prim2SF x with
  | S754_finite _ m e => is_integer x && Z.odd (Z.shiftl (Zpos m) e)
  | _ => false
  end.

Definition copysign (x y : float) : float :=
  if get_sign y then (- abs x)%float else abs x.

(** [a / b] on ints: the quotient correctly rounded to binary64. *)
Definition int_truediv (a b : Z) : result float :=
  if b =? 0 then Raise ZeroDivisionError
  else
    let s := xorb (a <? 0) (b <? 0) in
    if a =? 0 then Ok (if s then neg_zero else zero)
    else
      let '(q, e, l) := SFdiv_core_binary prec emax (Z.abs a) 0 (Z.abs b) 0 in
      match binary_round_aux prec emax s q e l with
      | S754_infinity _ => Raise OverflowError
      | f => Ok (SF2Prim f)
      end.

(** [x > n] for a float [x] and an int [n]: Python compares the exact
    values. *)
Definition gt_int (x : float) (n : Z) : bool :=
  match Prim2SF x with
  | S754_nan => false
  | S754_infinity s => negb s
  | S754_zero _ => n <? 0
  | S754_finite s m e =>
      let v := cond_Zopp s (Zpos m) in
      if 0 <=? e then n <? Z.shiftl v e else Z.shiftl n (- e) <? v
  end.

Definition lt_int (x : float) (n : Z) : bool :=
  match Prim2SF x with
  | S754_nan => false
  | S754_infinity s => s
  | S754_zero _ => 0 <? n
  | S754_finite s m e =>
      let v := cond_Zopp s (Zpos m) in
      if 0 <=? e then Z.shiftl v e <? n else v <? Z.shiftl n (- e)
  end.

End Float64.

(** ** The C mathematical library

    The functions of [libm] that CPython and NumPy call on the paths the
    program takes.  They are not part of the repository; what a proof needs
    of them is stated where it is needed. *)

Class Libm : Type := {
  hypot : float -> float -> float;
  pow : float -> float -> float;
  atan2 : float -> float -> float;
  cos : float -> float;
  sin : float -> float
}.

(** ** Python numbers *)

Record complex : Set := mkC { real : float; imag : float }.

(** The values a numeric variable of the program holds at run time: the
    literal [0] that starts [calc_zeta_n]'s accumulator and the literal [0]
    of the brightness are ints, the default divergence limit [2] is an int,
    and [**] turns an int into a float or a complex. *)
Inductive pynum : Set :=
| PyInt (n : Z)
| PyFloat (x : float)
| PyComplex (z : complex).

Definition errno_t : Set := option exn.

Section Runtime.

Context {M : Libm}.

Local Open Scope float_scope.

(** *** [Objects/complexobject.c] *)

Definition c_1 : complex := mkC 1 0.

Definition _Py_c_sum (a b : complex) : complex :=
  mkC (real a + real b) (imag a + imag b).

Definition _Py_c_neg (a : complex) : complex :=
  mkC (- real a) (- imag a).

Definition _Py_c_prod (a b : complex) : complex :=
  mkC (real a * real b - imag a * imag b)
      (real a * imag b + imag a * real b).

(** The quotient and whether [errno] was set to [EDOM]. *)
Definition _Py_c_quot (a b : complex) : complex * bool :=
  let abs_breal := if real b <? 0 then - real b else real b in
  let abs_bimag := if imag b <? 0 then - imag b else imag b in
  if abs_bimag <=? abs_breal then
    if abs_breal =? 0 then (mkC 0 0, true)
    else
      let ratio := imag b / real b in
      let denom := real b + imag b * ratio in
      (mkC ((real a + imag a * ratio) / denom)
           ((imag a - real a * ratio) / denom), false)
  else if abs_breal <=? abs_bimag then
    let ratio := real b / imag b in
    let denom := real b * ratio + imag b in
    (mkC ((real a * ratio + imag a) / denom)
         ((imag a * ratio - real a) / denom), false)
  else (mkC nan nan, false).

(** [c_powu]: square and multiply over the bits of [n], lowest first.
    [r] is the result so far and [p] the current square. *)
Fixpoint c_powu_bits (n : positive) (r p : complex) : complex :=
  match n with
  | xH => _Py_c_prod r p
  | xO n' => c_powu_bits n' r (_Py_c_prod p p)
  | xI n' => c_powu_bits n' (_Py_c_prod r p) (_Py_c_prod p p)
  end.

Definition c_powu (x : complex) (n : Z) : complex :=
  match n with
  | Zpos n' => c_powu_bits n' c_1 x
  | _ => c_1
  end.

Definition c_powi (x : complex) (n : Z) : complex * bool :=
  if (0 <? n)%Z then (c_powu x n, false)
  else _Py_c_quot c_1 (c_powu x (- n)).

Definition is_huge (r : complex) : bool :=
  is_infinity (real r) || is_infinity (imag r).

(** [_Py_c_pow] for a real exponent [b] (the imaginary part of the
    exponent is [0.0] on every path of the program), with the [errno] it
    leaves: [cos] and [sin] of an infinite phase set [EDOM], and
    [_Py_ADJUST_ERANGE2] leaves [ERANGE] exactly when a component of the
    result is infinite. *)
Definition _Py_c_pow (a : complex) (b : float) : complex * errno_t :=
  if b =? 0 then (c_1, None)
  else if (real a =? 0) && (imag a =? 0) then
    (mkC 0 0, if b <? 0 then Some ZeroDivisionError else None)
  else
    let vabs := hypot (real a) (imag a) in
    let len := pow vabs b in
    let at_ := atan2 (imag a) (real a) in
    let phase := at_ * b in
    let r := mkC (len * cos phase) (len * sin phase) in
    (r, if is_infinity phase then Some ZeroDivisionError
        else if is_huge r then Some OverflowError
        else None).

(** [complex_pow] with a real exponent: a small integral exponent takes
    [c_powi], any other the polar form; [EDOM] becomes
    [ZeroDivisionError] and [ERANGE] becomes [OverflowError]. *)
Definition complex_pow (a : complex) (b : float) : result complex :=
  if Float64.is_integer b && (abs b <=? 100) then
    match Float64.trunc b with
    | Ok n =>
        let '(p, edom) := c_powi a n in
        if edom then Raise ZeroDivisionError
        else if is_huge p then Raise OverflowError
        else Ok p
    | Raise e => Raise e
    end
  else
    match _Py_c_pow a b with
    | (p, None) => Ok p
    | (_, Some e) => Raise e
    end.

(** [complex_abs]: [_Py_c_abs] and the [errno] test after it. *)
Definition complex_abs (z : complex) : result float :=
  if negb (is_finite (real z)) || negb (is_finite (imag z)) then
    if is_infinity (real z) then Ok (abs (real z))
    else if is_infinity (imag z) then Ok (abs (imag z))
    else Ok nan
  else
    let r := hypot (real z) (imag z) in
    if is_finite r then Ok r else Raise OverflowError.

(** *** [Objects/floatobject.c]: [float_pow] *)

Definition float_pow (iv iw : float) : result pynum :=
  if iw =? 0 then Ok (PyFloat 1)
  else if is_nan iv then Ok (PyFloat iv)
  else if is_nan iw then Ok (PyFloat (if iv =? 1 then 1 else iw))
  else if is_infinity iw then
    let iv := abs iv in
    if iv =? 1 then Ok (PyFloat 1)
    else if Bool.eqb (0 <? iw) (1 <? iv) then Ok (PyFloat (abs iw))
    else Ok (PyFloat 0)
  else if is_infinity iv then
    let iw_is_odd := Float64.is_odd_integer iw in
    if 0 <? iw then Ok (PyFloat (if iw_is_odd then iv else abs iv))
    else Ok (PyFloat (if iw_is_odd then Float64.copysign 0 iv else 0))
  else if iv =? 0 then
    if iw <? 0 then Raise ZeroDivisionError
    else Ok (PyFloat (if Float64.is_odd_integer iw then iv else 0))
  else if (iv <? 0) && negb (Float64.is_integer iw) then
    (* a negative number to a fractional power is complex *)
    z <- complex_pow (mkC iv 0) iw ;; Ok (PyComplex z)
  else
    let negate_result := (iv <? 0) && Float64.is_odd_integer iw in
    let iv := if iv <? 0 then - iv else iv in
    if iv =? 1 then Ok (PyFloat (if negate_result then -1 else 1))
    else
      let ix := pow iv iw in
      if is_infinity ix then Raise OverflowError
      else Ok (PyFloat (if negate_result then - ix else ix)).

(** *** The numeric tower *)

Definition to_float (v : pynum) : result float :=
  match v with
  | PyInt n => Float64.PyLong_AsDouble n
  | PyFloat x => Ok x
  | PyComplex _ => Raise TypeError
  end.

Definition to_complex (v : pynum) : result complex :=
  match v with
  | PyComplex z => Ok z
  | _ => x <- to_float v ;; Ok (mkC x 0)
  end.

Definition py_neg (v : pynum) : pynum :=
  match v with
  | PyInt n => PyInt (- n)
  | PyFloat x => PyFloat (- x)
  | PyComplex z => PyComplex (_Py_c_neg z)
  end.

Definition py_add (a b : pynum) : result pynum :=
  match a, b with
  | PyInt x, PyInt y => Ok (PyInt (x + y))
  | PyComplex _, _ | _, PyComplex _ =>
      x <- to_complex a ;; y <- to_complex b ;; Ok (PyComplex (_Py_c_sum x y))
  | _, _ => x <- to_float a ;; y <- to_float b ;; Ok (PyFloat (x + y))
  end.

Definition py_mul (a b : pynum) : result pynum :=
  match a, b with
  | PyInt x, PyInt y => Ok (PyInt (x * y))
  | PyComplex _, _ | _, PyComplex _ =>
      x <- to_complex a ;; y <- to_complex b ;; Ok (PyComplex (_Py_c_prod x y))
  | _, _ => x <- to_float a ;; y <- to_float b ;; Ok (PyFloat (x * y))
  end.

(** [base ** d] for an int exponent [d]. *)
Definition py_pow_int (base : pynum) (d : Z) : result pynum :=
  match base with
  | PyInt b =>
      if (0 <=? d)%Z then Ok (PyInt (b ^ d))
      else
        x <- Float64.PyLong_AsDouble b ;;
        y <- Float64.PyLong_AsDouble d ;;
        float_pow x y
  | PyFloat x => y <- Float64.PyLong_AsDouble d ;; float_pow x y
  | PyComplex z =>
      y <- Float64.PyLong_AsDouble d ;;
      p <- complex_pow z y ;;
      Ok (PyComplex p)
  end.

(** [abs(v)]. *)
Definition py_abs (v : pynum) : result pynum :=
  match v with
  | PyInt n => Ok (PyInt (Z.abs n))
  | PyFloat x => Ok (PyFloat (abs x))
  | PyComplex z => x <- complex_abs z ;; Ok (PyFloat x)
  end.

(** [a > b]; a complex operand is a [TypeError]. *)
Definition py_gt (a b : pynum) : result bool :=
  match a, b with
  | PyInt x, PyInt y => Ok (y <? x)%Z
  | PyFloat x, PyFloat y => Ok (y <? x)
  | PyFloat x, PyInt y => Ok (Float64.gt_int x y)
  | PyInt x, PyFloat y => Ok (Float64.lt_int y x)
  | _, _ => Raise TypeError
  end.

(** [int(v)]. *)
Definition py_int (v : pynum) : result Z :=
  match v with
  | PyInt n => Ok n
  | PyFloat x => Float64.trunc x
  | PyComplex _ => Raise TypeError
  end.

(** [n * [v]]: a list repeated a negative number of times is empty. *)
Definition py_list_repeat (n : Z) (v : Z) : list Z :=
  repeat v (Z.to_nat n).

(** [range(lo, hi)]. *)
Definition py_range (lo hi : Z) : list Z :=
  map (fun k => (lo + Z.of_nat k)%Z) (seq 0 (Z.to_nat (hi - lo))).

(** *** [numpy.angle(z, deg=True)]

    [arctan2(z.imag, z.real)] for a complex [z] and [arctan2(0, z)]
    otherwise, multiplied by [180 / pi]. *)
Definition np_pi : float := 0x1.921fb54442d18p+1.

Definition np_angle_deg (z : pynum) : result float :=
  match z with
  | PyComplex z => Ok (atan2 (imag z) (real z) * (180 / np_pi))
  | _ => x <- to_float z ;; Ok (atan2 0 x * (180 / np_pi))
  end.

End Runtime.

(** ** The program: [src/mandelbrot.py] *)

Definition CONST_D : Z := 4.
Definition CONST_N : Z := 200.
Definition CONST_MIN_WIDTH : Z := -2.
Definition CONST_MAX_WIDTH : Z := 1.
Definition CONST_MIN_HEIGHT : Z := -1.
Definition CONST_MAX_HEIGHT : Z := 1.
Definition CONST_WIDTH_RESOLUTION : Z := 1500.
Definition CONST_HEIGHT_RESOLUTION : Z := 1000.

Definition CONST_WIDTH_SPACING : result float :=
  q <- Float64.int_truediv (CONST_MAX_WIDTH - CONST_MIN_WIDTH) CONST_WIDTH_RESOLUTION ;;
  Ok (abs q).

Definition CONST_HEIGHT_SPACING : result float :=
  q <- Float64.int_truediv (CONST_MAX_HEIGHT - CONST_MIN_HEIGHT) CONST_HEIGHT_RESOLUTION ;;
  Ok (abs q).

Definition CONST_DIVERGENCE_LIMIT : pynum := PyInt 2.

Section Mandelbrot.

Context {M : Libm}.

(** [zeta_n = zeta_n_minus_one ** d + c]. *)
Definition calc_zeta (zeta_n_minus_one : pynum) (c : complex) (d : Z)
  : result pynum :=
  p <- py_pow_int zeta_n_minus_one d ;;
  py_add p (PyComplex c).

(** The body of [for i in range(1, n + 1)]: [Some i] in the outcome is the
    [return zeta, i] inside the loop, [None] is the loop running out. *)
Fixpoint calc_zeta_n_loop (c : complex) (d : Z) (divergence_limit : pynum)
    (range : list Z) (zeta : pynum) : result (pynum * option Z) :=
  match range with
  | [] => Ok (zeta, None)
  | i :: range' =>
      zeta <- calc_zeta zeta c d ;;
      a <- py_abs zeta ;;
      diverged <- py_gt a divergence_limit ;;
      if diverged : bool then Ok (zeta, Some i)
      else calc_zeta_n_loop c d divergence_limit range' zeta
  end.

Definition calc_zeta_n (c : complex) (d : Z) (n : Z) (divergence_limit : pynum)
  : result (pynum * Z) :=
  r <- calc_zeta_n_loop c d divergence_limit (py_range 1 (n + 1)) (PyInt 0) ;;
  match r with
  | (zeta, Some i) => Ok (zeta, i)
  | (zeta, None) => Ok (zeta, n)
  end.

Definition coord_to_complex (coord : float * float) : complex :=
  mkC (fst coord) (snd coord).

Definition coord_to_pixel (coord : float * float) : result (Z * Z) :=
  let '(x, y) := coord in
  width_spacing <- CONST_WIDTH_SPACING ;;
  height_spacing <- CONST_HEIGHT_SPACING ;;
  min_width <- Float64.PyLong_AsDouble CONST_MIN_WIDTH ;;
  pixel_x <- Float64.trunc (abs ((x - min_width) / width_spacing)) ;;
  min_height <- Float64.PyLong_AsDouble CONST_MIN_HEIGHT ;;
  pixel_y <- Float64.trunc (abs ((y - min_height) / height_spacing)) ;;
  Ok (pixel_x, pixel_y).

Definition map_angle_to_colour (angle : float) : result (list Z) :=
  let angle := if (angle <? 0)%float then (abs angle + Float64.of_Z 180)%float
               else angle in
  k <- Float64.int_truediv 765 360 ;;
  colour_val <- Float64.trunc (k * angle) ;;
  q <- Float64.int_truediv colour_val 255 ;;
  num <- Float64.trunc q ;;
  Ok (py_list_repeat num 255 ++ [colour_val mod 255] ++ py_list_repeat (2 - num) 1).

(** [-(2 ** (-iteration - 1 / 255)) + 1]. *)
Definition diverging_brightness (iteration : Z) : result pynum :=
  x <- Float64.PyLong_AsDouble (- iteration) ;;
  t <- Float64.int_truediv 1 255 ;;
  p <- float_pow 2 (x - t) ;;
  py_add (py_neg p) (PyInt 1).

(** [int(brightness_multiplier * v * 1)], the expression of each channel. *)
Definition scaled (brightness_multiplier : pynum) (v : Z) : result Z :=
  w <- py_mul brightness_multiplier (PyInt v) ;;
  w <- py_mul w (PyInt 1) ;;
  py_int w.

Definition get_pixel_colour (zeta : pynum) (iteration : Z) : result (Z * Z * Z) :=
  angle <- np_angle_deg zeta ;;
  brightness_multiplier <-
    (if iteration =? CONST_N then Ok (PyInt 0)
     else diverging_brightness iteration) ;;
  rgb <- map_angle_to_colour angle ;;
  match rgb with
  | [red; green; blue] =>
      r <- scaled brightness_multiplier red ;;
      g <- scaled brightness_multiplier green ;;
      b <- scaled brightness_multiplier blue ;;
      Ok (r, g, b)
  | _ => Raise ValueError   (* too many, or not enough, values to unpack *)
  end.

End Mandelbrot.

(** ** A sample of the C library

    [hypot] by the textbook formula; the other functions by the values the
    C library returns at the arguments the examples below evaluate, and NaN
    elsewhere. *)

Module SampleLibm.

Local Open Scope float_scope.

Fixpoint lookup2 (t : list (float * float * float)) (x y : float) : float :=
  match t with
  | [] => nan
  | (a, b, v) :: t' =>
      if Leibniz.eqb a x && Leibniz.eqb b y then v else lookup2 t' x y
  end.

Fixpoint lookup1 (t : list (float * float)) (x : float) : float :=
  match t with
  | [] => nan
  | (a, v) :: t' => if Leibniz.eqb a x then v else lookup1 t' x
  end.

Definition pow_table : list (float * float * float) :=
  [ (2, -0x1.0101010101010p+0, 0x1.fe9c336144d7fp-2);
    (2, -0x1.0040404040404p+2, 0x1.fe9c336144d7fp-5);
    (0x1.94c583ada5b53p+3, 20000, infinity) ].

Definition atan2_table : list (float * float * float) :=
  [ (0, 1, 0);
    (-0, -1, -0x1.921fb54442d18p+1);
    (4, -12, 0x1.68f095fdf593cp+1);
    (0x1.340efb45861c2p-2, 0x1.07b8dbff19d10p-3, 0x1.2a9634b421185p+0) ].

Definition cos_table : list (float * float) :=
  [ (0x1.b899af188246ep+15, 0x1.07e13a2b9aaa4p-1) ].

Definition sin_table : list (float * float) :=
  [ (0x1.b899af188246ep+15, -0x1.b6c2e2c3fb73fp-1) ].

Definition libm : Libm := {|
  hypot x y := sqrt (x * x + y * y);
  pow := lookup2 pow_table;
  atan2 := lookup2 atan2_table;
  cos := lookup1 cos_table;
  sin := lookup1 sin_table
|}.

End SampleLibm.

(** ** The driver: [main]

    [main] samples the plane region on a grid of [numpy.linspace] points
    and, for every point, colours the pixel [coord_to_pixel] gives it.  The
    image of [PIL] and the progress bars of [tqdm] are outside the
    repository: the model keeps the size [main] gives to [Image.new] and the
    arguments of every [img.putpixel] call, in the order of the calls. *)

(** [numpy.linspace(start, stop, num)] on floats ([endpoint=True]): the
    points [i * step + start] for [step = (stop - start) / (num - 1)], the
    last of them replaced by [stop] itself. *)
Definition np_linspace (start stop : float) (num : Z) : result (list float) :=
  if num <? 0 then Raise ValueError
  else
    let div := num - 1 in
    let delta := (stop - start)%float in
    let y := map Float64.of_Z (py_range 0 num) in
    let y :=
      if 0 <? div then
        let step := (delta / Float64.of_Z div)%float in
        if (step =? 0)%float
        then map (fun v => v / Float64.of_Z div * delta)%float y
        else map (fun v => v * step)%float y
      else map (fun v => v * delta)%float y in
    let y := map (fun v => v + start)%float y in
    Ok (if 1 <? num then removelast y ++ [stop] else y).

Definition x_points : result (list float) :=
  np_linspace (Float64.of_Z CONST_MIN_WIDTH) (Float64.of_Z CONST_MAX_WIDTH)
              CONST_WIDTH_RESOLUTION.

Definition y_points : result (list float) :=
  np_linspace (Float64.of_Z CONST_MIN_HEIGHT) (Float64.of_Z CONST_MAX_HEIGHT)
              CONST_HEIGHT_RESOLUTION.

(** The size of the image: [(CONST_WIDTH_RESOLUTION + 1,
    CONST_HEIGHT_RESOLUTION + 1)]. *)
Definition image_size : Z * Z :=
  (CONST_WIDTH_RESOLUTION + 1, CONST_HEIGHT_RESOLUTION + 1).

(** The index test of [putpixel]: a pixel of the image. *)
Definition inside (size pixel : Z * Z) : bool :=
  (0 <=? fst pixel) && (fst pixel <? fst size) &&
  (0 <=? snd pixel) && (snd pixel <? snd size).

Section Main.

Context {M : Libm}.

(** The body of the inner loop, up to the arguments of [img.putpixel]. *)
Definition main_body (coord : float * float) : result ((Z * Z) * (Z * Z * Z)) :=
  let c := coord_to_complex coord in
  r <- calc_zeta_n c CONST_D CONST_N CONST_DIVERGENCE_LIMIT ;;
  let '(zeta, iteration) := r in
  colour <- get_pixel_colour zeta iteration ;;
  pixel <- coord_to_pixel coord ;;
  Ok (pixel, colour).

(** [for v in l: body], with the state threaded through the iterations; an
    exception ends the loop. *)
Fixpoint for_each {A S : Type} (body : A -> S -> result S) (l : list A) (s : S)
  : result S :=
  match l with
  | [] => Ok s
  | v :: l' => s' <- body v s ;; for_each body l' s'
  end.

(** The two nested loops of [main] over given points: the [putpixel] calls
    made, first to last. *)
Definition main_loop (x_points y_points : list float)
  : result (list ((Z * Z) * (Z * Z * Z))) :=
  for_each (fun x calls =>
    for_each (fun y calls =>
      call <- main_body (x, y) ;;
      Ok (calls ++ [call])) y_points calls) x_points [].

Definition main : result (list ((Z * Z) * (Z * Z * Z))) :=
  xs <- x_points ;;
  ys <- y_points ;;
  main_loop xs ys.

End Main.

(** * Specification-side definitions *)

(** ** The orbit of a point and the divergence test *)

Section Orbit.

Context {M : Libm}.

(** [orbit c d k] is the accumulator [zeta] after [k] steps from the
    literal [0]. *)
Fixpoint orbit (c : complex) (d : Z) (k : nat) : result pynum :=
  match k with
  | O => Ok (PyInt 0)
  | S k' => z <- orbit c d k' ;; calc_zeta z c d
  end.

(** [abs(zeta) > divergence_limit]. *)
Definition diverged (divergence_limit zeta : pynum) : result bool :=
  a <- py_abs zeta ;; py_gt a divergence_limit.

(** Step [j] is computed and its magnitude does not exceed the limit. *)
Definition stays (c : complex) (d : Z) (divergence_limit : pynum) (j : Z) : Prop :=
  exists z, orbit c d (Z.to_nat j) = Ok z /\ diverged divergence_limit z = Ok false.

End Orbit.

(** ** The colour functions in the words of the specification *)

Section SpecColours.

Context {M : Libm}.

(** Following the specification's words for [angle_to_rgb]: a negative angle
    becomes [|angle| + 180]; [raw = round((765/360) * angle)];
    [sector = raw div 255]; [sector] components are [255], one carries
    [raw mod 255], and [2 - sector] components are [1]. *)
Definition spec_angle_to_rgb (angle_deg : float) : result (list Z) :=
  let angle := if (angle_deg <? 0)%float then (abs angle_deg + 180)%float
               else angle_deg in
  raw <- Float64.round (765 / 360 * angle)%float ;;
  let sector := raw / 255 in
  Ok (repeat 255 (Z.to_nat sector) ++ [raw mod 255] ++ repeat 1 (Z.to_nat (2 - sector))).



(** [get_pixel_colour] with the brightness given: what the function does
    after the choice between the two brightness branches. *)
Definition colour_with (brightness : result pynum) (zeta : pynum)
  : result (Z * Z * Z) :=
  angle <- np_angle_deg zeta ;;
  brightness_multiplier <- brightness ;;
  rgb <- map_angle_to_colour angle ;;
  match rgb with
  | [red; green; blue] =>
      r <- scaled brightness_multiplier red ;;
      g <- scaled brightness_multiplier green ;;
      b <- scaled brightness_multiplier blue ;;
      Ok (r, g, b)
  | _ => Raise ValueError
  end.

End SpecColours.

(** Following the specification's words for [to_pixel]:
    [floor(|x - MIN| / spacing)] with [spacing = |MAX - MIN| / resolution]. *)
Definition spec_to_pixel_axis (v : float) (lo hi resolution : Z) : result Z :=
  spacing <- Float64.int_truediv (Z.abs (hi - lo)) resolution ;;
  lo' <- Float64.PyLong_AsDouble lo ;;
  Float64.floor (abs (v - lo') / spacing).

Definition spec_to_pixel (coord : float * float) : result (Z * Z) :=
  px <- spec_to_pixel_axis (fst coord) CONST_MIN_WIDTH CONST_MAX_WIDTH
          CONST_WIDTH_RESOLUTION ;;
  py <- spec_to_pixel_axis (snd coord) CONST_MIN_HEIGHT CONST_MAX_HEIGHT
          CONST_HEIGHT_RESOLUTION ;;
  Ok (px, py).

(** ** Generic facts *)

Lemma bind_Ok {A B : Type} (m : result A) (k : A -> result B) (b : B) :
  bind m k = Ok b -> exists a, m = Ok a /\ k a = Ok b.
Proof.
  destruct m as [a|e]; simpl; intros H.
  - exists a. split; [reflexivity | exact H].
  - discriminate H.
Qed.

Lemma bind_Raise {A B : Type} (m : result A) (k : A -> result B) (e : exn) :
  bind m k = Raise e -> m = Raise e \/ exists a, m = Ok a /\ k a = Raise e.
Proof.
  destruct m as [a|e']; simpl; intros H.
  - right. exists a. split; [reflexivity | exact H].
  - left. congruence.
Qed.

Lemma py_range_nil (lo hi : Z) : hi <= lo -> py_range lo hi = [].
Proof.
  intros H. unfold py_range. replace (Z.to_nat (hi - lo)) with O by lia. reflexivity.
Qed.

Lemma py_range_cons (lo hi : Z) :
  lo < hi -> py_range lo hi = lo :: py_range (lo + 1) hi.
Proof.
  intros H. unfold py_range.
  replace (Z.to_nat (hi - lo)) with (S (Z.to_nat (hi - (lo + 1)))) by lia.
  cbn [seq map]. f_equal; [lia|].
  rewrite <- seq_shift, map_map. apply map_ext. intros k. lia.
Qed.

Section LoopFacts.

Context {M : Libm}.
Variables (c : complex) (d : Z) (divergence_limit : pynum).

Lemma orbit_succ (j : Z) (z : pynum) :
  0 <= j -> orbit c d (Z.to_nat j) = Ok z ->
  orbit c d (Z.to_nat (j + 1)) = calc_zeta z c d.
Proof.
  intros Hj Hz. replace (Z.to_nat (j + 1)) with (S (Z.to_nat j)) by lia.
  simpl. rewrite Hz. reflexivity.
Qed.

(** What an outcome of the loop over [range(lo, lo + len)] says about
    the orbit, when the loop is entered with the value of step [lo - 1]. *)
Lemma loop_inv (len : nat) : forall (lo : Z) (z0 zeta : pynum) (r : option Z),
  1 <= lo ->
  orbit c d (Z.to_nat (lo - 1)) = Ok z0 ->
  calc_zeta_n_loop c d divergence_limit (py_range lo (lo + Z.of_nat len)) z0 = Ok (zeta, r) ->
  (forall j, lo <= j < match r with Some i => i | None => lo + Z.of_nat len end ->
             stays c d divergence_limit j) /\
  orbit c d (Z.to_nat (match r with Some i => i | None => lo + Z.of_nat len - 1 end)) = Ok zeta /\
  match r with
  | Some i => lo <= i < lo + Z.of_nat len /\ diverged divergence_limit zeta = Ok true
  | None => True
  end.
Proof.
  induction len as [|len IH]; intros lo z0 zeta r Hlo Hz0 Hloop.
  - rewrite py_range_nil in Hloop by lia. simpl in Hloop.
    injection Hloop as <- <-. repeat split; [intros j Hj; lia|].
    replace (lo + Z.of_nat 0 - 1) with (lo - 1) by lia. exact Hz0.
  - replace (lo + Z.of_nat (S len)) with (lo + 1 + Z.of_nat len) in * by lia.
    rewrite py_range_cons in Hloop by lia. simpl in Hloop.
    apply bind_Ok in Hloop as (z1 & Hstep & Hloop).
    apply bind_Ok in Hloop as (a & Habs & Hloop).
    apply bind_Ok in Hloop as (b & Hgt & Hloop).
    assert (Hz1 : orbit c d (Z.to_nat lo) = Ok z1).
    { replace lo with (lo - 1 + 1) at 1 by lia.
      rewrite (orbit_succ (lo - 1) z0) by (lia || assumption). exact Hstep. }
    assert (Hdiv : diverged divergence_limit z1 = Ok b).
    { unfold diverged. rewrite Habs. simpl. exact Hgt. }
    destruct b.
    + injection Hloop as <- <-. repeat split; try lia; try assumption.
    + specialize (IH (lo + 1) z1 zeta r ltac:(lia)).
      replace (lo + 1 - 1) with lo in IH by lia.
      destruct (IH Hz1 Hloop) as (Hstay & Horb & Hr).
      split; [|split].
      * intros j Hj. destruct (Z.eq_dec j lo) as [->|Hne].
        -- exists z1. split; assumption.
        -- apply Hstay. destruct r; lia.
      * exact Horb.
      * destruct r; [|exact I]. split; [lia|]. apply Hr.
Qed.

(** The loop returns at the first step whose magnitude exceeds the limit. *)
Lemma loop_first (len : nat) : forall (lo i : Z) (z0 zi : pynum),
  1 <= lo ->
  orbit c d (Z.to_nat (lo - 1)) = Ok z0 ->
  lo <= i < lo + Z.of_nat len ->
  (forall j, lo <= j < i -> stays c d divergence_limit j) ->
  orbit c d (Z.to_nat i) = Ok zi ->
  diverged divergence_limit zi = Ok true ->
  calc_zeta_n_loop c d divergence_limit (py_range lo (lo + Z.of_nat len)) z0
  = Ok (zi, Some i).
Proof.
  induction len as [|len IH]; intros lo i z0 zi Hlo Hz0 Hi Hstay Hzi Hdiv; [lia|].
  replace (lo + Z.of_nat (S len)) with (lo + 1 + Z.of_nat len) in * by lia.
  rewrite py_range_cons by lia. simpl.
  assert (Hstep : orbit c d (Z.to_nat lo) = calc_zeta z0 c d).
  { replace lo with (lo - 1 + 1) at 1 by lia.
    apply orbit_succ; [lia | assumption]. }
  destruct (Z.eq_dec i lo) as [->|Hne].
  - rewrite <- Hstep, Hzi. simpl.
    unfold diverged in Hdiv. apply bind_Ok in Hdiv as (a & -> & Hgt). simpl.
    rewrite Hgt. reflexivity.
  - destruct (Hstay lo ltac:(lia)) as (z1 & Hz1 & Hd1).
    rewrite <- Hstep, Hz1. simpl.
    unfold diverged in Hd1. apply bind_Ok in Hd1 as (a & -> & Hgt). simpl.
    rewrite Hgt. simpl.
    apply IH; try lia; try assumption.
    + replace (lo + 1 - 1) with lo by lia. exact Hz1.
    + intros j Hj. apply Hstay. lia.
Qed.

(** With no such step the loop runs out after the last one. *)
Lemma loop_exhausted (len : nat) : forall (lo : Z) (z0 : pynum),
  1 <= lo ->
  orbit c d (Z.to_nat (lo - 1)) = Ok z0 ->
  (forall j, lo <= j < lo + Z.of_nat len -> stays c d divergence_limit j) ->
  exists zn, orbit c d (Z.to_nat (lo + Z.of_nat len - 1)) = Ok zn /\
    calc_zeta_n_loop c d divergence_limit (py_range lo (lo + Z.of_nat len)) z0
    = Ok (zn, None).
Proof.
  induction len as [|len IH]; intros lo z0 Hlo Hz0 Hstay.
  - exists z0. rewrite py_range_nil by lia.
    replace (lo + Z.of_nat 0 - 1) with (lo - 1) by lia. split; [assumption | reflexivity].
  - replace (lo + Z.of_nat (S len)) with (lo + 1 + Z.of_nat len) in * by lia.
    rewrite py_range_cons by lia. simpl.
    assert (Hstep : orbit c d (Z.to_nat lo) = calc_zeta z0 c d).
    { replace lo with (lo - 1 + 1) at 1 by lia.
      apply orbit_succ; [lia | assumption]. }
    destruct (Hstay lo ltac:(lia)) as (z1 & Hz1 & Hd1).
    rewrite <- Hstep, Hz1. simpl.
    unfold diverged in Hd1. apply bind_Ok in Hd1 as (a & -> & Hgt). simpl.
    rewrite Hgt. simpl.
    apply IH; try lia.
    + replace (lo + 1 - 1) with lo by lia. exact Hz1.
    + intros j Hj. apply Hstay. lia.
Qed.

(** An exception of a step, or of the test after it, leaves the loop. *)
Lemma loop_raises (len : nat) : forall (lo i : Z) (z0 : pynum) (e : exn),
  1 <= lo ->
  orbit c d (Z.to_nat (lo - 1)) = Ok z0 ->
  lo <= i < lo + Z.of_nat len ->
  (forall j, lo <= j < i -> stays c d divergence_limit j) ->
  (z <- orbit c d (Z.to_nat i) ;; diverged divergence_limit z) = Raise e ->
  calc_zeta_n_loop c d divergence_limit (py_range lo (lo + Z.of_nat len)) z0
  = Raise e.
Proof.
  induction len as [|len IH]; intros lo i z0 e Hlo Hz0 Hi Hstay Hraise; [lia|].
  replace (lo + Z.of_nat (S len)) with (lo + 1 + Z.of_nat len) in * by lia.
  rewrite py_range_cons by lia. simpl.
  assert (Hstep : orbit c d (Z.to_nat lo) = calc_zeta z0 c d).
  { replace lo with (lo - 1 + 1) at 1 by lia.
    apply orbit_succ; [lia | assumption]. }
  destruct (Z.eq_dec i lo) as [->|Hne].
  - rewrite <- Hstep.
    destruct (orbit c d (Z.to_nat lo)) as [z|e']; simpl in *; [|congruence].
    unfold diverged in Hraise.
    destruct (py_abs z) as [a|e']; simpl in *; [|congruence].
    rewrite Hraise. reflexivity.
  - destruct (Hstay lo ltac:(lia)) as (z1 & Hz1 & Hd1).
    rewrite <- Hstep, Hz1. simpl.
    unfold diverged in Hd1. apply bind_Ok in Hd1 as (a & -> & Hgt). simpl.
    rewrite Hgt. simpl.
    apply IH with (i := i); try lia; try assumption.
    + replace (lo + 1 - 1) with lo by lia. exact Hz1.
    + intros j Hj. apply Hstay. lia.
Qed.

End LoopFacts.

(** ** The divergence test is strict *)

Lemma SFltb_irrefl (f : spec_float) : SFltb f f = false.
Proof.
  destruct f as [s|s| |s m e]; try reflexivity.
  - destruct s; reflexivity.
  - unfold SFltb, SFcompare. rewrite Z.compare_refl.
    change (Pos.compare_cont Eq m m) with (Pos.compare m m).
    rewrite Pos.compare_refl. destruct s; reflexivity.
Qed.

Lemma float_ltb_irrefl (x : float) : (x <? x)%float = false.
Proof. rewrite ltb_spec. apply SFltb_irrefl. Qed.

Lemma gt_int_exact (x : float) (k : Z) :
  Float64.is_integer x = true -> Float64.trunc x = Ok k ->
  Float64.gt_int x k = false.
Proof.
  unfold Float64.is_integer, Float64.trunc, Float64.gt_int.
  destruct (Prim2SF x) as [s|s| |s m e]; try discriminate.
  - intros _ [= <-]. reflexivity.
  - intros Hint [= <-]. apply Z.eqb_eq in Hint.
    destruct (Z.leb_spec 0 e) as [He|He].
    + replace (Z.shiftl (cond_Zopp s (Z.pos m)) e)
        with (cond_Zopp s (Z.shiftl (Z.pos m) e)); [apply Z.ltb_irrefl|].
      destruct s; simpl; [|reflexivity].
      rewrite !Z.shiftl_mul_pow2 by assumption. lia.
    + replace (Z.shiftl (cond_Zopp s (Z.shiftl (Z.pos m) e)) (- e))
        with (cond_Zopp s (Z.pos m)); [apply Z.ltb_irrefl|].
      destruct s; simpl.
      * rewrite Z.shiftl_mul_pow2 by lia. rewrite Z.shiftl_mul_pow2 in Hint by lia. lia.
      * symmetry. exact Hint.
Qed.

(** * Binary64 rounding never crosses a binary64 number

    The specification of the primitive floats ([SpecFloat], [FloatAxioms])
    gives every operation as an exact result rounded by [binary_round_aux].
    This part shows what the bounds on pixels and colours need of it: a
    rounded result is not above a binary64 number that the exact result is
    not above.  Exact values are rationals. *)

(** ** Powers of two *)

Definition bpow (e : Z) : Q := (2 ^ e)%Q.

Lemma bpow_pos (e : Z) : (0 < bpow e)%Q.
Proof. unfold bpow. apply Qpower_0_lt. reflexivity. Qed.

Lemma bpow_add (a b : Z) : (bpow (a + b) == bpow a * bpow b)%Q.
Proof. unfold bpow. apply Qpower_plus. discriminate. Qed.

Lemma bpow_Z (e : Z) : 0 <= e -> (bpow e == inject_Z (2 ^ e))%Q.
Proof. intros H. unfold bpow. rewrite Zpower_Qpower by assumption. reflexivity. Qed.

Lemma bpow_le (a b : Z) : a <= b -> (bpow a <= bpow b)%Q.
Proof.
  intros H. replace b with (a + (b - a)) by lia. rewrite bpow_add.
  rewrite (bpow_Z (b - a)) by lia.
  assert (H1 : (1 <= inject_Z (2 ^ (b - a)))%Q).
  { change 1%Q with (inject_Z 1). rewrite <- Zle_Qle.
    pose proof (Z.pow_pos_nonneg 2 (b - a)). lia. }
  pose proof (bpow_pos a). nra.
Qed.

Lemma bpow_lt (a b : Z) : a < b -> (bpow a < bpow b)%Q.
Proof.
  intros H. replace b with (a + (b - a)) by lia. rewrite bpow_add.
  rewrite (bpow_Z (b - a)) by lia.
  assert (H1 : (2 <= inject_Z (2 ^ (b - a)))%Q).
  { change 2%Q with (inject_Z 2). rewrite <- Zle_Qle.
    replace (b - a) with (1 + (b - a - 1)) by lia.
    rewrite Z.pow_add_r by lia.
    pose proof (Z.pow_pos_nonneg 2 (b - a - 1)). lia. }
  pose proof (bpow_pos a). nra.
Qed.

(** The value [m * 2^e] of an integer mantissa and an exponent. *)
Definition dyadic (m e : Z) : Q := (inject_Z m * bpow e)%Q.

Lemma dyadic_shift (m e k : Z) :
  0 <= k -> (dyadic (m * 2 ^ k) e == dyadic m (e + k))%Q.
Proof.
  intros Hk. unfold dyadic. rewrite inject_Z_mult, bpow_add, (bpow_Z k) by assumption.
  ring.
Qed.

Lemma dyadic_le (m1 m2 e : Z) : m1 <= m2 -> (dyadic m1 e <= dyadic m2 e)%Q.
Proof.
  intros H. unfold dyadic. rewrite Zle_Qle in H. pose proof (bpow_pos e). nra.
Qed.

Lemma dyadic_lt (m1 m2 e : Z) : m1 < m2 -> (dyadic m1 e < dyadic m2 e)%Q.
Proof.
  intros H. unfold dyadic. rewrite Zlt_Qlt in H. pose proof (bpow_pos e). nra.
Qed.

Lemma dyadic_le_inv (m1 m2 e : Z) : (dyadic m1 e <= dyadic m2 e)%Q -> m1 <= m2.
Proof.
  intros H. destruct (Z.le_gt_cases m1 m2) as [|Hgt]; [assumption|].
  apply (dyadic_lt m2 m1 e) in Hgt. lra.
Qed.

Lemma dyadic_lt_inv (m1 m2 e : Z) : (dyadic m1 e < dyadic m2 e)%Q -> m1 < m2.
Proof.
  intros H. destruct (Z.lt_ge_cases m1 m2) as [|Hge]; [assumption|].
  apply (dyadic_le m2 m1 e) in Hge. lra.
Qed.

Lemma dyadic_opp (m e : Z) : (dyadic (- m) e == - dyadic m e)%Q.
Proof. unfold dyadic. rewrite inject_Z_opp. ring. Qed.

Lemma dyadic_pos (m : positive) (e : Z) : (0 < dyadic (Zpos m) e)%Q.
Proof.
  unfold dyadic. pose proof (bpow_pos e).
  assert ((0 < inject_Z (Zpos m))%Q) by (change 0%Q with (inject_Z 0); rewrite <- Zlt_Qlt; lia).
  nra.
Qed.

Lemma dyadic_add (a b e : Z) : (dyadic (a + b) e == dyadic a e + dyadic b e)%Q.
Proof. unfold dyadic. rewrite inject_Z_plus. ring. Qed.

Lemma dyadic_sub (a b e : Z) : (dyadic (a - b) e == dyadic a e - dyadic b e)%Q.
Proof. unfold dyadic, Z.sub. rewrite inject_Z_plus, inject_Z_opp. ring. Qed.

Lemma dyadic_0 (e : Z) : (dyadic 0 e == 0)%Q.
Proof. unfold dyadic. change (inject_Z 0) with 0%Q. ring. Qed.

Lemma dyadic_mul (a b e f : Z) :
  (dyadic (a * b) (e + f) == dyadic a e * dyadic b f)%Q.
Proof. unfold dyadic. rewrite inject_Z_mult, bpow_add. ring. Qed.

Lemma dyadic_nonneg_inv (m e : Z) : (0 <= dyadic m e)%Q -> 0 <= m.
Proof. intros H. rewrite <- (dyadic_0 e) in H. apply dyadic_le_inv in H. exact H. Qed.

(** ** Digits *)

Lemma digits2_pos_size (m : positive) : digits2_pos m = Pos.size m.
Proof. induction m as [m IH|m IH|]; simpl; rewrite ?IH; reflexivity. Qed.

Lemma digits2_pos_bounds (m : positive) :
  2 ^ (Zpos (digits2_pos m) - 1) <= Zpos m < 2 ^ Zpos (digits2_pos m).
Proof.
  rewrite digits2_pos_size. split.
  - pose proof (Pos.size_le m) as H.
    assert (H' : 2 ^ Zpos (Pos.size m) <= 2 * Zpos m).
    { rewrite <- Pos2Z.inj_pow. exact H. }
    replace (Zpos (Pos.size m)) with (1 + (Zpos (Pos.size m) - 1)) in H' by lia.
    rewrite Z.pow_add_r in H' by lia. lia.
  - pose proof (Pos.size_gt m) as H. rewrite <- Pos2Z.inj_pow. exact H.
Qed.

Lemma Zdigits2_bounds (m : Z) :
  0 < m -> 2 ^ (Zdigits2 m - 1) <= m < 2 ^ Zdigits2 m.
Proof.
  destruct m as [|p|p]; try lia. intros _. apply digits2_pos_bounds.
Qed.

Lemma Zdigits2_nonneg (m : Z) : 0 <= Zdigits2 m.
Proof. destruct m; simpl; lia. Qed.

Lemma Zdigits2_pos (m : Z) : 0 < m -> 0 < Zdigits2 m.
Proof. destruct m; simpl; lia. Qed.

(** A number below [2^k] has at most [k] digits, and a number from [2^k]
    on has more. *)
Lemma Zdigits2_le (m k : Z) : 0 <= k -> 0 <= m < 2 ^ k -> Zdigits2 m <= k.
Proof.
  intros Hk [H0 Hm]. destruct (Z.eq_dec m 0) as [->|Hne]; [simpl; lia|].
  pose proof (Zdigits2_bounds m ltac:(lia)) as [Hlo _].
  destruct (Z.le_gt_cases (Zdigits2 m) k) as [|Hgt]; [assumption|exfalso].
  assert (2 ^ k <= 2 ^ (Zdigits2 m - 1)) by (apply Z.pow_le_mono_r; lia). lia.
Qed.

Lemma Zdigits2_gt (m k : Z) : 0 <= k -> 2 ^ k <= m -> k < Zdigits2 m.
Proof.
  intros Hk Hm. pose proof (Z.pow_pos_nonneg 2 k ltac:(lia) Hk).
  pose proof (Zdigits2_bounds m ltac:(lia)) as [_ Hhi].
  destruct (Z.lt_ge_cases k (Zdigits2 m)) as [|Hge]; [assumption|exfalso].
  assert (2 ^ Zdigits2 m <= 2 ^ k)
    by (apply Z.pow_le_mono_r; [lia | exact Hge]).
  lia.
Qed.

(** ** Shifting a mantissa right *)

Definition rec_exact (mrs : shr_record) : Prop :=
  loc_of_shr_record mrs = loc_Exact.

(** [b] is [a] shifted right by [k] bits: the mantissa is halved [k] times
    and the record is exact exactly when nothing was lost. *)
Definition shifted (k : Z) (a b : shr_record) : Prop :=
  0 <= shr_m a ->
  0 <= shr_m b /\
  shr_m b = shr_m a / 2 ^ k /\
  (rec_exact b <-> rec_exact a /\ shr_m a = shr_m b * 2 ^ k).

Lemma rec_exact_iff (m : Z) (r s : bool) :
  rec_exact (Build_shr_record m r s) <-> r = false /\ s = false.
Proof.
  unfold rec_exact. destruct r, s; simpl; split; try intros [? ?];
    try discriminate; auto.
Qed.

Lemma shr_1_shifted (a : shr_record) : shifted 1 a (shr_1 a).
Proof.
  destruct a as [m r s]. unfold shifted. simpl shr_m. intros Hm.
  change (2 ^ 1) with 2.
  destruct m as [|[p|p|]|p]; [| | | |lia]; simpl shr_1; simpl shr_m;
    rewrite !rec_exact_iff; (split; [lia|]); split.
  - reflexivity.
  - destruct r, s; simpl in *; intuition (discriminate || lia).
  - rewrite Pos2Z.inj_xI. apply Z.div_unique with (r := 1); lia.
  - intuition (discriminate || lia).
  - rewrite Pos2Z.inj_xO. apply Z.div_unique with (r := 0); lia.
  - destruct r, s; simpl in *; intuition (discriminate || lia).
  - reflexivity.
  - intuition (discriminate || lia).
Qed.

Lemma shifted_trans (k1 k2 : Z) (a b c : shr_record) :
  0 <= k1 -> 0 <= k2 ->
  shifted k1 a b -> shifted k2 b c -> shifted (k1 + k2) a c.
Proof.
  intros Hk1 Hk2 Hab Hbc Ha.
  destruct (Hab Ha) as (Hb & Hbm & Hbe).
  destruct (Hbc Hb) as (Hc & Hcm & Hce).
  pose proof (Z.pow_pos_nonneg 2 k1 ltac:(lia) Hk1) as Hp1.
  pose proof (Z.pow_pos_nonneg 2 k2 ltac:(lia) Hk2) as Hp2.
  split; [assumption|]. split.
  - rewrite Hcm, Hbm, Z.pow_add_r by assumption.
    rewrite Z.div_div by lia. reflexivity.
  - rewrite Hce, Hbe, Z.pow_add_r by assumption. split.
    + intros [[Hae H1] H2]. split; [assumption|]. rewrite H1, H2. ring.
    + intros [Hae H]. 
      assert (H1 : shr_m a = shr_m b * 2 ^ k1).
      { rewrite Hbm. rewrite H. replace (shr_m c * (2 ^ k1 * 2 ^ k2))
          with ((shr_m c * 2 ^ k2) * 2 ^ k1) by ring.
        rewrite Z.div_mul by lia. reflexivity. }
      split; [split; assumption|].
      rewrite H1 in H. nia.
Qed.

Lemma iter_pos_shifted (p : positive) :
  forall a, shifted (Zpos p) a (SpecFloat.iter_pos shr_1 p a).
Proof.
  induction p as [p IH|p IH|]; intros a; simpl SpecFloat.iter_pos.
  - replace (Zpos p~1) with (1 + (Zpos p + Zpos p)) by lia.
    apply shifted_trans with (b := shr_1 a); try lia; [apply shr_1_shifted|].
    apply shifted_trans with (b := SpecFloat.iter_pos shr_1 p (shr_1 a)); try lia; apply IH.
  - replace (Zpos p~0) with (Zpos p + Zpos p) by lia.
    apply shifted_trans with (b := SpecFloat.iter_pos shr_1 p a); try lia; apply IH.
  - apply shr_1_shifted.
Qed.

(** [shr] by [n] bits, for any [n]. *)
Lemma shr_shifted (mrs : shr_record) (e n : Z) :
  shifted (Z.max n 0) mrs (fst (shr mrs e n)) /\
  snd (shr mrs e n) = e + Z.max n 0.
Proof.
  destruct n as [|p|p]; cbn [shr fst snd].
  - split; [|lia]. intros H. change (2 ^ Z.max 0 0) with 1.
    rewrite Z.div_1_r. intuition lia.
  - split; [|lia]. apply iter_pos_shifted.
  - split; [|lia]. intros H. change (2 ^ Z.max (Z.neg p) 0) with 1.
    rewrite Z.div_1_r. intuition lia.
Qed.

Lemma shr_record_of_loc_m (m : Z) (l : location) :
  shr_m (shr_record_of_loc m l) = m.
Proof. destruct l as [|[ | | ]]; reflexivity. Qed.

Lemma shr_record_of_loc_exact (m : Z) (l : location) :
  rec_exact (shr_record_of_loc m l) <-> l = loc_Exact.
Proof.
  unfold rec_exact. destruct l as [|[ | | ]]; simpl; split; intros H;
    try discriminate; reflexivity.
Qed.

Lemma round_nearest_even_bounds (m : Z) (l : location) :
  m <= round_nearest_even m l <= m + 1 /\
  (l = loc_Exact -> round_nearest_even m l = m).
Proof.
  destruct l as [|[ | | ]]; simpl; try (split; [lia | intros; try discriminate; reflexivity]).
  destruct (Z.even m); split; try lia; intros; discriminate.
Qed.

(** ** Rounding *)

(** The value of a float that is a number, and [0] for the others. *)
Definition SF2Q (f : spec_float) : Q :=
  match f with
  | S754_finite s m e => dyadic (cond_Zopp s (Zpos m)) e
  | _ => 0%Q
  end.

(** [f] is a zero or a positive number of the format's range, not above
    [b]. *)
Definition within (emax_prec : Z) (f : spec_float) (b : Q) : Prop :=
  match f with
  | S754_zero _ => True
  | S754_finite false m e => e <= emax_prec /\ (dyadic (Zpos m) e <= b)%Q
  | _ => False
  end.

Section Rounding.

Variables prec emax : Z.
Hypothesis prec_pos : 0 < prec.

Local Abbreviation fexp := (SpecFloat.fexp prec emax).
Local Abbreviation emin := (SpecFloat.emin prec emax).

Definition canonical (m : positive) (e : Z) : Prop :=
  canonical_mantissa prec emax m e = true.

Lemma fexp_ge (e : Z) : e - prec <= fexp e /\ emin <= fexp e.
Proof. unfold SpecFloat.fexp. lia. Qed.

Lemma fexp_mono (a b : Z) : a <= b -> fexp a <= fexp b.
Proof. unfold SpecFloat.fexp. lia. Qed.

Lemma canonical_bounds (m : positive) (e : Z) :
  canonical m e ->
  emin <= e /\ Zpos m < 2 ^ prec /\ (emin < e -> 2 ^ (prec - 1) <= Zpos m).
Proof.
  unfold canonical, canonical_mantissa. intros H. apply Z.eqb_eq in H.
  pose proof (digits2_pos_bounds m) as [Hlo Hhi].
  unfold SpecFloat.fexp in H.
  assert (Hd : Zpos (digits2_pos m) <= prec) by lia.
  repeat split.
  - lia.
  - assert (2 ^ Zpos (digits2_pos m) <= 2 ^ prec) by (apply Z.pow_le_mono_r; lia). lia.
  - intros He. assert (Zpos (digits2_pos m) = prec) as Hd' by lia.
    rewrite Hd' in Hlo. exact Hlo.
Qed.

(** A mantissa of full width under a larger exponent is above every
    canonical number of a smaller one. *)
Lemma above_canonical (m e : Z) (mb : positive) (eb : Z) :
  2 ^ (prec - 1) <= m -> eb < e -> canonical mb eb ->
  (dyadic (Zpos mb) eb < dyadic m e)%Q.
Proof.
  intros Hm He Hb. apply canonical_bounds in Hb as (_ & Hmb & _).
  apply Qlt_le_trans with (y := dyadic (2 ^ prec) eb).
  - apply dyadic_lt. exact Hmb.
  - apply Qle_trans with (y := dyadic (2 ^ (prec - 1)) e).
    + replace e with (eb + 1 + (e - eb - 1)) by lia.
      rewrite <- (dyadic_shift _ (eb + 1) (e - eb - 1)) by lia.
      rewrite <- (dyadic_shift _ eb 1) by lia.
      apply dyadic_le.
      replace (2 ^ prec) with (2 ^ (prec - 1) * 2 ^ 1).
      2:{ rewrite <- Z.pow_add_r by lia. f_equal. lia. }
      pose proof (Z.pow_pos_nonneg 2 (e - eb - 1) ltac:(lia) ltac:(lia)).
      pose proof (Z.pow_pos_nonneg 2 (prec - 1) ltac:(lia) ltac:(lia)).
      nia.
    + apply dyadic_le. exact Hm.
Qed.

(** The first shift of [binary_round_aux], for an input with enough bits. *)
Lemma shr_fexp_spec (m e : Z) (l : location) :
  0 <= m -> e <= fexp (Zdigits2 m + e) ->
  let mrs := fst (shr_fexp prec emax m e l) in
  let e' := snd (shr_fexp prec emax m e l) in
  e' = fexp (Zdigits2 m + e) /\
  shr_m mrs = m / 2 ^ (e' - e) /\
  0 <= shr_m mrs < 2 ^ prec /\
  (emin < e' -> 2 ^ (prec - 1) <= shr_m mrs) /\
  (rec_exact mrs <-> l = loc_Exact /\ m = shr_m mrs * 2 ^ (e' - e)).
Proof.
  intros Hm Hpre mrs e'. unfold shr_fexp in mrs, e'.
  set (n := fexp (Zdigits2 m + e) - e) in *.
  destruct (shr_shifted (shr_record_of_loc m l) e n) as [Hsh He'].
  fold mrs in Hsh. fold e' in He'.
  rewrite Z.max_l in Hsh, He' by lia.
  destruct (Hsh ltac:(rewrite shr_record_of_loc_m; exact Hm)) as (H0 & Hdiv & Hex).
  rewrite shr_record_of_loc_m, shr_record_of_loc_exact in Hex.
  rewrite shr_record_of_loc_m in Hdiv.
  assert (Hn : e' - e = n) by lia. rewrite Hn.
  assert (Hpn : 0 < 2 ^ n) by (apply Z.pow_pos_nonneg; lia).
  repeat split; try assumption; try lia; try tauto.
  - (* below 2^prec *)
    rewrite Hdiv. apply Z.div_lt_upper_bound; [lia|].
    destruct (Z.eq_dec m 0) as [->|Hne].
    { pose proof (Z.pow_pos_nonneg 2 prec ltac:(lia) ltac:(lia)). nia. }
    pose proof (Zdigits2_bounds m ltac:(lia)) as [_ Hhi].
    pose proof (fexp_ge (Zdigits2 m + e)) as [Hf _].
    assert (2 ^ Zdigits2 m <= 2 ^ (n + prec)) by (apply Z.pow_le_mono_r; lia).
    rewrite Z.pow_add_r in * by lia. lia.
  - (* a normal result has all its bits *)
    intros Hemin. rewrite Hdiv.
    assert (Hfe : fexp (Zdigits2 m + e) = Zdigits2 m + e - prec).
    { unfold SpecFloat.fexp in *. lia. }
    destruct (Z.eq_dec m 0) as [->|Hne].
    { simpl Zdigits2 in *. lia. }
    pose proof (Zdigits2_bounds m ltac:(lia)) as [Hlo _].
    apply Z.div_le_lower_bound; [lia|].
    replace (Zdigits2 m - 1) with (n + (prec - 1)) in Hlo by lia.
    rewrite Z.pow_add_r in Hlo by lia. lia.
Qed.

(** Any shift of [shr_fexp] takes the floor. *)
Lemma shr_fexp_floor (m e : Z) (l : location) :
  0 <= m ->
  let mrs := fst (shr_fexp prec emax m e l) in
  let e' := snd (shr_fexp prec emax m e l) in
  let k := Z.max (fexp (Zdigits2 m + e) - e) 0 in
  e' = e + k /\ shr_m mrs = m / 2 ^ k /\ 0 <= shr_m mrs.
Proof.
  intros Hm mrs e' k. unfold shr_fexp in mrs, e'.
  destruct (shr_shifted (shr_record_of_loc m l) e (fexp (Zdigits2 m + e) - e))
    as [Hsh He'].
  fold mrs in Hsh. fold e' in He'. fold k in Hsh, He'.
  destruct (Hsh ltac:(rewrite shr_record_of_loc_m; exact Hm)) as (H0 & Hdiv & _).
  rewrite shr_record_of_loc_m in Hdiv. auto.
Qed.

Lemma dyadic_floor (m e k : Z) :
  0 <= k -> (dyadic (m / 2 ^ k) (e + k) <= dyadic m e)%Q.
Proof.
  intros Hk. rewrite <- dyadic_shift by assumption. apply dyadic_le.
  pose proof (Z.pow_pos_nonneg 2 k ltac:(lia) Hk).
  pose proof (Z.mul_div_le m (2 ^ k) ltac:(lia)). lia.
Qed.

(** The result of rounding is not above a number of the format that the
    exact value is not above.  [mx * 2^ex] is the exact value truncated at
    [ex], and [lx] says whether anything was cut. *)
Lemma binary_round_aux_within (mx ex : Z) (lx : location) (mb : positive) (eb : Z) :
  0 <= mx -> ex <= fexp (Zdigits2 mx + ex) ->
  canonical mb eb -> eb <= emax - prec ->
  (dyadic mx ex <= dyadic (Zpos mb) eb)%Q ->
  (lx <> loc_Exact -> (dyadic mx ex < dyadic (Zpos mb) eb)%Q) ->
  within (emax - prec) (binary_round_aux prec emax false mx ex lx)
         (dyadic (Zpos mb) eb).
Proof.
  intros Hmx Hpre Hcan Hbnd Hle Hlt.
  pose proof (canonical_bounds mb eb Hcan) as (Heb & Hmb & _).
  unfold binary_round_aux.
  pose proof (shr_fexp_spec mx ex lx Hmx Hpre) as H1. cbv zeta in H1.
  destruct (shr_fexp prec emax mx ex lx) as [mrs1 e1]. cbn [fst snd] in H1.
  destruct H1 as (He1 & Hm1 & Hm1b & Hm1n & Hex1).
  set (m1 := shr_m mrs1) in *.
  pose proof (round_nearest_even_bounds m1 (loc_of_shr_record mrs1)) as [Hr Hre].
  set (m2 := round_nearest_even m1 (loc_of_shr_record mrs1)) in *.
  assert (Hn1 : 0 <= e1 - ex) by lia.
  assert (Hfl1 : (dyadic m1 e1 <= dyadic mx ex)%Q).
  { rewrite Hm1. replace e1 with (ex + (e1 - ex)) at 2 by lia.
    apply dyadic_floor. exact Hn1. }
  (* the rounded mantissa is still not above the bound *)
  assert (HA : (dyadic m2 e1 <= dyadic (Zpos mb) eb)%Q).
  { destruct (Z.eq_dec m2 m1) as [->|Hup].
    - lra.
    - assert (Hm2 : m2 = m1 + 1) by lia.
      assert (Hinex : ~ rec_exact mrs1).
      { intros Hx. apply Hup, Hre, Hx. }
      assert (Hstrict : (dyadic m1 e1 < dyadic (Zpos mb) eb)%Q).
      { destruct lx as [|c].
        - assert (Hne : mx <> m1 * 2 ^ (e1 - ex)) by tauto.
          assert (Hlt' : m1 * 2 ^ (e1 - ex) < mx).
          { pose proof (Z.pow_pos_nonneg 2 (e1 - ex) ltac:(lia) Hn1).
            pose proof (Z.mul_div_le mx (2 ^ (e1 - ex)) ltac:(lia)).
            rewrite <- Hm1 in *. lia. }
          apply (dyadic_lt _ _ ex) in Hlt'.
          rewrite dyadic_shift in Hlt' by lia.
          replace (ex + (e1 - ex)) with e1 in Hlt' by lia. lra.
        - assert ((dyadic mx ex < dyadic (Zpos mb) eb)%Q) by (apply Hlt; discriminate).
          lra. }
      destruct (Z.le_gt_cases e1 eb) as [Hee|Hee].
      + assert (HB : (dyadic (Zpos mb) eb == dyadic (Zpos mb * 2 ^ (eb - e1)) e1)%Q).
        { rewrite dyadic_shift by lia. replace (e1 + (eb - e1)) with eb by lia.
          reflexivity. }
        rewrite HB in *. apply dyadic_lt_inv in Hstrict.
        apply dyadic_le. lia.
      + exfalso.
        pose proof (above_canonical m1 e1 mb eb ltac:(apply Hm1n; lia) Hee Hcan).
        lra. }
  (* the second shift *)
  pose proof (shr_fexp_floor m2 e1 loc_Exact ltac:(lia)) as H2. cbv zeta in H2.
  destruct (shr_fexp prec emax m2 e1 loc_Exact) as [mrs2 e2]. cbn [fst snd] in H2.
  destruct H2 as (He2 & Hm3 & Hm3n).
  set (k := Z.max (fexp (Zdigits2 m2 + e1) - e1) 0) in *.
  set (m3 := shr_m mrs2) in *.
  assert (HB : (dyadic m3 e2 <= dyadic (Zpos mb) eb)%Q).
  { apply Qle_trans with (y := dyadic m2 e1); [|exact HA].
    rewrite Hm3, He2. apply dyadic_floor. lia. }
  assert (HC : eb < e2 -> 2 ^ (prec - 1) <= m3).
  { intros Hgt. destruct (Z.eq_dec k 0) as [Hk|Hk].
    - rewrite Hk in *. rewrite Hm3. change (2 ^ 0) with 1. rewrite Z.div_1_r.
      assert (2 ^ (prec - 1) <= m1) by (apply Hm1n; lia). lia.
    - assert (Hk' : k = fexp (Zdigits2 m2 + e1) - e1) by lia.
      assert (Hfe : fexp (Zdigits2 m2 + e1) = Zdigits2 m2 + e1 - prec).
      { unfold SpecFloat.fexp in *. lia. }
      assert (Hm2pos : 0 < m2).
      { destruct (Z.eq_dec m2 0) as [Hz|]; [|lia]. rewrite Hz in *.
        simpl Zdigits2 in *. lia. }
      pose proof (Zdigits2_bounds m2 Hm2pos) as [Hlo _].
      rewrite Hm3. apply Z.div_le_lower_bound; [apply Z.pow_pos_nonneg; lia|].
      replace (Zdigits2 m2 - 1) with (k + (prec - 1)) in Hlo by lia.
      rewrite Z.pow_add_r in Hlo by lia. lia. }
  destruct m3 as [|p|p] eqn:Ep; [exact I| |lia].
  assert (Hee : e2 <= eb).
  { destruct (Z.le_gt_cases e2 eb) as [|Hgt]; [assumption|exfalso].
    pose proof (above_canonical (Zpos p) e2 mb eb (HC Hgt) Hgt Hcan). lra. }
  replace (e2 <=? emax - prec) with true by (symmetry; apply Z.leb_le; lia).
  split; [lia | exact HB].
Qed.


(** [f] is a positive number of the format, or [+infinity], not below
    [b]. *)
Definition above (f : spec_float) (b : Q) : Prop :=
  match f with
  | S754_finite false m e => (b <= dyadic (Zpos m) e)%Q
  | S754_infinity false => True
  | _ => False
  end.

(** The result of rounding an exact value is not below a number of the
    format that the value is not below. *)
Lemma binary_round_aux_above (mx ex : Z) (mb : positive) (eb : Z) :
  0 <= mx -> ex <= fexp (Zdigits2 mx + ex) ->
  canonical mb eb ->
  (dyadic (Zpos mb) eb <= dyadic mx ex)%Q ->
  above (binary_round_aux prec emax false mx ex loc_Exact) (dyadic (Zpos mb) eb).
Proof.
  intros Hmx Hpre Hcan Hle.
  pose proof (canonical_bounds mb eb Hcan) as (Heb & Hmb & _).
  pose proof (dyadic_pos mb eb) as Hbpos.
  unfold binary_round_aux.
  pose proof (shr_fexp_spec mx ex loc_Exact Hmx Hpre) as H1. cbv zeta in H1.
  destruct (shr_fexp prec emax mx ex loc_Exact) as [mrs1 e1]. cbn [fst snd] in H1.
  destruct H1 as (He1 & Hm1 & Hm1b & Hm1n & Hex1).
  set (m1 := shr_m mrs1) in *.
  pose proof (round_nearest_even_bounds m1 (loc_of_shr_record mrs1)) as [Hr Hre].
  set (m2 := round_nearest_even m1 (loc_of_shr_record mrs1)) in *.
  assert (Hn1 : 0 <= e1 - ex) by lia.
  pose proof (Z.pow_pos_nonneg 2 (e1 - ex) ltac:(lia) Hn1) as Hp1.
  (* the exact value lies in the cell of [m1] *)
  assert (Hcell : (dyadic mx ex < dyadic (m1 + 1) e1)%Q).
  { assert (Hlt : mx < (m1 + 1) * 2 ^ (e1 - ex)).
    { pose proof (Z.mod_pos_bound mx (2 ^ (e1 - ex)) Hp1).
      pose proof (Z.div_mod mx (2 ^ (e1 - ex)) ltac:(lia)).
      rewrite <- Hm1 in *. nia. }
    apply (dyadic_lt _ _ ex) in Hlt. rewrite dyadic_shift in Hlt by lia.
    replace (ex + (e1 - ex)) with e1 in Hlt by lia. exact Hlt. }
  (* no number of the format lies strictly inside the cell *)
  assert (HA : (dyadic (Zpos mb) eb <= dyadic m1 e1)%Q).
  { destruct (Z.le_gt_cases e1 eb) as [Hee|Hee].
    - assert (HB : (dyadic (Zpos mb) eb == dyadic (Zpos mb * 2 ^ (eb - e1)) e1)%Q).
      { rewrite dyadic_shift by lia. replace (e1 + (eb - e1)) with eb by lia.
        reflexivity. }
      rewrite HB in *.
      assert (Hlt : (dyadic (Zpos mb * 2 ^ (eb - e1)) e1 < dyadic (m1 + 1) e1)%Q) by lra.
      apply dyadic_lt_inv in Hlt. apply dyadic_le. lia.
    - apply Qlt_le_weak.
      apply above_canonical; [apply Hm1n; lia | exact Hee | exact Hcan]. }
  assert (HA2 : (dyadic (Zpos mb) eb <= dyadic m2 e1)%Q).
  { apply Qle_trans with (y := dyadic m1 e1); [exact HA | apply dyadic_le; lia]. }
  assert (Hm2pos : 0 < m2).
  { destruct (Z.le_gt_cases m2 0) as [Hz|]; [|assumption]. exfalso.
    assert ((dyadic m2 e1 <= dyadic 0 e1)%Q) by (apply dyadic_le; lia).
    assert ((dyadic 0 e1 == 0)%Q) by (unfold dyadic; change (inject_Z 0) with 0%Q; ring).
    lra. }
  (* the second shift loses nothing *)
  pose proof (shr_fexp_floor m2 e1 loc_Exact ltac:(lia)) as H2. cbv zeta in H2.
  destruct (shr_fexp prec emax m2 e1 loc_Exact) as [mrs2 e2]. cbn [fst snd] in H2.
  destruct H2 as (He2 & Hm3 & Hm3n).
  set (k := Z.max (fexp (Zdigits2 m2 + e1) - e1) 0) in *.
  set (m3 := shr_m mrs2) in *.
  assert (Hexact : m2 = m3 * 2 ^ k).
  { destruct (Z.eq_dec k 0) as [Hk|Hk].
    - rewrite Hk in *. rewrite Hm3. change (2 ^ 0) with 1. rewrite Z.div_1_r. lia.
    - assert (Hk' : k = fexp (Zdigits2 m2 + e1) - e1) by lia.
      pose proof (Zdigits2_bounds m2 Hm2pos) as [Hlo Hhi].
      assert (Hd2 : Zdigits2 m2 <= prec + 1).
      { apply Zdigits2_le; [lia|]. rewrite Z.pow_add_r by lia. lia. }
      assert (Hfe : fexp (Zdigits2 m2 + e1) <= e1 + 1).
      { pose proof (fexp_ge (Zdigits2 mx + ex)). unfold SpecFloat.fexp in *. lia. }
      assert (Hk1 : k = 1) by lia.
      assert (Hd2' : Zdigits2 m2 = prec + 1) by (unfold SpecFloat.fexp in *; lia).
      assert (Hm2 : m2 = 2 ^ prec).
      { rewrite Hd2' in Hlo. replace (prec + 1 - 1) with prec in Hlo by lia. lia. }
      rewrite Hm3, Hk1, Hm2. change (2 ^ 1) with 2.
      replace prec with (1 + (prec - 1)) at 1 2 by lia.
      rewrite Z.pow_add_r by lia. change (2 ^ 1) with 2.
      rewrite (Z.mul_comm 2), Z.div_mul by lia. ring. }
  assert (HB : (dyadic (Zpos mb) eb <= dyadic m3 e2)%Q).
  { rewrite He2, <- dyadic_shift, <- Hexact by lia. exact HA2. }
  destruct m3 as [|p|p] eqn:Ep.
  - exfalso.
    assert ((dyadic 0 e2 == 0)%Q) by (unfold dyadic; change (inject_Z 0) with 0%Q; ring).
    lra.
  - destruct (e2 <=? emax - prec); [exact HB | exact I].
  - lia.
Qed.

(** ** Order and value of the numbers of the format *)

Hypothesis prec_lt_emax : prec < emax.

Definition valid (f : spec_float) : Prop :=
  SpecFloat.valid_binary prec emax f = true.

Definition is_num (f : spec_float) : Prop :=
  match f with
  | S754_zero _ | S754_finite _ _ _ => True
  | _ => False
  end.

Lemma valid_finite (s : bool) (m : positive) (e : Z) :
  valid (S754_finite s m e) <-> canonical m e /\ e <= emax - prec.
Proof.
  unfold valid, SpecFloat.valid_binary, bounded, canonical.
  rewrite andb_true_iff, Z.leb_le. tauto.
Qed.

Lemma Qcompare_opp (a b : Q) : (- a ?= - b)%Q = CompOpp (a ?= b)%Q.
Proof.
  destruct (Qcompare_spec a b) as [H|H|H];
    destruct (Qcompare_spec (- a) (- b)) as [H'|H'|H']; simpl; try reflexivity; lra.
Qed.

Lemma compare_canonical (m1 : positive) (e1 : Z) (m2 : positive) (e2 : Z) :
  canonical m1 e1 -> canonical m2 e2 ->
  match e1 ?= e2 with
  | Lt => Lt
  | Gt => Gt
  | Eq => Pos.compare_cont Eq m1 m2
  end = (dyadic (Zpos m1) e1 ?= dyadic (Zpos m2) e2)%Q.
Proof.
  intros H1 H2.
  pose proof (canonical_bounds m1 e1 H1) as (He1 & _ & Hn1).
  pose proof (canonical_bounds m2 e2 H2) as (He2 & _ & Hn2).
  symmetry. destruct (Z.compare_spec e1 e2) as [Heq|Hlt|Hgt].
  - subst e2. change (Pos.compare_cont Eq m1 m2) with (Pos.compare m1 m2).
    destruct (Pos.compare_spec m1 m2) as [Hm|Hm|Hm].
    + subst m2. rewrite <- Qeq_alt. reflexivity.
    + rewrite <- Qlt_alt. apply dyadic_lt. lia.
    + rewrite <- Qgt_alt. apply dyadic_lt. lia.
  - rewrite <- Qlt_alt. apply above_canonical; [apply Hn2; lia | lia | assumption].
  - rewrite <- Qgt_alt. apply above_canonical; [apply Hn1; lia | lia | assumption].
Qed.

Lemma SFcompare_value (f1 f2 : spec_float) :
  valid f1 -> valid f2 -> is_num f1 -> is_num f2 ->
  SFcompare f1 f2 = Some (SF2Q f1 ?= SF2Q f2)%Q.
Proof.
  intros V1 V2 N1 N2.
  destruct f1 as [s1|s1| |s1 m1 e1]; try contradiction;
    destruct f2 as [s2|s2| |s2 m2 e2]; try contradiction; simpl SF2Q.
  - reflexivity.
  - pose proof (dyadic_pos m2 e2) as Hp. unfold SFcompare. f_equal. symmetry.
    destruct s2; simpl cond_Zopp.
    + rewrite <- Qgt_alt. change (Z.neg m2) with (- Zpos m2). rewrite dyadic_opp. lra.
    + rewrite <- Qlt_alt. lra.
  - pose proof (dyadic_pos m1 e1) as Hp. unfold SFcompare. f_equal. symmetry.
    destruct s1; simpl cond_Zopp.
    + rewrite <- Qlt_alt. change (Z.neg m1) with (- Zpos m1). rewrite dyadic_opp. lra.
    + rewrite <- Qgt_alt. lra.
  - apply valid_finite in V1 as [C1 _]. apply valid_finite in V2 as [C2 _].
    pose proof (dyadic_pos m1 e1) as Hp1. pose proof (dyadic_pos m2 e2) as Hp2.
    unfold SFcompare. f_equal.
    destruct s1, s2; simpl cond_Zopp.
    + change (Z.neg m1) with (- Zpos m1). change (Z.neg m2) with (- Zpos m2).
      rewrite !dyadic_opp, Qcompare_opp, <- (compare_canonical m1 e1 m2 e2 C1 C2).
      destruct (e1 ?= e2); reflexivity.
    + symmetry. rewrite <- Qlt_alt. change (Z.neg m1) with (- Zpos m1).
      rewrite dyadic_opp. lra.
    + symmetry. rewrite <- Qgt_alt. change (Z.neg m2) with (- Zpos m2).
      rewrite dyadic_opp. lra.
    + apply compare_canonical; assumption.
Qed.

Lemma SFleb_value (f1 f2 : spec_float) :
  valid f1 -> valid f2 -> is_num f1 -> is_num f2 ->
  (SFleb f1 f2 = true <-> (SF2Q f1 <= SF2Q f2)%Q).
Proof.
  intros V1 V2 N1 N2. unfold SFleb. rewrite (SFcompare_value f1 f2) by assumption.
  destruct (Qcompare_spec (SF2Q f1) (SF2Q f2)) as [H|H|H]; split; intros H';
    try reflexivity; try discriminate; lra.
Qed.

Lemma SFltb_value (f1 f2 : spec_float) :
  valid f1 -> valid f2 -> is_num f1 -> is_num f2 ->
  (SFltb f1 f2 = true <-> (SF2Q f1 < SF2Q f2)%Q).
Proof.
  intros V1 V2 N1 N2. unfold SFltb. rewrite (SFcompare_value f1 f2) by assumption.
  destruct (Qcompare_spec (SF2Q f1) (SF2Q f2)) as [H|H|H]; split; intros H';
    try reflexivity; try discriminate; lra.
Qed.

(** A float between two numbers is a number. *)
Lemma SFleb_is_num (lo f hi : spec_float) :
  is_num lo -> is_num hi -> SFleb lo f = true -> SFleb f hi = true -> is_num f.
Proof.
  intros Nlo Nhi H1 H2.
  destruct f as [s|s| |s m e]; try exact I.
  - destruct s.
    + destruct lo as [?|?| |[] ? ?]; try contradiction; discriminate.
    + destruct hi as [?|?| |[] ? ?]; try contradiction; discriminate.
  - destruct lo; discriminate.
Qed.

(** Below a number of the format there is none above its predecessor. *)
Lemma below_pred (m : positive) (e : Z) (mb : positive) (eb : Z) :
  canonical m e -> canonical mb eb -> 2 ^ (prec - 1) < Zpos mb ->
  (dyadic (Zpos m) e < dyadic (Zpos mb) eb)%Q ->
  (dyadic (Zpos m) e <= dyadic (Zpos mb - 1) eb)%Q.
Proof.
  intros Hm Hb Hbig Hlt.
  pose proof (canonical_bounds m e Hm) as (He & _ & Hn).
  pose proof (canonical_bounds mb eb Hb) as (Heb & _ & _).
  destruct (Z.lt_trichotomy e eb) as [Hlo|[Heq|Hhi]].
  - apply Qlt_le_weak. apply above_canonical; [lia | lia | assumption].
  - subst eb. apply dyadic_lt_inv in Hlt. apply dyadic_le. lia.
  - exfalso. pose proof (above_canonical (Zpos m) e mb eb ltac:(apply Hn; lia) Hhi Hb).
    lra.
Qed.

(** ** The operations *)

Lemma Zdigits2_unique (m d : Z) :
  0 < d -> 2 ^ (d - 1) <= m < 2 ^ d -> Zdigits2 m = d.
Proof.
  intros Hd [Hlo Hhi].
  pose proof (Z.pow_pos_nonneg 2 (d - 1) ltac:(lia) ltac:(lia)).
  pose proof (Zdigits2_le m d ltac:(lia) ltac:(lia)).
  pose proof (Zdigits2_gt m (d - 1) ltac:(lia) Hlo). lia.
Qed.

Lemma Zdigits2_shift (m k : Z) :
  0 < m -> 0 <= k -> Zdigits2 (m * 2 ^ k) = Zdigits2 m + k.
Proof.
  intros Hm Hk. pose proof (Zdigits2_bounds m Hm) as [Hlo Hhi].
  pose proof (Zdigits2_pos m Hm) as Hd.
  pose proof (Z.pow_pos_nonneg 2 k ltac:(lia) Hk) as Hp.
  apply Zdigits2_unique; [lia|].
  replace (Zdigits2 m + k - 1) with (Zdigits2 m - 1 + k) by lia.
  rewrite !Z.pow_add_r by lia. nia.
Qed.

Lemma iter_xO (d m : positive) : Zpos (Pos.iter xO m d) = Zpos m * 2 ^ Zpos d.
Proof.
  induction d as [|d IH] using Pos.peano_ind.
  - simpl. rewrite Pos2Z.inj_xO. lia.
  - rewrite Pos.iter_succ, Pos2Z.inj_xO, IH, Pos2Z.inj_succ, Z.pow_succ_r by lia. ring.
Qed.

(** [shl_align] keeps the value, and reaches the exponent asked for when
    it is the smaller one. *)
Lemma shl_align_spec (mx : positive) (ex ez : Z) :
  let mz := fst (shl_align mx ex ez) in
  let e := snd (shl_align mx ex ez) in
  e = Z.min ex ez /\ Zpos mz = Zpos mx * 2 ^ (ex - e).
Proof.
  unfold shl_align. destruct (ez - ex) as [|d|d] eqn:Ed; cbn [fst snd].
  - split; [lia|]. replace (ex - ex) with 0 by lia. simpl. lia.
  - split; [lia|]. replace (ex - ex) with 0 by lia. simpl. lia.
  - split; [lia|]. rewrite iter_xO. f_equal. f_equal. lia.
Qed.

Lemma binary_round_within (m : positive) (e : Z) (mb : positive) (eb : Z) :
  canonical mb eb -> eb <= emax - prec ->
  (dyadic (Zpos m) e <= dyadic (Zpos mb) eb)%Q ->
  within (emax - prec) (binary_round prec emax false m e) (dyadic (Zpos mb) eb).
Proof.
  intros Hcan Hbnd Hle. unfold binary_round.
  pose proof (shl_align_spec m e (fexp (Zpos (digits2_pos m) + e))) as H.
  cbv zeta in H.
  destruct (shl_align m e (fexp (Zpos (digits2_pos m) + e))) as [mz ez].
  cbn [fst snd] in H. destruct H as [Hez Hmz].
  assert (Hval : (dyadic (Zpos mz) ez == dyadic (Zpos m) e)%Q).
  { rewrite Hmz, dyadic_shift by lia. replace (ez + (e - ez)) with e by lia.
    reflexivity. }
  apply binary_round_aux_within; try assumption; try lia.
  - rewrite Hmz, Zdigits2_shift by lia.
    change (Zdigits2 (Zpos m)) with (Zpos (digits2_pos m)).
    replace (Zpos (digits2_pos m) + (e - ez) + ez) with (Zpos (digits2_pos m) + e) by lia.
    lia.
  - rewrite Hval. exact Hle.
  - intros Hne. contradiction Hne. reflexivity.
Qed.

Lemma binary_normalize_within (m e : Z) (mb : positive) (eb : Z) :
  canonical mb eb -> eb <= emax - prec ->
  0 <= m -> (dyadic m e <= dyadic (Zpos mb) eb)%Q ->
  within (emax - prec) (binary_normalize prec emax m e false) (dyadic (Zpos mb) eb).
Proof.
  intros Hcan Hbnd Hm Hle. destruct m as [|p|p]; [exact I| |lia].
  apply binary_round_within; assumption.
Qed.

Lemma SF2Q_finite (s : bool) (m : positive) (e : Z) :
  (SF2Q (S754_finite s m e) == (if s then -1 else 1) * dyadic (Zpos m) e)%Q.
Proof.
  simpl. destruct s; simpl cond_Zopp.
  - change (Z.neg m) with (- Zpos m). rewrite dyadic_opp. ring.
  - ring.
Qed.

Lemma aligned_value (s : bool) (m : positive) (e ez : Z) :
  ez <= e ->
  (dyadic (cond_Zopp s (Zpos (fst (shl_align m e ez)))) ez
   == SF2Q (S754_finite s m e))%Q.
Proof.
  intros H. pose proof (shl_align_spec m e ez) as [He Hm]. cbv zeta in *.
  rewrite Hm. rewrite Z.min_r in He by lia.
  assert (Hv : (dyadic (Zpos m * 2 ^ (e - snd (shl_align m e ez))) ez
                == dyadic (Zpos m) e)%Q).
  { rewrite dyadic_shift by lia. rewrite He. replace (ez + (e - ez)) with e by lia.
    reflexivity. }
  rewrite SF2Q_finite. destruct s; unfold cond_Zopp.
  - rewrite dyadic_opp, Hv. ring.
  - rewrite Hv. ring.
Qed.

(** A sum that is exactly between [0] and a number of the format rounds
    to a float between them. *)
Lemma SFadd_within (sx : bool) (mx : positive) (ex : Z)
    (sy : bool) (my : positive) (ey : Z) (mb : positive) (eb : Z) :
  let x := S754_finite sx mx ex in
  let y := S754_finite sy my ey in
  canonical mb eb -> eb <= emax - prec ->
  (0 <= SF2Q x + SF2Q y)%Q -> (SF2Q x + SF2Q y <= dyadic (Zpos mb) eb)%Q ->
  within (emax - prec) (SFadd prec emax x y) (dyadic (Zpos mb) eb).
Proof.
  intros x y Hcan Hbnd H0 Hle. unfold x, y, SFadd.
  set (ez := Z.min ex ey).
  set (a := cond_Zopp sx (Zpos (fst (shl_align mx ex ez)))).
  set (b := cond_Zopp sy (Zpos (fst (shl_align my ey ez)))).
  assert (Hv : (dyadic (a + b) ez == SF2Q x + SF2Q y)%Q).
  { rewrite dyadic_add. unfold a, b, x, y.
    rewrite !aligned_value by (unfold ez; lia). reflexivity. }
  apply binary_normalize_within; try assumption.
  - apply (dyadic_nonneg_inv _ ez). rewrite Hv. exact H0.
  - rewrite Hv. exact Hle.
Qed.

Lemma SFsub_within (sx : bool) (mx : positive) (ex : Z)
    (sy : bool) (my : positive) (ey : Z) (mb : positive) (eb : Z) :
  let x := S754_finite sx mx ex in
  let y := S754_finite sy my ey in
  canonical mb eb -> eb <= emax - prec ->
  (0 <= SF2Q x - SF2Q y)%Q -> (SF2Q x - SF2Q y <= dyadic (Zpos mb) eb)%Q ->
  within (emax - prec) (SFsub prec emax x y) (dyadic (Zpos mb) eb).
Proof.
  intros x y Hcan Hbnd H0 Hle. unfold x, y, SFsub.
  set (ez := Z.min ex ey).
  set (a := cond_Zopp sx (Zpos (fst (shl_align mx ex ez)))).
  set (b := cond_Zopp sy (Zpos (fst (shl_align my ey ez)))).
  assert (Hv : (dyadic (a - b) ez == SF2Q x - SF2Q y)%Q).
  { rewrite dyadic_sub. unfold a, b, x, y.
    rewrite !aligned_value by (unfold ez; lia). reflexivity. }
  apply binary_normalize_within; try assumption.
  - apply (dyadic_nonneg_inv _ ez). rewrite Hv. exact H0.
  - rewrite Hv. exact Hle.
Qed.

Lemma canonical_digits (m : positive) (e : Z) :
  canonical m e -> fexp (Zpos (digits2_pos m) + e) = e.
Proof. unfold canonical, canonical_mantissa. apply Z.eqb_eq. Qed.

Lemma emin_nonpos : emin <= 0.
Proof. unfold SpecFloat.emin. lia. Qed.

Lemma mul_exponent (mx : positive) (ex : Z) (my : positive) (ey : Z) :
  canonical mx ex -> canonical my ey ->
  ex + ey <= fexp (Zdigits2 (Zpos (mx * my)) + (ex + ey)).
Proof.
  intros Hx Hy.
  pose proof (canonical_digits mx ex Hx) as Hdx.
  pose proof (canonical_digits my ey Hy) as Hdy.
  pose proof (digits2_pos_bounds mx) as [Hlx _].
  pose proof (digits2_pos_bounds my) as [Hly _].
  set (dx := Zpos (digits2_pos mx)) in *. set (dy := Zpos (digits2_pos my)) in *.
  assert (Hd : dx + dy - 2 < Zdigits2 (Zpos (mx * my))).
  { apply Zdigits2_gt; [lia|]. rewrite Pos2Z.inj_mul.
    replace (dx + dy - 2) with ((dx - 1) + (dy - 1)) by lia.
    rewrite Z.pow_add_r by lia.
    pose proof (Z.pow_pos_nonneg 2 (dx - 1) ltac:(lia) ltac:(lia)).
    pose proof (Z.pow_pos_nonneg 2 (dy - 1) ltac:(lia) ltac:(lia)). nia. }
  pose proof emin_nonpos. unfold SpecFloat.fexp in *. lia.
Qed.

(** A product of positive numbers that is exactly not above a number of the
    format rounds to a float not above it. *)
Lemma SFmul_within (mx : positive) (ex : Z) (my : positive) (ey : Z)
    (mb : positive) (eb : Z) :
  canonical mx ex -> canonical my ey ->
  canonical mb eb -> eb <= emax - prec ->
  (dyadic (Zpos mx) ex * dyadic (Zpos my) ey <= dyadic (Zpos mb) eb)%Q ->
  within (emax - prec)
         (SFmul prec emax (S754_finite false mx ex) (S754_finite false my ey))
         (dyadic (Zpos mb) eb).
Proof.
  intros Hx Hy Hcan Hbnd Hle. unfold SFmul. cbn [xorb].
  apply binary_round_aux_within; try assumption; try lia.
  - apply mul_exponent; assumption.
  - rewrite Pos2Z.inj_mul, dyadic_mul. exact Hle.
  - intros Hne. contradiction Hne. reflexivity.
Qed.

Lemma new_location_exact (nb k : Z) : new_location nb k = loc_Exact <-> k = 0.
Proof.
  unfold new_location, new_location_even, new_location_odd.
  destruct (Z.even nb); destruct (Z.eqb_spec k 0); split; intros H;
    try reflexivity; try assumption; try discriminate; contradiction.
Qed.

(** A quotient of positive numbers that is exactly not above a number of
    the format rounds to a float not above it. *)
Lemma SFdiv_within (mx : positive) (ex : Z) (my : positive) (ey : Z)
    (mb : positive) (eb : Z) :
  canonical mb eb -> eb <= emax - prec ->
  (dyadic (Zpos mx) ex <= dyadic (Zpos mb) eb * dyadic (Zpos my) ey)%Q ->
  within (emax - prec)
         (SFdiv prec emax (S754_finite false mx ex) (S754_finite false my ey))
         (dyadic (Zpos mb) eb).
Proof.
  intros Hcan Hbnd Hle. unfold SFdiv, SFdiv_core_binary. cbn [xorb].
  change (Zdigits2 (Zpos mx)) with (Zpos (digits2_pos mx)).
  change (Zdigits2 (Zpos my)) with (Zpos (digits2_pos my)).
  pose proof (digits2_pos_bounds mx) as [Hlx Hhx].
  pose proof (digits2_pos_bounds my) as [Hly Hhy].
  set (dx := Zpos (digits2_pos mx)) in *. set (dy := Zpos (digits2_pos my)) in *.
  set (e' := Z.min (fexp (dx + ex - (dy + ey))) (ex - ey)).
  set (s := ex - ey - e').
  assert (Hs : 0 <= s) by (unfold s, e'; lia).
  set (m' := match s with
             | 0 => Zpos mx
             | Zpos _ => Z.shiftl (Zpos mx) s
             | Zneg _ => 0
             end).
  assert (Hm' : m' = Zpos mx * 2 ^ s).
  { unfold m'. destruct s as [|p|p]; [simpl; lia| |lia].
    rewrite Z.shiftl_mul_pow2 by lia. reflexivity. }
  clearbody m'.
  pose proof (Z.pow_pos_nonneg 2 s ltac:(lia) Hs) as Hps.
  pose proof (Z_div_mod m' (Zpos my) ltac:(lia)) as Hdm.
  destruct (Z.div_eucl m' (Zpos my)) as [q r]. destruct Hdm as [Hq Hr].
  assert (Hq0 : 0 <= q) by nia.
  pose proof (dyadic_pos my ey) as Hypos.
  (* [q * 2^e' * y <= x], strictly when the division is not exact *)
  assert (Hx : (dyadic (Zpos mx) ex == dyadic m' (e' + ey))%Q).
  { rewrite Hm', dyadic_shift by lia. replace (e' + ey + s) with ex by (unfold s; lia).
    reflexivity. }
  assert (Hqy : (dyadic q e' * dyadic (Zpos my) ey == dyadic (q * Zpos my) (e' + ey))%Q).
  { rewrite dyadic_mul. reflexivity. }
  apply binary_round_aux_within; try assumption.
  - (* enough bits *)
    assert (Hd : dx + s - dy <= Zdigits2 q).
    { destruct (Z.le_gt_cases (dx + s - dy) 0) as [Hneg|Hposd].
      - pose proof (Zdigits2_nonneg q). lia.
      - assert (Hlow : 2 ^ (dx - 1 + s - dy) <= q).
        { assert (Hpow : 2 ^ (dx - 1 + s - dy) * 2 ^ dy = 2 ^ (dx - 1) * 2 ^ s).
          { rewrite <- !Z.pow_add_r by lia. f_equal. lia. }
          pose proof (Z.pow_pos_nonneg 2 (dx - 1 + s - dy) ltac:(lia) ltac:(lia)).
          pose proof (Z.pow_pos_nonneg 2 (dx - 1) ltac:(lia) ltac:(lia)).
          assert (2 ^ (dx - 1 + s - dy) * Zpos my <= m') by nia.
          nia. }
        pose proof (Zdigits2_gt q (dx - 1 + s - dy) ltac:(lia) Hlow). lia. }
    assert (fexp (dx + ex - (dy + ey)) <= fexp (Zdigits2 q + e')).
    { apply fexp_mono. unfold s in Hd. lia. }
    unfold e' at 1. lia.
  - assert (H1 : (dyadic (q * Zpos my) (e' + ey) <= dyadic m' (e' + ey))%Q)
      by (apply dyadic_le; lia).
    rewrite <- Hqy, <- Hx in H1. nra.
  - intros Hne. rewrite new_location_exact in Hne.
    assert (H1 : (dyadic (q * Zpos my) (e' + ey) < dyadic m' (e' + ey))%Q)
      by (apply dyadic_lt; lia).
    rewrite <- Hqy, <- Hx in H1. nra.
Qed.

(** ** Exact operations on small integers *)

Lemma binary_round_aux_sign (s : bool) (m e : Z) (l : location) :
  binary_round_aux prec emax s m e l =
  match binary_round_aux prec emax false m e l with
  | S754_zero _ => S754_zero s
  | S754_infinity _ => S754_infinity s
  | S754_nan => S754_nan
  | S754_finite _ m' e' => S754_finite s m' e'
  end.
Proof.
  unfold binary_round_aux.
  destruct (shr_fexp prec emax m e l) as [mrs1 e1].
  destruct (shr_fexp prec emax _ e1 loc_Exact) as [mrs2 e2].
  destruct (shr_m mrs2); try reflexivity.
  destruct (e2 <=? emax - prec); reflexivity.
Qed.

(** An exact value that is a number of the format rounds to itself. *)
Lemma binary_round_aux_exact (mx ex : Z) (mb : positive) (eb : Z) :
  0 <= mx -> ex <= fexp (Zdigits2 mx + ex) ->
  canonical mb eb -> eb <= emax - prec ->
  (dyadic mx ex == dyadic (Zpos mb) eb)%Q ->
  exists m e,
    binary_round_aux prec emax false mx ex loc_Exact = S754_finite false m e /\
    (dyadic (Zpos m) e == dyadic (Zpos mb) eb)%Q.
Proof.
  intros Hmx Hpre Hcan Hbnd Hv.
  pose proof (binary_round_aux_within mx ex loc_Exact mb eb Hmx Hpre Hcan Hbnd
                ltac:(lra) ltac:(intros H; contradiction H; reflexivity)) as Hw.
  pose proof (binary_round_aux_above mx ex mb eb Hmx Hpre Hcan ltac:(lra)) as Ha.
  destruct (binary_round_aux prec emax false mx ex loc_Exact) as [s|s| |s m e];
    try destruct s; cbn [within above] in Hw, Ha; try tauto.
  exists m, e. split; [reflexivity|]. destruct Hw as [_ Hw]. lra.
Qed.

(** A positive integer below [2^prec] is a number of the format. *)
Lemma int_canonical (n : positive) :
  Zpos n < 2 ^ prec ->
  exists mb eb, canonical mb eb /\ eb <= emax - prec /\
                (dyadic (Zpos mb) eb == inject_Z (Zpos n))%Q.
Proof.
  intros Hn. pose proof (digits2_pos_bounds n) as [Hlo Hhi].
  set (d := Zpos (digits2_pos n)) in *.
  assert (Hd : d <= prec).
  { change d with (Zdigits2 (Zpos n)). apply Zdigits2_le; lia. }
  set (k := prec - d).
  pose proof (Z.pow_pos_nonneg 2 k ltac:(lia) ltac:(unfold k; lia)) as Hpk.
  exists (Z.to_pos (Zpos n * 2 ^ k)), (- k).
  assert (Hid : Zpos (Z.to_pos (Zpos n * 2 ^ k)) = Zpos n * 2 ^ k)
    by (apply Z2Pos.id; lia).
  repeat split.
  - unfold canonical, canonical_mantissa. apply Z.eqb_eq.
    change (Zpos (digits2_pos (Z.to_pos (Zpos n * 2 ^ k))))
      with (Zdigits2 (Zpos (Z.to_pos (Zpos n * 2 ^ k)))).
    rewrite Hid, Zdigits2_shift by (unfold k; lia).
    change (Zdigits2 (Zpos n)) with d.
    unfold SpecFloat.fexp, SpecFloat.emin, k. lia.
  - unfold k. lia.
  - rewrite Hid, dyadic_shift by (unfold k; lia).
    replace (- k + k) with 0 by lia. unfold dyadic, bpow. simpl. ring.
Qed.

(** [f] is a number whose value is the integer [n]. *)
Definition SF_is (f : spec_float) (n : Z) : Prop :=
  is_num f /\ (SF2Q f == inject_Z n)%Q.

Lemma binary_round_is (s : bool) (m : positive) (e : Z) (n : positive) :
  Zpos n < 2 ^ prec ->
  (dyadic (Zpos m) e == inject_Z (Zpos n))%Q ->
  SF_is (binary_round prec emax s m e) (cond_Zopp s (Zpos n)).
Proof.
  intros Hn Hv. destruct (int_canonical n Hn) as (mb & eb & Hcan & Hbnd & Hb).
  unfold binary_round.
  pose proof (shl_align_spec m e (fexp (Zpos (digits2_pos m) + e))) as H.
  cbv zeta in H.
  destruct (shl_align m e (fexp (Zpos (digits2_pos m) + e))) as [mz ez].
  cbn [fst snd] in H. destruct H as [Hez Hmz].
  assert (Hval : (dyadic (Zpos mz) ez == dyadic (Zpos m) e)%Q).
  { rewrite Hmz, dyadic_shift by lia. replace (ez + (e - ez)) with e by lia.
    reflexivity. }
  destruct (binary_round_aux_exact (Zpos mz) ez mb eb) as (m' & e' & Hr & Hv');
    try assumption; try lia.
  - rewrite Hmz, Zdigits2_shift by lia.
    change (Zdigits2 (Zpos m)) with (Zpos (digits2_pos m)).
    replace (Zpos (digits2_pos m) + (e - ez) + ez) with (Zpos (digits2_pos m) + e) by lia.
    lia.
  - rewrite Hval, Hv, Hb. reflexivity.
  - rewrite binary_round_aux_sign, Hr. split; [exact I|].
    rewrite SF2Q_finite, Hv', Hb. destruct s; simpl cond_Zopp.
    + change (Z.neg n) with (- Zpos n). rewrite inject_Z_opp. ring.
    + ring.
Qed.

Lemma binary_normalize_is (m e n : Z) :
  Z.abs n < 2 ^ prec ->
  (dyadic m e == inject_Z n)%Q ->
  SF_is (binary_normalize prec emax m e false) n.
Proof.
  intros Hn Hv.
  assert (Hsign : (0 < m -> 0 < n) /\ (m < 0 -> n < 0) /\ (m = 0 -> n = 0)).
  { pose proof (bpow_pos e) as Hp. unfold dyadic in Hv.
    repeat split; intros Hm.
    - rewrite Zlt_Qlt in Hm |- *. change (inject_Z 0) with 0%Q in *. nra.
    - rewrite Zlt_Qlt in Hm |- *. change (inject_Z 0) with 0%Q in *. nra.
    - subst m. change (inject_Z 0) with 0%Q in Hv.
      apply inject_Z_injective. change (inject_Z 0) with 0%Q. lra. }
  destruct Hsign as (Hpos & Hneg & Hzero).
  destruct m as [|p|p]; cbn [binary_normalize].
  - rewrite (Hzero eq_refl). split; [exact I | reflexivity].
  - specialize (Hpos ltac:(lia)). destruct n as [|q|q]; try lia.
    apply (binary_round_is false p e q); [lia | exact Hv].
  - specialize (Hneg ltac:(lia)). destruct n as [|q|q]; try lia.
    apply (binary_round_is true p e q); [lia|].
    change (Z.neg p) with (- Zpos p) in Hv. change (Z.neg q) with (- Zpos q) in Hv.
    rewrite dyadic_opp, inject_Z_opp in Hv. lra.
Qed.

Lemma SF_is_zero (f : spec_float) (s : bool) : f = S754_zero s -> SF_is f 0.
Proof. intros ->. split; [exact I | reflexivity]. Qed.

Lemma SF_is_zero_inv (s : bool) (n : Z) : SF_is (S754_zero s) n -> n = 0.
Proof.
  intros [_ H]. simpl in H. apply inject_Z_injective.
  change (inject_Z 0) with 0%Q. lra.
Qed.

Lemma SFadd_is (x y : spec_float) (a b : Z) :
  SF_is x a -> SF_is y b -> Z.abs (a + b) < 2 ^ prec ->
  SF_is (SFadd prec emax x y) (a + b).
Proof.
  intros Hx Hy Hn.
  destruct x as [sx|sx| |sx mx ex]; try (exfalso; exact (proj1 Hx));
    destruct y as [sy|sy| |sy my ey]; try (exfalso; exact (proj1 Hy)).
  - apply SF_is_zero_inv in Hx, Hy. subst. simpl.
    destruct sx, sy; split; try exact I; reflexivity.
  - apply SF_is_zero_inv in Hx. subst. exact Hy.
  - apply SF_is_zero_inv in Hy. subst. rewrite Z.add_0_r. exact Hx.
  - unfold SFadd. apply binary_normalize_is; [exact Hn|].
    rewrite dyadic_add, !aligned_value by lia.
    destruct Hx as [_ Hx], Hy as [_ Hy]. rewrite Hx, Hy, inject_Z_plus. reflexivity.
Qed.

Lemma SFsub_is (x y : spec_float) (a b : Z) :
  SF_is x a -> SF_is y b -> Z.abs (a - b) < 2 ^ prec ->
  SF_is (SFsub prec emax x y) (a - b).
Proof.
  intros Hx Hy Hn.
  destruct x as [sx|sx| |sx mx ex]; try (exfalso; exact (proj1 Hx));
    destruct y as [sy|sy| |sy my ey]; try (exfalso; exact (proj1 Hy)).
  - apply SF_is_zero_inv in Hx, Hy. subst. simpl.
    destruct sx, sy; split; try exact I; reflexivity.
  - apply SF_is_zero_inv in Hx. subst. unfold SFsub.
    destruct Hy as [_ Hy]. split; [exact I|].
    rewrite SF2Q_finite in *. simpl Z.sub. rewrite inject_Z_opp.
    generalize dependent (dyadic (Zpos my) ey). intros q Hy.
    destruct sy; cbv iota beta delta [negb] in *; lra.
  - apply SF_is_zero_inv in Hy. subst. rewrite Z.sub_0_r. exact Hx.
  - unfold SFsub. apply binary_normalize_is; [exact Hn|].
    rewrite dyadic_sub, !aligned_value by lia.
    destruct Hx as [_ Hx], Hy as [_ Hy]. rewrite Hx, Hy.
    unfold Z.sub. rewrite inject_Z_plus, inject_Z_opp. ring.
Qed.

Lemma SF_is_finite (s : bool) (m : positive) (e n : Z) :
  SF_is (S754_finite s m e) n ->
  (dyadic (Zpos m) e == inject_Z (Z.abs n))%Q /\ n = cond_Zopp s (Z.abs n) /\ n <> 0.
Proof.
  intros [_ H]. rewrite SF2Q_finite in H. pose proof (dyadic_pos m e) as Hp.
  destruct s.
  - assert (Hn : n < 0).
    { rewrite Zlt_Qlt. change (inject_Z 0) with 0%Q. lra. }
    rewrite Z.abs_neq by lia. rewrite inject_Z_opp. simpl cond_Zopp.
    repeat split; [lra | lia | lia].
  - assert (Hn : 0 < n).
    { rewrite Zlt_Qlt. change (inject_Z 0) with 0%Q. lra. }
    rewrite Z.abs_eq by lia. simpl cond_Zopp.
    repeat split; [lra | lia].
Qed.

Lemma SFmul_is (x y : spec_float) (a b : Z) :
  valid x -> valid y -> SF_is x a -> SF_is y b -> Z.abs (a * b) < 2 ^ prec ->
  SF_is (SFmul prec emax x y) (a * b).
Proof.
  intros Vx Vy Hx Hy Hn.
  destruct x as [sx|sx| |sx mx ex]; try (exfalso; exact (proj1 Hx));
    destruct y as [sy|sy| |sy my ey]; try (exfalso; exact (proj1 Hy)).
  - apply SF_is_zero_inv in Hx. subst. split; [exact I | reflexivity].
  - apply SF_is_zero_inv in Hx. subst. split; [exact I | reflexivity].
  - apply SF_is_zero_inv in Hy. subst. rewrite Z.mul_0_r. split; [exact I | reflexivity].
  - apply valid_finite in Vx, Vy. destruct Vx as [Cx _], Vy as [Cy _].
    apply SF_is_finite in Hx, Hy.
    destruct Hx as (Hvx & Hsx & Hax), Hy as (Hvy & Hsy & Hay).
    assert (Hab : 0 < Z.abs (a * b)) by (rewrite Z.abs_mul; lia).
    destruct (int_canonical (Z.to_pos (Z.abs (a * b)))) as (mb & eb & Hcan & Hbnd & Hb).
    { rewrite Z2Pos.id by lia. exact Hn. }
    rewrite Z2Pos.id in Hb by lia.
    destruct (binary_round_aux_exact (Zpos (mx * my)) (ex + ey) mb eb)
      as (m' & e' & Hr & Hv'); try assumption; try lia.
    + apply mul_exponent; assumption.
    + rewrite Pos2Z.inj_mul, dyadic_mul, Hvx, Hvy, Hb, Z.abs_mul, inject_Z_mult.
      reflexivity.
    + unfold SFmul. rewrite binary_round_aux_sign, Hr. split; [exact I|].
      rewrite SF2Q_finite, Hv', Hb.
      rewrite Hsx, Hsy at 2. rewrite Z.abs_mul, !inject_Z_mult.
      destruct sx, sy; cbv beta iota delta [cond_Zopp xorb];
        rewrite ?inject_Z_opp; ring.
Qed.

End Rounding.

(** ** Binary64: the floats of the program *)

Ltac q_closed :=
  first [ apply Qle_bool_iff; vm_compute; reflexivity
        | apply Qeq_bool_iff; vm_compute; reflexivity
        | apply Qlt_alt; vm_compute; reflexivity ].

Lemma prec_pos64 : 0 < prec.
Proof. reflexivity. Qed.

Lemma prec_lt_emax64 : prec < emax.
Proof. reflexivity. Qed.

(** The largest exponent of a binary64 number. *)
Definition emax_prec : Z := emax - prec.

Definition canonical64 (m : positive) (e : Z) : Prop :=
  canonical prec emax m e /\ e <= emax_prec.

Lemma Prim2SF_valid64 (x : float) : valid prec emax (Prim2SF x).
Proof. apply Prim2SF_valid. Qed.

Lemma Prim2SF_canonical (x : float) (s : bool) (m : positive) (e : Z) :
  Prim2SF x = S754_finite s m e -> canonical64 m e.
Proof.
  intros H. pose proof (Prim2SF_valid64 x) as V. rewrite H in V.
  apply valid_finite in V. exact V.
Qed.

(** A float between two numbers is a number, and so is its value. *)
Lemma float_between (lo x hi : float) :
  is_num (Prim2SF lo) -> is_num (Prim2SF hi) ->
  (lo <=? x)%float = true -> (x <=? hi)%float = true ->
  is_num (Prim2SF x) /\
  (SF2Q (Prim2SF lo) <= SF2Q (Prim2SF x))%Q /\
  (SF2Q (Prim2SF x) <= SF2Q (Prim2SF hi))%Q.
Proof.
  intros Nlo Nhi H1 H2. rewrite leb_spec in H1, H2.
  assert (Nx : is_num (Prim2SF x)) by (apply (SFleb_is_num _ _ _ Nlo Nhi H1 H2)).
  split; [exact Nx|]. split.
  - apply (SFleb_value prec emax prec_pos64); auto using Prim2SF_valid64.
  - apply (SFleb_value prec emax prec_pos64); auto using Prim2SF_valid64.
Qed.

(** A number whose value is not negative is a zero or a positive float. *)
Lemma nonneg_within (x : float) (b : Q) :
  is_num (Prim2SF x) ->
  (0 <= SF2Q (Prim2SF x))%Q -> (SF2Q (Prim2SF x) <= b)%Q ->
  within emax_prec (Prim2SF x) b.
Proof.
  intros N H0 Hle. destruct (Prim2SF x) as [s|s| |s m e] eqn:E; try contradiction.
  - exact I.
  - apply Prim2SF_canonical in E as [_ He]. destruct s.
    + exfalso. rewrite SF2Q_finite in H0. pose proof (dyadic_pos m e). lra.
    + split; [exact He|]. rewrite SF2Q_finite in Hle. lra.
Qed.

Lemma within_value (f : spec_float) (b : Q) :
  (0 <= b)%Q -> within emax_prec f b -> (0 <= SF2Q f)%Q /\ (SF2Q f <= b)%Q.
Proof.
  intros Hb H. destruct f as [s|s| |[] m e]; try contradiction; simpl SF2Q.
  - split; [lra | exact Hb].
  - destruct H as [_ H]. pose proof (dyadic_pos m e). unfold cond_Zopp. lra.
Qed.

Lemma within_weaken (f : spec_float) (b b' : Q) :
  (b <= b')%Q -> within emax_prec f b -> within emax_prec f b'.
Proof.
  intros Hb H. destruct f as [s|s| |[] m e]; try contradiction; [exact I|].
  destruct H as [He H]. split; [exact He | lra].
Qed.

(** [x - y] for numbers [x >= y] with [x - y] not above a float. *)
Lemma sub_within (x y : float) (mb : positive) (eb : Z) :
  canonical64 mb eb ->
  is_num (Prim2SF x) -> is_num (Prim2SF y) ->
  (0 <= SF2Q (Prim2SF x) - SF2Q (Prim2SF y))%Q ->
  (SF2Q (Prim2SF x) - SF2Q (Prim2SF y) <= dyadic (Zpos mb) eb)%Q ->
  within emax_prec (Prim2SF (x - y)) (dyadic (Zpos mb) eb).
Proof.
  intros [Hcan Hbnd] Nx Ny H0 Hle. rewrite sub_spec. unfold SF64sub.
  destruct (Prim2SF x) as [sx|sx| |sx mx ex] eqn:Ex; try contradiction;
    destruct (Prim2SF y) as [sy|sy| |sy my ey] eqn:Ey; try contradiction.
  - destruct sx, sy; exact I.
  - apply Prim2SF_canonical in Ey as [_ He].
    rewrite SF2Q_finite in H0, Hle. simpl SF2Q in H0, Hle.
    pose proof (dyadic_pos my ey). unfold SFsub. destruct sy; simpl negb.
    + split; [exact He | lra].
    + lra.
  - apply Prim2SF_canonical in Ex as [_ He].
    rewrite SF2Q_finite in H0, Hle. simpl SF2Q in H0, Hle.
    pose proof (dyadic_pos mx ex). unfold SFsub. destruct sx.
    + lra.
    + split; [exact He | lra].
  - apply (SFsub_within prec emax prec_pos64); assumption.
Qed.

(** [x + y] for numbers with [0 <= x + y] not above a float. *)
Lemma add_within (x y : float) (mb : positive) (eb : Z) :
  canonical64 mb eb ->
  is_num (Prim2SF x) -> is_num (Prim2SF y) ->
  (0 <= SF2Q (Prim2SF x) + SF2Q (Prim2SF y))%Q ->
  (SF2Q (Prim2SF x) + SF2Q (Prim2SF y) <= dyadic (Zpos mb) eb)%Q ->
  within emax_prec (Prim2SF (x + y)) (dyadic (Zpos mb) eb).
Proof.
  intros [Hcan Hbnd] Nx Ny H0 Hle. rewrite add_spec. unfold SF64add.
  destruct (Prim2SF x) as [sx|sx| |sx mx ex] eqn:Ex; try contradiction;
    destruct (Prim2SF y) as [sy|sy| |sy my ey] eqn:Ey; try contradiction.
  - destruct sx, sy; exact I.
  - apply Prim2SF_canonical in Ey as [_ He].
    rewrite SF2Q_finite in H0, Hle. simpl SF2Q in H0, Hle.
    pose proof (dyadic_pos my ey). unfold SFadd. destruct sy.
    + lra.
    + split; [exact He | lra].
  - apply Prim2SF_canonical in Ex as [_ He].
    rewrite SF2Q_finite in H0, Hle. simpl SF2Q in H0, Hle.
    pose proof (dyadic_pos mx ex). unfold SFadd. destruct sx.
    + lra.
    + split; [exact He | lra].
  - apply (SFadd_within prec emax prec_pos64); assumption.
Qed.

(** [x * y] for [x] a non-negative float and [y] a positive one. *)
Lemma mul_within (x y : float) (b : Q) (my : positive) (ey : Z)
    (mb : positive) (eb : Z) :
  canonical64 mb eb ->
  Prim2SF y = S754_finite false my ey ->
  within emax_prec (Prim2SF x) b ->
  (b * dyadic (Zpos my) ey <= dyadic (Zpos mb) eb)%Q ->
  within emax_prec (Prim2SF (x * y)) (dyadic (Zpos mb) eb).
Proof.
  intros [Hcan Hbnd] Ey Hx Hle. rewrite mul_spec. unfold SF64mul. rewrite Ey.
  pose proof (Prim2SF_canonical y _ _ _ Ey) as [Cy _].
  destruct (Prim2SF x) as [sx|sx| |[] mx ex] eqn:Ex; try contradiction.
  - exact I.
  - destruct Hx as [_ Hx]. pose proof (Prim2SF_canonical x _ _ _ Ex) as [Cx _].
    apply (SFmul_within prec emax prec_pos64 prec_lt_emax64); try assumption.
    pose proof (dyadic_pos my ey). pose proof (dyadic_pos mx ex). nra.
Qed.

Lemma mul_within_l (x y : float) (b : Q) (mx : positive) (ex : Z)
    (mb : positive) (eb : Z) :
  canonical64 mb eb ->
  Prim2SF x = S754_finite false mx ex ->
  within emax_prec (Prim2SF y) b ->
  (dyadic (Zpos mx) ex * b <= dyadic (Zpos mb) eb)%Q ->
  within emax_prec (Prim2SF (x * y)) (dyadic (Zpos mb) eb).
Proof.
  intros [Hcan Hbnd] Ex Hy Hle. rewrite mul_spec. unfold SF64mul. rewrite Ex.
  pose proof (Prim2SF_canonical x _ _ _ Ex) as [Cx _].
  destruct (Prim2SF y) as [sy|sy| |[] my ey] eqn:Ey; try contradiction.
  - exact I.
  - destruct Hy as [_ Hy]. pose proof (Prim2SF_canonical y _ _ _ Ey) as [Cy _].
    apply (SFmul_within prec emax prec_pos64 prec_lt_emax64); try assumption.
    pose proof (dyadic_pos my ey). pose proof (dyadic_pos mx ex). nra.
Qed.

(** [x / y] for [x] a non-negative float and [y] a positive one. *)
Lemma div_within (x y : float) (b : Q) (my : positive) (ey : Z)
    (mb : positive) (eb : Z) :
  canonical64 mb eb ->
  Prim2SF y = S754_finite false my ey ->
  within emax_prec (Prim2SF x) b ->
  (b <= dyadic (Zpos mb) eb * dyadic (Zpos my) ey)%Q ->
  within emax_prec (Prim2SF (x / y)) (dyadic (Zpos mb) eb).
Proof.
  intros [Hcan Hbnd] Ey Hx Hle. rewrite div_spec. unfold SF64div. rewrite Ey.
  destruct (Prim2SF x) as [sx|sx| |[] mx ex] eqn:Ex; try contradiction.
  - exact I.
  - destruct Hx as [_ Hx].
    apply (SFdiv_within prec emax prec_pos64); try assumption. lra.
Qed.

(** The integer part of a non-negative float below [n + 1]. *)
Lemma shiftl_bounds (m : positive) (e n : Z) :
  (dyadic (Zpos m) e < inject_Z (n + 1))%Q -> 0 <= Z.shiftl (Zpos m) e <= n.
Proof.
  intros H. destruct (Z.le_gt_cases 0 e) as [He|He].
  - rewrite Z.shiftl_mul_pow2 by assumption.
    pose proof (Z.pow_pos_nonneg 2 e ltac:(lia) He). split; [lia|].
    assert (Hn : (dyadic (n + 1) 0 == inject_Z (n + 1))%Q)
      by (unfold dyadic, bpow; simpl; ring).
    assert (Hd : (dyadic (Zpos m * 2 ^ e) 0 == dyadic (Zpos m) e)%Q).
    { rewrite dyadic_shift by assumption. reflexivity. }
    assert (Hlt : (dyadic (Zpos m * 2 ^ e) 0 < dyadic (n + 1) 0)%Q) by lra.
    apply dyadic_lt_inv in Hlt. lia.
  - rewrite Z.shiftl_div_pow2 by lia.
    pose proof (Z.pow_pos_nonneg 2 (- e) ltac:(lia) ltac:(lia)) as Hp.
    split; [apply Z.div_pos; lia|].
    assert (Hn : (dyadic (2 ^ (- e) * (n + 1)) e == inject_Z (n + 1))%Q).
    { rewrite Z.mul_comm, dyadic_shift by lia. replace (e + - e) with 0 by lia.
      unfold dyadic, bpow. simpl. ring. }
    assert (Hlt : (dyadic (Zpos m) e < dyadic (2 ^ (- e) * (n + 1)) e)%Q) by lra.
    apply dyadic_lt_inv in Hlt.
    assert (Zpos m / 2 ^ (- e) < n + 1) by (apply Z.div_lt_upper_bound; lia).
    lia.
Qed.

Lemma trunc_within (u : float) (b : Q) (n : Z) :
  0 <= n -> (b < inject_Z (n + 1))%Q -> within emax_prec (Prim2SF u) b ->
  exists p, Float64.trunc u = Ok p /\ 0 <= p <= n.
Proof.
  intros Hn Hb H. unfold Float64.trunc.
  destruct (Prim2SF u) as [s|s| |[] m e]; try contradiction.
  - exists 0. split; [reflexivity | lia].
  - destruct H as [_ H]. exists (Z.shiftl (Zpos m) e). split; [reflexivity|].
    apply shiftl_bounds. lra.
Qed.

Lemma abs_within (u : float) (b : Q) :
  within emax_prec (Prim2SF u) b -> within emax_prec (Prim2SF (abs u)) b.
Proof.
  rewrite abs_spec. destruct (Prim2SF u) as [s|s| |s m e]; simpl; try tauto.
  destruct s; tauto.
Qed.

(** ** Floats that are small integers *)

(** The float [x] is a number whose value is the integer [n]. *)
Definition float_is (x : float) (n : Z) : Prop := SF_is (Prim2SF x) n.

Lemma add_is (x y : float) (a b : Z) :
  float_is x a -> float_is y b -> Z.abs (a + b) < 2 ^ prec ->
  float_is (x + y) (a + b).
Proof.
  intros Hx Hy Hn. unfold float_is. rewrite add_spec.
  apply (SFadd_is prec emax prec_pos64 prec_lt_emax64); assumption.
Qed.

Lemma sub_is (x y : float) (a b : Z) :
  float_is x a -> float_is y b -> Z.abs (a - b) < 2 ^ prec ->
  float_is (x - y) (a - b).
Proof.
  intros Hx Hy Hn. unfold float_is. rewrite sub_spec.
  apply (SFsub_is prec emax prec_pos64 prec_lt_emax64); assumption.
Qed.

Lemma mul_is (x y : float) (a b : Z) :
  float_is x a -> float_is y b -> Z.abs (a * b) < 2 ^ prec ->
  float_is (x * y) (a * b).
Proof.
  intros Hx Hy Hn. unfold float_is. rewrite mul_spec.
  apply (SFmul_is prec emax prec_pos64 prec_lt_emax64);
    auto using Prim2SF_valid64.
Qed.

Lemma float_is_not_infinity (x : float) (n : Z) :
  float_is x n -> is_infinity x = false.
Proof.
  intros [N _]. unfold is_infinity. rewrite FloatAxioms.eqb_spec, abs_spec.
  destruct (Prim2SF x) as [s|s| |s m e]; try contradiction; reflexivity.
Qed.

(** ** Facts about the power and the step *)

Lemma py_range_In (lo hi d : Z) : lo <= d < hi -> In d (py_range lo hi).
Proof.
  intros H. unfold py_range. apply in_map_iff.
  exists (Z.to_nat (d - lo)). split; [lia|]. apply in_seq. lia.
Qed.

Lemma forall_range (P : Z -> bool) (lo hi : Z) :
  forallb P (py_range lo hi) = true -> forall d, lo <= d < hi -> P d = true.
Proof.
  intros H d Hd. rewrite forallb_forall in H. apply H, py_range_In, Hd.
Qed.

(** An int exponent in [0..100] reaches [complex_pow] as a float that is
    integral, at most [100], and truncates back to the int. *)
Definition small_exponent (d : Z) : bool :=
  match Float64.PyLong_AsDouble d with
  | Ok y =>
      Float64.is_integer y && (abs y <=? 100)%float &&
      match Float64.trunc y with Ok n => n =? d | Raise _ => false end
  | Raise _ => false
  end.

Lemma small_exponent_range (d : Z) : 0 <= d <= 100 -> small_exponent d = true.
Proof.
  intros H. apply (forall_range small_exponent 0 101); [vm_compute; reflexivity | lia].
Qed.

Section PowerFacts.

Context {M : Libm}.

Lemma py_pow_int_small (z : complex) (d : Z) :
  0 <= d <= 100 ->
  py_pow_int (PyComplex z) d =
  if is_huge (fst (c_powi z d)) then Raise OverflowError
  else Ok (PyComplex (fst (c_powi z d))).
Proof.
  intros Hd. pose proof (small_exponent_range d Hd) as Hs.
  unfold small_exponent in Hs. unfold py_pow_int.
  destruct (Float64.PyLong_AsDouble d) as [y|]; [|discriminate]. simpl.
  apply andb_prop in Hs as [Hg Ht]. unfold complex_pow. rewrite Hg.
  destruct (Float64.trunc y) as [n|]; [|discriminate].
  apply Z.eqb_eq in Ht. subst n.
  assert (Hedom : snd (c_powi z d) = false).
  { unfold c_powi. destruct (Z.ltb_spec 0 d) as [Hpos|Hz]; [reflexivity|].
    assert (d = 0) as -> by lia. vm_compute. reflexivity. }
  destruct (c_powi z d) as [p edom]. simpl in *. subst edom.
  destruct (is_huge p); reflexivity.
Qed.

(** The sum [p + c] never raises: an exception of [calc_zeta] is one of
    the power. *)
Lemma calc_zeta_raise (z c : complex) (d : Z) (e : exn) :
  calc_zeta (PyComplex z) c d = Raise e -> py_pow_int (PyComplex z) d = Raise e.
Proof.
  unfold calc_zeta. intros H. apply bind_Raise in H as [H|(p & Hp & H)]; [exact H|].
  exfalso. unfold py_pow_int in Hp.
  apply bind_Ok in Hp as (y & _ & Hp). apply bind_Ok in Hp as (w & _ & Hp).
  injection Hp as <-. discriminate H.
Qed.

Lemma calc_zeta_value (z c : complex) (d : Z) (p : pynum) :
  py_pow_int (PyComplex z) d = Ok p ->
  exists w, p = PyComplex w /\
            calc_zeta (PyComplex z) c d = Ok (PyComplex (_Py_c_sum w c)).
Proof.
  intros Hp. unfold calc_zeta. rewrite Hp. simpl.
  unfold py_pow_int in Hp.
  apply bind_Ok in Hp as (y & _ & Hp). apply bind_Ok in Hp as (w & _ & Hp).
  injection Hp as <-. exists w. split; reflexivity.
Qed.

(** [test_calc_zeta_fail]: with [d = 20000] the power takes the polar form;
    when the power of the modulus overflows, so does the result. *)
Lemma calc_zeta_20000 :
  let z := mkC (-12) 4 in
  let phase := (atan2 4 (-12) * 20000)%float in
  pow (hypot (-12) 4) 20000 = infinity ->
  is_infinity phase = false ->
  is_huge (mkC (infinity * cos phase) (infinity * sin phase)) = true ->
  calc_zeta (PyComplex z) z 20000 = Raise OverflowError.
Proof.
  intros z phase Hpow Hphase Hhuge.
  unfold calc_zeta, py_pow_int.
  change (Float64.PyLong_AsDouble 20000) with (Ok 20000%float).
  cbn [bind]. unfold complex_pow.
  change (Float64.is_integer 20000 && (abs 20000 <=? 100)%float) with false.
  cbv iota. unfold _Py_c_pow, z. cbn [real imag].
  change (20000 =? 0)%float with false.
  change ((-12 =? 0)%float && (4 =? 0)%float) with false.
  cbv iota. rewrite Hpow. fold phase. rewrite Hphase, Hhuge. reflexivity.
Qed.

End PowerFacts.

(** ** The step on Gaussian integers *)

(** A Gaussian integer [a + b i] as the pair [(a, b)]. *)
Definition gauss : Type := (Z * Z)%type.

Definition gadd (g h : gauss) : gauss := (fst g + fst h, snd g + snd h).

Definition gmul (g h : gauss) : gauss :=
  (fst g * fst h - snd g * snd h, fst g * snd h + snd g * fst h).

Fixpoint gpow (g : gauss) (n : nat) : gauss :=
  match n with
  | O => (1, 0)
  | S n' => gmul g (gpow g n')
  end.

Definition norm1 (g : gauss) : Z := Z.abs (fst g) + Z.abs (snd g).

(** The bound of the powers of [g]: [norm1 g], and [1] for [g = 0]. *)
Definition bound (g : gauss) : Z := Z.max 1 (norm1 g).

(** Both components of [z] are floats whose values are those of [g]. *)
Definition represents (z : complex) (g : gauss) : Prop :=
  float_is (real z) (fst g) /\ float_is (imag z) (snd g).

Lemma gmul_comm (g h : gauss) : gmul g h = gmul h g.
Proof. unfold gmul. f_equal; ring. Qed.

Lemma gmul_assoc (g h k : gauss) : gmul g (gmul h k) = gmul (gmul g h) k.
Proof. unfold gmul. cbn [fst snd]. f_equal; ring. Qed.

Lemma gmul_1_l (g : gauss) : gmul (1, 0) g = g.
Proof. destruct g as [a b]. unfold gmul. cbn [fst snd]. f_equal; ring. Qed.

Lemma gmul_1_r (g : gauss) : gmul g (1, 0) = g.
Proof. rewrite gmul_comm. apply gmul_1_l. Qed.

Lemma gpow_add (g : gauss) (n m : nat) :
  gpow g (n + m) = gmul (gpow g n) (gpow g m).
Proof.
  induction n as [|n IH]; cbn [gpow Nat.add].
  - rewrite gmul_1_l. reflexivity.
  - rewrite IH, gmul_assoc. reflexivity.
Qed.

Lemma gpow_square (g : gauss) (n : nat) : gpow (gmul g g) n = gpow g (2 * n).
Proof.
  induction n as [|n IH]; [reflexivity|].
  replace (2 * S n)%nat with (S (S (2 * n))) by lia. cbn [gpow].
  rewrite IH, gmul_assoc. reflexivity.
Qed.

Lemma norm1_nonneg (g : gauss) : 0 <= norm1 g.
Proof. unfold norm1. lia. Qed.

(** The parts of a product of Gaussian integers are bounded by the product
    of the norms. *)
Lemma abs_products (a b c d : Z) :
  let n := (Z.abs a + Z.abs b) * (Z.abs c + Z.abs d) in
  (Z.abs (a * c) <= n /\ Z.abs (b * d) <= n /\ Z.abs (a * c - b * d) <= n) /\
  (Z.abs (a * d) <= n /\ Z.abs (b * c) <= n /\ Z.abs (a * d + b * c) <= n) /\
  Z.abs (a * c - b * d) + Z.abs (a * d + b * c) <= n.
Proof.
  intros n.
  pose proof (Z.abs_triangle (a * c) (- (b * d))) as H1.
  pose proof (Z.abs_triangle (a * d) (b * c)) as H2.
  rewrite Z.abs_opp in H1.
  replace (a * c + - (b * d)) with (a * c - b * d) in H1 by ring.
  rewrite !Z.abs_mul in *.
  assert (Hn : n = Z.abs a * Z.abs c + Z.abs b * Z.abs d
                   + (Z.abs a * Z.abs d + Z.abs b * Z.abs c)) by (unfold n; ring).
  pose proof (Z.mul_nonneg_nonneg _ _ (Z.abs_nonneg a) (Z.abs_nonneg c)) as Pac.
  pose proof (Z.mul_nonneg_nonneg _ _ (Z.abs_nonneg b) (Z.abs_nonneg d)) as Pbd.
  pose proof (Z.mul_nonneg_nonneg _ _ (Z.abs_nonneg a) (Z.abs_nonneg d)) as Pad.
  pose proof (Z.mul_nonneg_nonneg _ _ (Z.abs_nonneg b) (Z.abs_nonneg c)) as Pbc.
  pose proof (Z.abs_nonneg (a * c - b * d)) as P1.
  pose proof (Z.abs_nonneg (a * d + b * c)) as P2.
  clearbody n.
  generalize dependent (Z.abs (a * c - b * d)).
  generalize dependent (Z.abs (a * d + b * c)).
  generalize dependent (Z.abs a * Z.abs c). generalize dependent (Z.abs b * Z.abs d).
  generalize dependent (Z.abs a * Z.abs d). generalize dependent (Z.abs b * Z.abs c).
  intros. lia.
Qed.

Lemma norm1_mul (g h : gauss) : norm1 (gmul g h) <= norm1 g * norm1 h.
Proof.
  destruct g as [a b], h as [c d]. unfold norm1, gmul. cbn [fst snd].
  apply abs_products.
Qed.

Lemma bound_pos (g : gauss) : 1 <= bound g.
Proof. unfold bound. lia. Qed.

Lemma norm1_bound (g : gauss) : norm1 g <= bound g.
Proof. unfold bound. lia. Qed.

Lemma bound_mul (g h : gauss) : bound (gmul g h) <= bound g * bound h.
Proof.
  pose proof (norm1_mul g h) as Hm.
  pose proof (norm1_nonneg g) as Zg. pose proof (norm1_nonneg h) as Zh.
  pose proof (bound_pos g) as Pg. pose proof (bound_pos h) as Ph.
  pose proof (Z.mul_le_mono_nonneg _ _ _ _ Zg (norm1_bound g) Zh (norm1_bound h)).
  pose proof (Z.mul_le_mono_nonneg 1 _ 1 _ ltac:(lia) Pg ltac:(lia) Ph).
  unfold bound at 1. apply Z.max_lub; lia.
Qed.

Lemma bound_gpow (g : gauss) (n : nat) : bound (gpow g n) <= bound g ^ Z.of_nat n.
Proof.
  induction n as [|n IH].
  - vm_compute. discriminate.
  - cbn [gpow]. rewrite Nat2Z.inj_succ, Z.pow_succ_r by lia.
    pose proof (bound_mul g (gpow g n)) as Hm. pose proof (bound_pos g) as Pg.
    pose proof (Z.mul_le_mono_nonneg_l _ _ (bound g) ltac:(lia) IH). lia.
Qed.

(** Powers of a square. *)
Lemma square_pow_bounds (b : Z) (n : positive) :
  1 <= b -> 1 <= b * b /\ b * b <= (b * b) ^ Zpos n.
Proof.
  intros Hb. assert (H1 : 1 <= b * b) by nia. split; [exact H1|].
  rewrite <- (Z.pow_1_r (b * b)) at 1. apply Z.pow_le_mono_r; lia.
Qed.

Section GaussFacts.

Context {M : Libm}.

(** The product of [complexobject.c] is exact on Gaussian integers whose
    product stays below [2^53]. *)
Lemma _Py_c_prod_exact (z w : complex) (g h : gauss) :
  represents z g -> represents w h -> norm1 g * norm1 h < 2 ^ prec ->
  represents (_Py_c_prod z w) (gmul g h).
Proof.
  intros [Hzr Hzi] [Hwr Hwi] Hn.
  destruct g as [a b], h as [c d]. unfold norm1 in Hn. cbn [fst snd] in *.
  pose proof (abs_products a b c d) as ((Hac & Hbd & Hre) & (Had & Hbc & Him) & _).
  cbv zeta in *.
  unfold _Py_c_prod, represents, gmul. cbn [real imag fst snd]. split.
  - apply sub_is; [apply mul_is | apply mul_is |]; try assumption;
      eapply Z.le_lt_trans; eassumption.
  - apply add_is; [apply mul_is | apply mul_is |]; try assumption;
      eapply Z.le_lt_trans; eassumption.
Qed.

Lemma _Py_c_sum_exact (z w : complex) (g h : gauss) :
  represents z g -> represents w h -> norm1 g + norm1 h < 2 ^ prec ->
  represents (_Py_c_sum z w) (gadd g h).
Proof.
  intros [Hzr Hzi] [Hwr Hwi] Hn.
  destruct g as [a b], h as [c d]. unfold norm1 in Hn. cbn [fst snd] in *.
  unfold _Py_c_sum, represents, gadd. cbn [real imag fst snd]. split.
  - apply add_is; try assumption; lia.
  - apply add_is; try assumption; lia.
Qed.

Lemma c_1_represents : represents c_1 (1, 0).
Proof.
  split; (split; [exact I | vm_compute; reflexivity]).
Qed.

(** Square and multiply is exact as long as the bound of the result stays
    below [2^53]. *)
Lemma c_powu_bits_exact (n : positive) :
  forall (r p : complex) (gr gp : gauss),
    represents r gr -> represents p gp ->
    bound gr * bound gp ^ Zpos n < 2 ^ prec ->
    represents (c_powu_bits n r p) (gmul gr (gpow gp (Pos.to_nat n))).
Proof.
  induction n as [n IH|n IH|]; intros r p gr gp Hr Hp Hb;
    pose proof (bound_pos gr) as Hgr; pose proof (bound_pos gp) as Hgp;
    pose proof (norm1_bound gr) as Nr; pose proof (norm1_bound gp) as Np;
    pose proof (norm1_nonneg gr) as Zr; pose proof (norm1_nonneg gp) as Zp;
    pose proof (Z.mul_le_mono_nonneg _ _ _ _ Zr Nr Zp Np) as Hrp;
    pose proof (Z.mul_le_mono_nonneg _ _ _ _ Zp Np Zp Np) as Hpp;
    pose proof (bound_mul gr gp) as Brp; pose proof (bound_mul gp gp) as Bpp;
    pose proof (bound_pos (gmul gr gp)) as Prp;
    pose proof (bound_pos (gmul gp gp)) as Ppp;
    set (R := bound gr) in *; set (B := bound gp) in *;
    try (pose proof (square_pow_bounds B n Hgp) as [HQ1 HQ];
         pose proof (Z.pow_le_mono_l _ _ (Zpos n)
                       (conj (Z.le_trans _ _ _ Z.le_0_1 Ppp) Bpp)) as Hpow;
         pose proof (Z.pow_nonneg (bound (gmul gp gp)) (Zpos n) ltac:(lia)) as Hpow0;
         set (Q := (B * B) ^ Zpos n) in * ).
  - (* n~1 *)
    assert (Hb' : R * (B * Q) < 2 ^ prec).
    { rewrite Pos2Z.inj_xI, Z.pow_add_r, Z.pow_mul_r, Z.pow_1_r, Z.pow_2_r in Hb by lia.
      fold Q in Hb. replace (R * (B * Q)) with (R * (Q * B)) by ring. exact Hb. }
    cbn [c_powu_bits]. rewrite Pos2Nat.inj_xI.
    replace (gmul gr (gpow gp (S (2 * Pos.to_nat n))))
      with (gmul (gmul gr gp) (gpow (gmul gp gp) (Pos.to_nat n))).
    2:{ rewrite gpow_square. cbn [gpow]. rewrite !gmul_assoc. reflexivity. }
    apply IH.
    + apply _Py_c_prod_exact; try assumption. nia.
    + apply _Py_c_prod_exact; try assumption. nia.
    + pose proof (Z.mul_le_mono_nonneg _ _ _ _
                    (Z.le_trans _ _ _ Z.le_0_1 Prp) Brp Hpow0 Hpow) as Hm.
      fold Q in Hm. replace (R * (B * Q)) with (R * B * Q) in Hb' by ring. lia.
  - (* n~0 *)
    assert (Hb' : R * Q < 2 ^ prec).
    { rewrite Pos2Z.inj_xO, Z.pow_mul_r, Z.pow_2_r in Hb by lia. exact Hb. }
    cbn [c_powu_bits]. rewrite Pos2Nat.inj_xO, <- gpow_square.
    apply IH.
    + exact Hr.
    + apply _Py_c_prod_exact; try assumption. nia.
    + pose proof (Z.mul_le_mono_nonneg_l _ _ R ltac:(lia) Hpow) as Hm.
      fold Q in Hm. lia.
  - cbn [c_powu_bits]. change (Pos.to_nat 1) with 1%nat. cbn [gpow].
    rewrite gmul_1_r. rewrite Z.pow_1_r in Hb.
    apply _Py_c_prod_exact; try assumption. lia.
Qed.

(** [c_powu] on a Gaussian integer, for a positive exponent. *)
Lemma c_powu_exact (z : complex) (g : gauss) (d : Z) :
  represents z g -> 0 < d -> bound g ^ d < 2 ^ prec ->
  represents (c_powu z d) (gpow g (Z.to_nat d)).
Proof.
  intros Hz Hd Hb. destruct d as [|n|n]; try lia.
  unfold c_powu. change (Z.to_nat (Zpos n)) with (Pos.to_nat n).
  rewrite <- (gmul_1_l (gpow g (Pos.to_nat n))).
  apply c_powu_bits_exact; [apply c_1_represents | exact Hz |].
  change (bound (1, 0)) with 1. lia.
Qed.

Lemma represents_not_huge (z : complex) (g : gauss) :
  represents z g -> is_huge z = false.
Proof.
  intros [Hr Hi]. unfold is_huge.
  rewrite (float_is_not_infinity _ _ Hr), (float_is_not_infinity _ _ Hi). reflexivity.
Qed.

(** The step on Gaussian integers: as long as [bound z ^ d + norm1 c] stays
    below [2^53], [calc_zeta] returns the Gaussian integer [z^d + c]. *)
Lemma calc_zeta_exact (z c : complex) (g h : gauss) (d : Z) :
  represents z g -> represents c h -> 0 <= d <= 100 ->
  bound g ^ d + norm1 h < 2 ^ prec ->
  exists w, calc_zeta (PyComplex z) c d = Ok (PyComplex w) /\
            represents w (gadd (gpow g (Z.to_nat d)) h).
Proof.
  intros Hz Hc Hd Hb. pose proof (norm1_nonneg h) as Zh.
  assert (Hp : represents (fst (c_powi z d)) (gpow g (Z.to_nat d))).
  { unfold c_powi. destruct (Z.ltb_spec 0 d) as [Hpos|Hz0].
    - cbn [fst]. apply c_powu_exact; [exact Hz | exact Hpos | lia].
    - assert (d = 0) as -> by lia.
      split; (split; [exact I | vm_compute; reflexivity]). }
  unfold calc_zeta. rewrite (py_pow_int_small z d Hd).
  rewrite (represents_not_huge _ _ Hp). cbn [bind py_add to_complex].
  eexists. split; [reflexivity|].
  apply _Py_c_sum_exact; [exact Hp | exact Hc |].
  pose proof (bound_gpow g (Z.to_nat d)) as Hg.
  pose proof (norm1_bound (gpow g (Z.to_nat d))) as Hn.
  rewrite Z2Nat.id in Hg by lia. lia.
Qed.

End GaussFacts.

(** ** Facts about the brightness and the channels *)

(** The exponent [-iteration - 1/255] is a finite non-zero float. *)
Definition brightness_exponent (iteration : Z) : float :=
  (Float64.of_Z (- iteration) - 0x1.0101010101010p-8)%float.

Definition brightness_guard (iteration : Z) : bool :=
  match Float64.PyLong_AsDouble (- iteration), Float64.int_truediv 1 255 with
  | Ok x, Ok t =>
      let e := (x - t)%float in
      Leibniz.eqb e (brightness_exponent iteration) &&
      negb (e =? 0)%float && negb (is_nan e) && negb (is_infinity e)
  | _, _ => false
  end.

Lemma brightness_guard_range (iteration : Z) :
  1 <= iteration <= 200 -> brightness_guard iteration = true.
Proof.
  intros H. apply (forall_range brightness_guard 1 201); [vm_compute; reflexivity | lia].
Qed.

Section ColourFacts.

Context {M : Libm}.

Lemma float_pow_two (e : float) :
  (e =? 0)%float = false -> is_nan e = false -> is_infinity e = false ->
  float_pow 2 e =
  if is_infinity (pow 2 e) then Raise OverflowError else Ok (PyFloat (pow 2 e)).
Proof.
  intros H0 Hnan Hinf. unfold float_pow. rewrite H0, Hnan, Hinf.
  change (is_nan 2) with false. change (is_infinity 2) with false.
  change (2 =? 0)%float with false. change (2 <? 0)%float with false.
  change (2 =? 1)%float with false. reflexivity.
Qed.

(** [brightness = 1 - 2 ** (-iteration - 1/255)] on the counts the
    evaluator returns under the default bound. *)
Lemma diverging_brightness_value (iteration : Z) :
  1 <= iteration <= 200 ->
  diverging_brightness iteration =
  let p := pow 2 (brightness_exponent iteration) in
  if is_infinity p then Raise OverflowError else Ok (PyFloat (- p + 1)%float).
Proof.
  intros H. pose proof (brightness_guard_range iteration H) as Hg.
  unfold brightness_guard in Hg. unfold diverging_brightness.
  destruct (Float64.PyLong_AsDouble (- iteration)) as [x|]; [|discriminate].
  destruct (Float64.int_truediv 1 255) as [t|]; [|discriminate].
  cbn [bind]. cbv zeta in Hg.
  apply andb_prop in Hg as [Hg Hinf]. apply andb_prop in Hg as [Hg Hnan].
  apply andb_prop in Hg as [He H0]. apply Leibniz.eqb_spec in He.
  apply negb_true_iff in Hinf, Hnan, H0.
  rewrite float_pow_two by assumption. rewrite He. cbv zeta.
  destruct (is_infinity (pow 2 (brightness_exponent iteration))); reflexivity.
Qed.

Lemma scaled_int_zero (v : Z) : scaled (PyInt 0) v = Ok 0.
Proof. reflexivity. Qed.

Lemma scaled_float (x : float) (v : Z) :
  scaled (PyFloat x) v =
  y <- Float64.PyLong_AsDouble v ;; Float64.trunc (x * y * 1)%float.
Proof.
  unfold scaled. simpl. destruct (Float64.PyLong_AsDouble v); reflexivity.
Qed.

Lemma get_pixel_colour_colour_with (zeta : pynum) (iteration : Z) :
  get_pixel_colour zeta iteration =
  colour_with (if iteration =? CONST_N then Ok (PyInt 0)
               else diverging_brightness iteration) zeta.
Proof. reflexivity. Qed.

End ColourFacts.

(** ** Facts about the pixel of a coordinate *)

Ltac canonical_closed := split; [reflexivity | apply Z.leb_le; reflexivity].

(** One axis: for [lo <= v <= hi] the index [int(abs((v - lo) / c))] lies in
    [0..n], given a float [t >= hi - lo] with [t / c <= n]. *)
Lemma pixel_axis_range (v lo hi c : float) (mt : positive) (et : Z)
    (mc : positive) (ec : Z) (mb : positive) (eb : Z) (n : Z) :
  is_num (Prim2SF lo) -> is_num (Prim2SF hi) ->
  (lo <=? v)%float = true -> (v <=? hi)%float = true ->
  canonical64 mt et ->
  (SF2Q (Prim2SF hi) - SF2Q (Prim2SF lo) <= dyadic (Zpos mt) et)%Q ->
  Prim2SF c = S754_finite false mc ec ->
  canonical64 mb eb -> (dyadic (Zpos mb) eb == inject_Z n)%Q -> 0 <= n ->
  (dyadic (Zpos mt) et <= dyadic (Zpos mb) eb * dyadic (Zpos mc) ec)%Q ->
  exists p, Float64.trunc (abs ((v - lo) / c)) = Ok p /\ 0 <= p <= n.
Proof.
  intros Nlo Nhi H1 H2 Ct Ht Ec Cb Hb Hn Htc.
  destruct (float_between lo v hi Nlo Nhi H1 H2) as (Nv & Hlo & Hhi).
  apply trunc_within with (b := dyadic (Zpos mb) eb); [exact Hn| |].
  { rewrite Hb. rewrite <- Zlt_Qlt. lia. }
  apply abs_within.
  apply (div_within (v - lo) c (dyadic (Zpos mt) et) mc ec mb eb); try assumption.
  apply sub_within; try assumption; lra.
Qed.

Lemma CONST_WIDTH_SPACING_value :
  CONST_WIDTH_SPACING = Ok 0x1.0624dd2f1a9fcp-9%float.
Proof. vm_compute. reflexivity. Qed.

Lemma CONST_HEIGHT_SPACING_value :
  CONST_HEIGHT_SPACING = Ok 0x1.0624dd2f1a9fcp-9%float.
Proof. vm_compute. reflexivity. Qed.

(** Every coordinate of the plane region has a pixel of the image. *)
Lemma coord_to_pixel_range (x y : float) :
  (Float64.of_Z CONST_MIN_WIDTH <=? x)%float = true ->
  (x <=? Float64.of_Z CONST_MAX_WIDTH)%float = true ->
  (Float64.of_Z CONST_MIN_HEIGHT <=? y)%float = true ->
  (y <=? Float64.of_Z CONST_MAX_HEIGHT)%float = true ->
  exists px py,
    coord_to_pixel (x, y) = Ok (px, py) /\
    0 <= px <= CONST_WIDTH_RESOLUTION /\ 0 <= py <= CONST_HEIGHT_RESOLUTION.
Proof.
  intros Hx1 Hx2 Hy1 Hy2. unfold coord_to_pixel.
  rewrite CONST_WIDTH_SPACING_value, CONST_HEIGHT_SPACING_value. cbn [bind].
  change (Float64.PyLong_AsDouble CONST_MIN_WIDTH) with (Ok (-2)%float).
  change (Float64.PyLong_AsDouble CONST_MIN_HEIGHT) with (Ok (-1)%float).
  cbn [bind].
  change (Float64.of_Z CONST_MIN_WIDTH) with (-2)%float in Hx1.
  change (Float64.of_Z CONST_MAX_WIDTH) with 1%float in Hx2.
  change (Float64.of_Z CONST_MIN_HEIGHT) with (-1)%float in Hy1.
  change (Float64.of_Z CONST_MAX_HEIGHT) with 1%float in Hy2.
  destruct (pixel_axis_range x (-2) 1 0x1.0624dd2f1a9fcp-9
              6755399441055744 (-51) 4611686018427388 (-61)
              6597069766656000 (-42) 1500) as (px & Hpx & Hpxr);
    try assumption; try exact I; try canonical_closed; try q_closed;
    try reflexivity; try lia.
  destruct (pixel_axis_range y (-1) 1 0x1.0624dd2f1a9fcp-9
              4503599627370496 (-51) 4611686018427388 (-61)
              8796093022208000 (-43) 1000) as (py & Hpy & Hpyr);
    try assumption; try exact I; try canonical_closed; try q_closed;
    try reflexivity; try lia.
  exists px, py. rewrite Hpx. cbn [bind]. rewrite Hpy. cbn [bind].
  split; [reflexivity|]. unfold CONST_WIDTH_RESOLUTION, CONST_HEIGHT_RESOLUTION. lia.
Qed.

(** [abs] of a quotient by a positive float is the quotient of [abs]. *)
Lemma SFabs_binary_round_aux (s : bool) (m e : Z) (l : location) :
  SFabs (binary_round_aux prec emax s m e l) = binary_round_aux prec emax false m e l.
Proof.
  unfold binary_round_aux.
  destruct (shr_fexp prec emax m e l) as [mrs1 e1].
  destruct (shr_fexp prec emax _ e1 loc_Exact) as [mrs2 e2].
  destruct (shr_m mrs2); try reflexivity.
  destruct (e2 <=? emax - prec); reflexivity.
Qed.

Lemma abs_div_pos (t c : float) (mc : positive) (ec : Z) :
  Prim2SF c = S754_finite false mc ec -> abs (t / c) = (abs t / c)%float.
Proof.
  intros Ec. apply Prim2SF_inj.
  rewrite abs_spec, !div_spec, abs_spec, Ec. unfold SF64div, SFdiv.
  destruct (Prim2SF t) as [s|s| |s m e]; cbn [SFabs].
  - destruct s; reflexivity.
  - destruct s; reflexivity.
  - reflexivity.
  - destruct (SFdiv_core_binary prec emax (Zpos m) e (Zpos mc) ec) as [[mz ez] lz].
    rewrite SFabs_binary_round_aux. destruct s; reflexivity.
Qed.

(** On a float that is not negative, [int()] and [floor] agree. *)
Lemma trunc_floor_abs (u : float) : Float64.trunc (abs u) = Float64.floor (abs u).
Proof.
  unfold Float64.trunc, Float64.floor. rewrite abs_spec.
  destruct (Prim2SF u) as [s|s| |s m e]; reflexivity.
Qed.

Lemma coord_to_pixel_spec_to_pixel (x y : float) :
  coord_to_pixel (x, y) = spec_to_pixel (x, y).
Proof.
  unfold coord_to_pixel, spec_to_pixel, spec_to_pixel_axis. cbn [fst snd].
  rewrite CONST_WIDTH_SPACING_value, CONST_HEIGHT_SPACING_value. cbn [bind].
  change (Float64.int_truediv (Z.abs (CONST_MAX_WIDTH - CONST_MIN_WIDTH))
            CONST_WIDTH_RESOLUTION) with (Ok 0x1.0624dd2f1a9fcp-9%float).
  change (Float64.int_truediv (Z.abs (CONST_MAX_HEIGHT - CONST_MIN_HEIGHT))
            CONST_HEIGHT_RESOLUTION) with (Ok 0x1.0624dd2f1a9fcp-9%float).
  change (Float64.PyLong_AsDouble CONST_MIN_WIDTH) with (Ok (-2)%float).
  change (Float64.PyLong_AsDouble CONST_MIN_HEIGHT) with (Ok (-1)%float).
  cbn [bind].
  rewrite !trunc_floor_abs.
  rewrite !(abs_div_pos _ 0x1.0624dd2f1a9fcp-9 4611686018427388 (-61))
    by reflexivity.
  reflexivity.
Qed.

(** ** Facts about the colour ramp *)

Lemma SFabs_bounds (f : spec_float) (b : Q) :
  is_num f -> (- b <= SF2Q f)%Q -> (SF2Q f <= b)%Q ->
  is_num (SFabs f) /\ (0 <= SF2Q (SFabs f))%Q /\ (SF2Q (SFabs f) <= b)%Q.
Proof.
  intros N Hlo Hhi. destruct f as [s|s| |s m e]; try contradiction.
  - simpl in *. repeat split; lra.
  - cbn [SFabs]. rewrite SF2Q_finite in *. pose proof (dyadic_pos m e).
    split; [exact I|]. destruct s; split; lra.
Qed.

(** The angle after the reflection of the negative ones lies in [0, 360]. *)
Lemma normalised_within (angle : float) :
  (-180 <=? angle)%float = true -> (angle <=? 180)%float = true ->
  within emax_prec
    (Prim2SF (if (angle <? 0)%float then (abs angle + Float64.of_Z 180)%float
              else angle))
    (dyadic 6333186975989760 (-44)).
Proof.
  intros H1 H2.
  destruct (float_between (-180) angle 180 I I H1 H2) as (N & Hlo & Hhi).
  assert (Hlo' : (-180 <= SF2Q (Prim2SF angle))%Q).
  { apply Qle_trans with (y := SF2Q (Prim2SF (-180))); [q_closed | exact Hlo]. }
  assert (Hhi' : (SF2Q (Prim2SF angle) <= 180)%Q).
  { apply Qle_trans with (y := SF2Q (Prim2SF 180)); [exact Hhi | q_closed]. }
  assert (H360 : (dyadic 6333186975989760 (-44) == 360)%Q) by q_closed.
  destruct (angle <? 0)%float eqn:Hneg.
  - change (Float64.of_Z 180) with 180%float.
    assert (H180 : (SF2Q (Prim2SF 180) == 180)%Q) by q_closed.
    destruct (SFabs_bounds (Prim2SF angle) 180 N) as (Na & Ha0 & Ha); try lra.
    rewrite <- abs_spec in Na, Ha0, Ha.
    apply add_within; try assumption; try exact I; [canonical_closed | lra | lra].
  - rewrite ltb_spec in Hneg.
    assert (H0 : (0 <= SF2Q (Prim2SF angle))%Q).
    { destruct (Qlt_le_dec (SF2Q (Prim2SF angle)) 0) as [Hlt|]; [|assumption].
      exfalso. change 0%Q with (SF2Q (Prim2SF 0)) in Hlt.
      apply (SFltb_value prec emax prec_pos64) in Hlt;
        auto using Prim2SF_valid64; try exact I. congruence. }
    apply nonneg_within; try assumption. lra.
Qed.

(** Below [360] the raw colour value lies in [0..764]. *)
Lemma raw_range (a : float) :
  within emax_prec (Prim2SF a) (dyadic 6333186975989760 (-44)) ->
  (a <? 360)%float = true ->
  exists raw, Float64.trunc (0x1.1p+1 * a) = Ok raw /\ 0 <= raw <= 764.
Proof.
  intros Hw Hlt.
  assert (Hw' : within emax_prec (Prim2SF a) (dyadic 6333186975989759 (-44))).
  { rewrite ltb_spec in Hlt.
    destruct (Prim2SF a) as [s|s| |[] m e] eqn:Ea; try contradiction; [exact I|].
    destruct Hw as [He _]. split; [exact He|].
    pose proof (Prim2SF_canonical a _ _ _ Ea) as [Ca _].
    change (dyadic 6333186975989759 (-44))
      with (dyadic (Zpos 6333186975989760 - 1) (-44)).
    apply (below_pred prec emax prec_pos64); try assumption; try reflexivity.
    change (dyadic (Zpos m) e) with (SF2Q (S754_finite false m e)).
    change (dyadic (Z.pos 6333186975989760) (-44)) with (SF2Q (Prim2SF 360)).
    apply (SFltb_value prec emax prec_pos64); try exact I;
      [rewrite <- Ea; apply Prim2SF_valid64 | apply Prim2SF_valid64 | exact Hlt]. }
  apply trunc_within with (b := dyadic 6729011161989119 (-43)); [lia | q_closed |].
  apply (mul_within_l 0x1.1p+1 a (dyadic 6333186975989759 (-44))
           4785074604081152 (-51));
    [canonical_closed | reflexivity | exact Hw' | q_closed].
Qed.

(** [int(colour_val / 255)] is the integer quotient on [0..764]. *)
Definition sector_ok (raw : Z) : bool :=
  match (q <- Float64.int_truediv raw 255 ;; Float64.trunc q) with
  | Ok num => num =? raw / 255
  | Raise _ => false
  end.

Lemma sector_of_raw (raw : Z) :
  0 <= raw <= 764 ->
  (q <- Float64.int_truediv raw 255 ;; Float64.trunc q) = Ok (raw / 255).
Proof.
  intros H.
  assert (Hs : sector_ok raw = true)
    by (apply (forall_range sector_ok 0 765); [vm_compute; reflexivity | lia]).
  unfold sector_ok in Hs.
  destruct (q <- Float64.int_truediv raw 255 ;; Float64.trunc q) as [num|];
    [|discriminate].
  apply Z.eqb_eq in Hs. subst num. reflexivity.
Qed.

(** The ramp on the angles whose reflection stays below [360]. *)
Lemma map_angle_to_colour_ramp (angle : float) :
  (-180 <=? angle)%float = true -> (angle <=? 180)%float = true ->
  let a := if (angle <? 0)%float then (abs angle + 180)%float else angle in
  (a <? 360)%float = true ->
  exists raw,
    Float64.trunc (765 / 360 * a)%float = Ok raw /\ 0 <= raw < 765 /\
    map_angle_to_colour angle =
    Ok (repeat 255 (Z.to_nat (raw / 255)) ++ [raw mod 255]
        ++ repeat 1 (Z.to_nat (2 - raw / 255))).
Proof.
  intros H1 H2 a Ha.
  pose proof (normalised_within angle H1 H2) as Hw.
  change (Float64.of_Z 180) with 180%float in Hw. fold a in Hw.
  destruct (raw_range a Hw Ha) as (raw & Hraw & Hr).
  exists raw. change (765 / 360)%float with 0x1.1p+1%float.
  split; [exact Hraw|]. split; [lia|].
  unfold map_angle_to_colour.
  change (Float64.of_Z 180) with 180%float. fold a.
  change (Float64.int_truediv 765 360) with (Ok 0x1.1p+1%float).
  cbn [bind]. rewrite Hraw. cbn [bind].
  pose proof (sector_of_raw raw Hr) as Hs.
  destruct (Float64.int_truediv raw 255) as [q|]; [|discriminate].
  cbn [bind] in *. rewrite Hs. reflexivity.
Qed.

(** ** The evaluator at its edges *)

Section EvaluatorFacts.

Context {M : Libm}.

Lemma calc_zeta_n_range (n : Z) :
  py_range 1 (n + 1) = py_range 1 (1 + Z.of_nat (Z.to_nat n)).
Proof.
  destruct (Z.le_gt_cases 0 n) as [Hn|Hn].
  - f_equal. lia.
  - rewrite !py_range_nil by lia. reflexivity.
Qed.

(** The first step from the literal [0]: the power is taken on ints. *)
Lemma calc_zeta_first (c : complex) (d : Z) :
  1 <= d ->
  calc_zeta (PyInt 0) c d = Ok (PyComplex (mkC (0 + real c) (0 + imag c))).
Proof.
  intros Hd. unfold calc_zeta, py_pow_int.
  destruct (Z.leb_spec 0 d) as [_|Hneg]; [|lia].
  rewrite Z.pow_0_l by lia. reflexivity.
Qed.

(** With the power [0] every step gives [1 + c]. *)
Lemma calc_zeta_zero_power (z : pynum) (c : complex) :
  (exists k, z = PyInt k) \/ (exists w, z = PyComplex w) ->
  calc_zeta z c 0 = Ok (PyComplex (mkC (1 + real c) (0 + imag c))).
Proof.
  intros [[k ->]|[w ->]].
  - reflexivity.
  - unfold calc_zeta. rewrite py_pow_int_small by lia.
    change (c_powi w 0) with (_Py_c_quot c_1 c_1).
    reflexivity.
Qed.

Lemma orbit_zero_power (c : complex) (k : nat) :
  orbit c 0 (S k) = Ok (PyComplex (mkC (1 + real c) (0 + imag c))).
Proof.
  induction k as [|k IH].
  - reflexivity.
  - change (orbit c 0 (S (S k))) with (z <- orbit c 0 (S k) ;; calc_zeta z c 0).
    rewrite IH. cbn [bind]. apply calc_zeta_zero_power. right. eauto.
Qed.

(** A step returns a complex number, whatever it starts from. *)
Lemma calc_zeta_complex (v : pynum) (c : complex) (d : Z) (zeta : pynum) :
  calc_zeta v c d = Ok zeta -> exists z, zeta = PyComplex z.
Proof.
  unfold calc_zeta. intros H. apply bind_Ok in H as (p & _ & H).
  destruct p as [k|x|w]; cbn [py_add] in H.
  - apply bind_Ok in H as (a & _ & H). apply bind_Ok in H as (b & _ & H).
    injection H as <-. eauto.
  - apply bind_Ok in H as (a & _ & H). apply bind_Ok in H as (b & _ & H).
    injection H as <-. eauto.
  - apply bind_Ok in H as (a & _ & H). apply bind_Ok in H as (b & _ & H).
    injection H as <-. eauto.
Qed.

Lemma calc_zeta_n_loop_complex (c : complex) (d : Z) (divergence_limit : pynum)
    (range : list Z) :
  forall (z0 zeta : pynum) (r : option Z),
    range <> [] ->
    calc_zeta_n_loop c d divergence_limit range z0 = Ok (zeta, r) ->
    exists z, zeta = PyComplex z.
Proof.
  induction range as [|i range IH]; intros z0 zeta r Hne H; [contradiction|].
  cbn [calc_zeta_n_loop] in H.
  apply bind_Ok in H as (z1 & Hstep & H). apply bind_Ok in H as (a & _ & H).
  apply bind_Ok in H as (b & _ & H).
  destruct (calc_zeta_complex _ _ _ _ Hstep) as (w & ->).
  destruct b.
  - injection H as <- _. eauto.
  - destruct range as [|j range'].
    + cbn [calc_zeta_n_loop] in H. injection H as <- _. eauto.
    + apply (IH _ _ _ ltac:(discriminate) H).
Qed.

End EvaluatorFacts.

(** ** The conversion of an int to a float *)

From Stdlib Require Uint63.

(** The conversion of a non-negative int below [2^63] is the one of the
    processor, so its result is a number of the format. *)
Lemma binary_normalize_valid (k : Z) :
  0 <= k < 2 ^ 63 -> valid prec emax (binary_normalize prec emax k 0 false).
Proof.
  intros Hk.
  assert (H : Uint63Axioms.to_Z (Uint63.of_Z k) = k).
  { rewrite Uint63.of_Z_spec. apply Z.mod_small. exact Hk. }
  rewrite <- H, <- of_uint63_spec. apply Prim2SF_valid64.
Qed.

Lemma binary_normalize_opp (p : positive) :
  binary_normalize prec emax (Zneg p) 0 false =
  match binary_normalize prec emax (Zpos p) 0 false with
  | S754_zero _ => S754_zero true
  | S754_infinity _ => S754_infinity true
  | S754_nan => S754_nan
  | S754_finite _ m e => S754_finite true m e
  end.
Proof.
  cbn [binary_normalize]. unfold binary_round.
  destruct (shl_align p 0 _) as [mz ez].
  rewrite (binary_round_aux_sign prec emax true).
  rewrite (binary_round_aux_sign prec emax false).
  destruct (binary_round_aux prec emax false (Zpos mz) ez loc_Exact); reflexivity.
Qed.

(** A negative int above [-2^53] converts to a negative float. *)
Lemma PyLong_AsDouble_negative (d : Z) :
  - 2 ^ 53 < d < 0 ->
  exists y m e, Float64.PyLong_AsDouble d = Ok y /\ Prim2SF y = S754_finite true m e.
Proof.
  intros Hd. destruct d as [|p|p]; try lia.
  pose proof (binary_normalize_is prec emax prec_pos64 prec_lt_emax64
                (Zneg p) 0 (Zneg p)) as [Hnum Hval].
  { change prec with 53. lia. }
  { unfold dyadic, bpow. simpl. ring. }
  pose proof (binary_normalize_valid (Zpos p)) as Hvalid.
  unfold Float64.PyLong_AsDouble. rewrite binary_normalize_opp in *.
  destruct (binary_normalize prec emax (Zpos p) 0 false) as [s|s| |s m e];
    try contradiction.
  - exfalso. simpl in Hval. vm_compute in Hval. discriminate Hval.
  - exists (SF2Prim (S754_finite true m e)), m, e. split; [reflexivity|].
    apply Prim2SF_SF2Prim. apply Hvalid. lia.
Qed.

Lemma SFeqb_finite_refl (s : bool) (m : positive) (e : Z) :
  SFeqb (S754_finite s m e) (S754_finite s m e) = true.
Proof.
  unfold SFeqb, SFcompare. rewrite Z.compare_refl, Pos.compare_cont_refl.
  destruct s; reflexivity.
Qed.

Section NegativePower.

Context {M : Libm}.

(** [0.0 ** y] for a negative number [y]. *)
Lemma float_pow_zero_negative (y : float) (m : positive) (e : Z) :
  Prim2SF y = S754_finite true m e -> float_pow 0 y = Raise ZeroDivisionError.
Proof.
  intros Hy. unfold float_pow.
  assert (H0 : (y =? 0)%float = false).
  { rewrite FloatAxioms.eqb_spec, Hy. reflexivity. }
  assert (Hnan : is_nan y = false).
  { unfold is_nan. rewrite FloatAxioms.eqb_spec, Hy, SFeqb_finite_refl. reflexivity. }
  assert (Hinf : is_infinity y = false).
  { unfold is_infinity. rewrite FloatAxioms.eqb_spec, abs_spec, Hy. reflexivity. }
  assert (Hlt : (y <? 0)%float = true).
  { rewrite ltb_spec, Hy. reflexivity. }
  rewrite H0, Hnan, Hinf.
  change (is_nan 0) with false. change (is_infinity 0) with false.
  change (0 =? 0)%float with true. cbv iota. rewrite Hlt. reflexivity.
Qed.

Lemma calc_zeta_negative_power (c : complex) (d : Z) :
  - 2 ^ 53 < d < 0 -> calc_zeta (PyInt 0) c d = Raise ZeroDivisionError.
Proof.
  intros Hd. destruct (PyLong_AsDouble_negative d Hd) as (y & m & e & Hy & Hsf).
  unfold calc_zeta, py_pow_int.
  destruct (Z.leb_spec 0 d) as [Hpos|_]; [lia|].
  change (Float64.PyLong_AsDouble 0) with (Ok 0%float).
  rewrite Hy. cbn [bind]. rewrite (float_pow_zero_negative y m e Hsf). reflexivity.
Qed.

End NegativePower.

(** An int of magnitude below [2^53] converts to the float of the same
    value. *)
Lemma PyLong_AsDouble_small (v : Z) :
  Z.abs v < 2 ^ 53 ->
  exists y, Float64.PyLong_AsDouble v = Ok y /\ float_is y v.
Proof.
  intros Hv.
  pose proof (binary_normalize_is prec emax prec_pos64 prec_lt_emax64 v 0 v) as His.
  assert (Hvalid : valid prec emax (binary_normalize prec emax v 0 false)).
  { destruct v as [|p|p].
    - reflexivity.
    - apply binary_normalize_valid. lia.
    - rewrite binary_normalize_opp.
      pose proof (binary_normalize_valid (Zpos p) ltac:(lia)) as Hp.
      destruct (binary_normalize prec emax (Zpos p) 0 false); try reflexivity.
      exact Hp. }
  destruct His as [Hnum Hval].
  { change prec with 53. exact Hv. }
  { unfold dyadic, bpow. simpl. ring. }
  unfold Float64.PyLong_AsDouble, float_is.
  destruct (binary_normalize prec emax v 0 false) as [s|s| |s m e] eqn:E;
    try contradiction.
  - exists (SF2Prim (S754_zero s)). split; [reflexivity|].
    rewrite (Prim2SF_SF2Prim _ Hvalid). split; assumption.
  - exists (SF2Prim (S754_finite s m e)). split; [reflexivity|].
    rewrite (Prim2SF_SF2Prim _ Hvalid). split; assumption.
Qed.

Lemma is_num_not_infinity (x : float) :
  is_num (Prim2SF x) -> is_infinity x = false.
Proof.
  intros N. unfold is_infinity. rewrite FloatAxioms.eqb_spec, abs_spec.
  destruct (Prim2SF x) as [s|s| |s m e]; try contradiction; reflexivity.
Qed.

Lemma SF2Q_opp (f : spec_float) : (SF2Q (SFopp f) == - SF2Q f)%Q.
Proof.
  destruct f as [s|s| |s m e]; simpl; try reflexivity.
  destruct s; simpl cond_Zopp.
  - change (Z.neg m) with (- Zpos m). rewrite dyadic_opp. ring.
  - change (Z.neg m) with (- Zpos m). rewrite dyadic_opp. reflexivity.
Qed.

Lemma is_num_opp (f : spec_float) : is_num f -> is_num (SFopp f).
Proof. destruct f; simpl; tauto. Qed.

(** ** The range of the colour channels *)

(** The components of the ramp, whatever the sector. *)
Lemma ramp_components (num colour_val : Z) :
  let l := py_list_repeat num 255 ++ [colour_val mod 255]
           ++ py_list_repeat (2 - num) 1 in
  Forall (fun v => 0 <= v <= 255) l /\ (3 <= length l)%nat.
Proof.
  intros l. unfold l, py_list_repeat. split.
  - apply Forall_app. split; [|apply Forall_cons; [|]].
    + apply Forall_forall. intros v Hv. apply repeat_spec in Hv. lia.
    + pose proof (Z.mod_pos_bound colour_val 255 ltac:(lia)). lia.
    + apply Forall_forall. intros v Hv. apply repeat_spec in Hv. lia.
  - rewrite !length_app, !repeat_length. cbn [length]. lia.
Qed.

Lemma map_angle_to_colour_components (angle : float) (l : list Z) :
  map_angle_to_colour angle = Ok l ->
  Forall (fun v => 0 <= v <= 255) l /\ (3 <= length l)%nat.
Proof.
  unfold map_angle_to_colour. intros H.
  apply bind_Ok in H as (k & _ & H). apply bind_Ok in H as (colour_val & _ & H).
  apply bind_Ok in H as (q & _ & H). apply bind_Ok in H as (num & _ & H).
  injection H as <-. apply ramp_components.
Qed.

(** [float(1)]. *)
Lemma Prim2SF_one : Prim2SF 1 = S754_finite false 4503599627370496 (-52).
Proof. reflexivity. Qed.

Lemma canonical64_one : canonical64 4503599627370496 (-52).
Proof. canonical_closed. Qed.

Lemma dyadic_one : (dyadic 4503599627370496 (-52) == 1)%Q.
Proof. q_closed. Qed.

Section ChannelFacts.

Context {M : Libm}.

(** A brightness in [[0, 1]] scales a channel [v] to a value in [[0, v]]. *)
Lemma scaled_within (x : float) (v : Z) :
  within emax_prec (Prim2SF x) 1 -> 0 <= v < 2 ^ 53 ->
  exists p, scaled (PyFloat x) v = Ok p /\ 0 <= p <= v.
Proof.
  intros Hx Hv. rewrite scaled_float.
  destruct (PyLong_AsDouble_small v) as (y & Hy & Hnum & Hval); [lia|].
  rewrite Hy. cbn [bind].
  apply (trunc_within _ (inject_Z v)); [lia | rewrite <- Zlt_Qlt; lia |].
  destruct (Prim2SF y) as [sy|sy| |sy my ey] eqn:Ey; try contradiction.
  - (* v = 0 *)
    assert (Hz : Prim2SF (x * y) = S754_zero (xorb (match Prim2SF x with
                   | S754_zero s | S754_finite s _ _ => s | _ => false end) sy)).
    { rewrite mul_spec, Ey. unfold SF64mul.
      destruct (Prim2SF x) as [sx|sx| |sx mx ex]; try contradiction; reflexivity. }
    rewrite mul_spec, Hz, Prim2SF_one. exact I.
  - assert (Hpos : sy = false /\ (dyadic (Zpos my) ey == inject_Z v)%Q).
    { rewrite SF2Q_finite in Hval. pose proof (dyadic_pos my ey) as Hp.
      assert (H0 : (0 <= inject_Z v)%Q) by (rewrite <- (Zle_Qle 0); lia).
      destruct sy; [exfalso; lra | split; [reflexivity | lra]]. }
    destruct Hpos as [-> Hdy].
    pose proof (Prim2SF_canonical y _ _ _ Ey) as Cy.
    pose proof dyadic_one as H1.
    apply (within_weaken _ (dyadic (Zpos my) ey)); [lra|].
    apply (mul_within _ 1 (dyadic (Zpos my) ey) _ _ my ey Cy Prim2SF_one);
      [|rewrite H1; lra].
    apply (mul_within x y 1 my ey my ey Cy Ey Hx). lra.
Qed.

(** [-p + 1] for a number [p] between [0] and [1]. *)
Lemma brightness_within (p : float) :
  (0 <=? p)%float = true -> (p <=? 1)%float = true ->
  is_infinity p = false /\ within emax_prec (Prim2SF (- p + 1)) 1.
Proof.
  intros H0 H1.
  destruct (float_between 0 p 1) as (Np & Hlo & Hhi); try assumption; try exact I.
  split; [apply is_num_not_infinity, Np|].
  assert (Hone : (SF2Q (Prim2SF 1) == 1)%Q) by q_closed.
  assert (Hzero : (SF2Q (Prim2SF 0) == 0)%Q) by q_closed.
  pose proof dyadic_one as Hd.
  apply (within_weaken _ (dyadic 4503599627370496 (-52))); [lra|].
  apply add_within.
  - exact canonical64_one.
  - rewrite opp_spec. apply is_num_opp, Np.
  - exact I.
  - rewrite opp_spec, SF2Q_opp. lra.
  - rewrite opp_spec, SF2Q_opp. lra.
Qed.

(** The channels of a colour lie between [0] and those of the ramp. *)
Lemma get_pixel_colour_within (zeta : pynum) (iteration : Z)
    (angle : float) (r g b : Z) :
  np_angle_deg zeta = Ok angle ->
  map_angle_to_colour angle = Ok [r; g; b] ->
  1 <= iteration <= 200 ->
  (0 <=? pow 2 (brightness_exponent iteration))%float = true ->
  (pow 2 (brightness_exponent iteration) <=? 1)%float = true ->
  exists r' g' b',
    get_pixel_colour zeta iteration = Ok (r', g', b') /\
    0 <= r' <= r /\ 0 <= g' <= g /\ 0 <= b' <= b /\
    r <= 255 /\ g <= 255 /\ b <= 255.
Proof.
  intros Hangle Hrgb Hit Hp0 Hp1.
  destruct (map_angle_to_colour_components angle _ Hrgb) as [Hall _].
  inversion Hall as [|? ? Hr Hall1]; subst.
  inversion Hall1 as [|? ? Hg Hall2]; subst.
  inversion Hall2 as [|? ? Hb _]; subst.
  unfold get_pixel_colour. rewrite Hangle. cbn [bind].
  destruct (Z.eqb_spec iteration CONST_N) as [->|Hne]; cbn [bind].
  - rewrite Hrgb. cbn [bind]. rewrite !scaled_int_zero. cbn [bind].
    exists 0, 0, 0. repeat split; lia.
  - rewrite (diverging_brightness_value iteration Hit). cbv zeta.
    destruct (brightness_within _ Hp0 Hp1) as [Hinf Hx].
    rewrite Hinf. cbn [py_neg py_add to_float bind].
    rewrite Hrgb. cbn [bind].
    destruct (scaled_within _ r Hx) as (r' & -> & Hr'); [lia|].
    destruct (scaled_within _ g Hx) as (g' & -> & Hg'); [lia|].
    destruct (scaled_within _ b Hx) as (b' & -> & Hb'); [lia|].
    cbn [bind]. exists r', g', b'. repeat split; lia.
Qed.

(** The count of a run under a bound [n >= 1] lies in [1..n]. *)
Lemma calc_zeta_n_count_range (c : complex) (d n : Z) (divergence_limit zeta : pynum)
    (k : Z) :
  calc_zeta_n c d n divergence_limit = Ok (zeta, k) -> 1 <= n -> 1 <= k <= n.
Proof.
  intros Hrun Hn. unfold calc_zeta_n in Hrun.
  replace (n + 1) with (1 + Z.of_nat (Z.to_nat n)) in Hrun by lia.
  apply bind_Ok in Hrun as ([z r] & Hloop & Hret).
  destruct r as [i|]; injection Hret as <- <-; [|lia].
  destruct (loop_inv c d divergence_limit (Z.to_nat n) 1 (PyInt 0) z (Some i))
    as (_ & _ & Hi & _); try lia; try reflexivity; try assumption.
Qed.

End ChannelFacts.

(** ** Floats up to the sign of zero, and the opposite *)

(** The same number: the same float, or two zeros. *)
Definition same_number (f g : spec_float) : Prop :=
  match f, g with
  | S754_zero _, S754_zero _ => True
  | _, _ => f = g
  end.

Lemma same_number_refl (f : spec_float) : same_number f f.
Proof. destruct f; simpl; auto. Qed.



Lemma same_number_cases (f g : spec_float) :
  same_number f g -> f = g \/ exists s s', f = S754_zero s /\ g = S754_zero s'.
Proof.
  destruct f, g; simpl; intros H; try (left; exact H); right; eauto.
Qed.

Lemma same_number_trans (f g h : spec_float) :
  same_number f g -> same_number g h -> same_number f h.
Proof.
  intros H1 H2.
  destruct (same_number_cases _ _ H1) as [->|(s & s' & -> & ->)]; [exact H2|].
  destruct (same_number_cases _ _ H2) as [<-|(t & t' & _ & ->)]; exact I.
Qed.

Lemma SFopp_involutive (f : spec_float) : SFopp (SFopp f) = f.
Proof. destruct f as [s|s| |s m e]; simpl; try reflexivity; destruct s; reflexivity. Qed.

Lemma SFopp_same (f g : spec_float) :
  same_number f g -> same_number (SFopp f) (SFopp g).
Proof.
  intros H. destruct (same_number_cases _ _ H) as [->|(s & s' & -> & ->)].
  - apply same_number_refl.
  - exact I.
Qed.

Lemma SFabs_same (f g : spec_float) : same_number f g -> SFabs f = SFabs g.
Proof.
  intros H. destruct (same_number_cases _ _ H) as [->|(s & s' & -> & ->)]; reflexivity.
Qed.

Lemma SFabs_opp (f : spec_float) : SFabs (SFopp f) = SFabs f.
Proof. destruct f; reflexivity. Qed.

Lemma SFopp_binary_round_aux (s : bool) (m e : Z) (l : location) :
  SFopp (binary_round_aux prec emax s m e l) = binary_round_aux prec emax (negb s) m e l.
Proof.
  rewrite (binary_round_aux_sign prec emax s), (binary_round_aux_sign prec emax (negb s)).
  destruct (binary_round_aux prec emax false m e l); reflexivity.
Qed.

Lemma SFmul_opp_l (x y : spec_float) :
  SFmul prec emax (SFopp x) y = SFopp (SFmul prec emax x y).
Proof.
  destruct x as [sx|sx| |sx mx ex], y as [sy|sy| |sy my ey]; cbn [SFmul SFopp];
    try reflexivity; try (destruct sx, sy; reflexivity).
  rewrite SFopp_binary_round_aux. destruct sx, sy; reflexivity.
Qed.

Lemma SFmul_opp_r (x y : spec_float) :
  SFmul prec emax x (SFopp y) = SFopp (SFmul prec emax x y).
Proof.
  destruct x as [sx|sx| |sx mx ex], y as [sy|sy| |sy my ey]; cbn [SFmul SFopp];
    try reflexivity; try (destruct sx, sy; reflexivity).
  rewrite SFopp_binary_round_aux. destruct sx, sy; reflexivity.
Qed.

Lemma SFmul_same (x x' y y' : spec_float) :
  same_number x x' -> same_number y y' ->
  same_number (SFmul prec emax x y) (SFmul prec emax x' y').
Proof.
  intros Hx Hy.
  destruct (same_number_cases _ _ Hx) as [->|(s & s' & -> & ->)];
    destruct (same_number_cases _ _ Hy) as [->|(t & t' & -> & ->)].
  - apply same_number_refl.
  - destruct x' as [sx|sx| |sx mx ex]; cbn [SFmul]; exact I || reflexivity.
  - destruct y' as [sy|sy| |sy my ey]; cbn [SFmul]; exact I || reflexivity.
  - exact I.
Qed.

Lemma binary_normalize_opp_same (m e : Z) :
  same_number (binary_normalize prec emax (- m) e false)
              (SFopp (binary_normalize prec emax m e false)).
Proof.
  destruct m as [|p|p]; cbn [Z.opp binary_normalize].
  - exact I.
  - unfold binary_round. destruct (shl_align p e _) as [mz ez].
    rewrite SFopp_binary_round_aux. apply same_number_refl.
  - unfold binary_round. destruct (shl_align p e _) as [mz ez].
    rewrite SFopp_binary_round_aux. apply same_number_refl.
Qed.

Lemma cond_Zopp_negb (s : bool) (m : Z) : cond_Zopp (negb s) m = - cond_Zopp s m.
Proof. destruct s; simpl; lia. Qed.

Lemma SFadd_opp (x y : spec_float) :
  same_number (SFadd prec emax (SFopp x) (SFopp y)) (SFopp (SFadd prec emax x y)).
Proof.
  destruct x as [sx|sx| |sx mx ex], y as [sy|sy| |sy my ey]; cbn [SFadd SFopp];
    try exact I; try reflexivity; try (destruct sx, sy; exact I || reflexivity).
  rewrite !cond_Zopp_negb.
  rewrite <- Z.opp_add_distr. apply binary_normalize_opp_same.
Qed.

Lemma SFadd_same (x x' y y' : spec_float) :
  same_number x x' -> same_number y y' ->
  same_number (SFadd prec emax x y) (SFadd prec emax x' y').
Proof.
  intros Hx Hy.
  destruct (same_number_cases _ _ Hx) as [->|(s & s' & -> & ->)];
    destruct (same_number_cases _ _ Hy) as [->|(t & t' & -> & ->)].
  - apply same_number_refl.
  - destruct x' as [sx|sx| |sx mx ex]; cbn [SFadd];
      try (destruct sx, t, t'; exact I || reflexivity); apply same_number_refl.
  - destruct y' as [sy|sy| |sy my ey]; cbn [SFadd];
      try (destruct sy, s, s'; exact I || reflexivity); apply same_number_refl.
  - destruct s, s', t, t'; exact I.
Qed.

Lemma SFsub_same (x x' y y' : spec_float) :
  same_number x x' -> same_number y y' ->
  same_number (SFsub prec emax x y) (SFsub prec emax x' y').
Proof.
  intros Hx Hy.
  destruct (same_number_cases _ _ Hx) as [->|(s & s' & -> & ->)];
    destruct (same_number_cases _ _ Hy) as [->|(t & t' & -> & ->)].
  - apply same_number_refl.
  - destruct x' as [sx|sx| |sx mx ex]; cbn [SFsub];
      try (destruct sx, t, t'; exact I || reflexivity); apply same_number_refl.
  - destruct y' as [sy|sy| |sy my ey]; cbn [SFsub];
      try (destruct sy, s, s'; exact I || reflexivity); apply same_number_refl.
  - destruct s, s', t, t'; exact I.
Qed.

Lemma SFeqb_self_same (f g : spec_float) :
  same_number f g -> SFeqb f f = SFeqb g g.
Proof.
  intros H. destruct (same_number_cases _ _ H) as [->|(s & s' & -> & ->)]; reflexivity.
Qed.

Lemma SFeqb_self_opp (f : spec_float) : SFeqb (SFopp f) (SFopp f) = SFeqb f f.
Proof.
  destruct f as [s|s| |s m e]; cbn [SFopp]; try reflexivity.
  - destruct s; reflexivity.
  - rewrite !SFeqb_finite_refl. reflexivity.
Qed.

(** [x] and [y] are the same number. *)
Definition feq (x y : float) : Prop := same_number (Prim2SF x) (Prim2SF y).

Lemma feq_refl (x : float) : feq x x.
Proof. apply same_number_refl. Qed.


Lemma feq_trans (x y z : float) : feq x y -> feq y z -> feq x z.
Proof. apply same_number_trans. Qed.

Lemma opp_involutive (x : float) : (- - x)%float = x.
Proof. apply Prim2SF_inj. rewrite !opp_spec. apply SFopp_involutive. Qed.

Lemma mul_opp_l (x y : float) : (- x * y)%float = (- (x * y))%float.
Proof. apply Prim2SF_inj. rewrite opp_spec, !mul_spec, opp_spec. apply SFmul_opp_l. Qed.

Lemma mul_opp_r (x y : float) : (x * - y)%float = (- (x * y))%float.
Proof. apply Prim2SF_inj. rewrite opp_spec, !mul_spec, opp_spec. apply SFmul_opp_r. Qed.

Lemma opp_feq (x x' : float) : feq x x' -> feq (- x) (- x').
Proof. unfold feq. rewrite !opp_spec. apply SFopp_same. Qed.

Lemma mul_feq (x x' y y' : float) : feq x x' -> feq y y' -> feq (x * y) (x' * y').
Proof. unfold feq. rewrite !mul_spec. apply SFmul_same. Qed.

Lemma add_feq (x x' y y' : float) : feq x x' -> feq y y' -> feq (x + y) (x' + y').
Proof. unfold feq. rewrite !add_spec. apply SFadd_same. Qed.

Lemma sub_feq (x x' y y' : float) : feq x x' -> feq y y' -> feq (x - y) (x' - y').
Proof. unfold feq. rewrite !sub_spec. apply SFsub_same. Qed.

Lemma add_opp_feq (x y : float) : feq (- x + - y) (- (x + y)).
Proof. unfold feq. rewrite opp_spec, !add_spec, !opp_spec. apply SFadd_opp. Qed.

Lemma abs_feq (x x' : float) : feq x x' -> abs x = abs x'.
Proof. intros H. apply Prim2SF_inj. rewrite !abs_spec. apply SFabs_same, H. Qed.

Lemma abs_opp (x : float) : abs (- x) = abs x.
Proof. apply Prim2SF_inj. rewrite !abs_spec, opp_spec. apply SFabs_opp. Qed.

Lemma is_nan_feq (x x' : float) : feq x x' -> is_nan x = is_nan x'.
Proof.
  intros H. unfold is_nan. rewrite !FloatAxioms.eqb_spec.
  rewrite (SFeqb_self_same _ _ H). reflexivity.
Qed.

Lemma is_nan_opp (x : float) : is_nan (- x) = is_nan x.
Proof.
  unfold is_nan. rewrite !FloatAxioms.eqb_spec, opp_spec, SFeqb_self_opp. reflexivity.
Qed.

(** ** Mirror images *)

Definition conjugate (z : complex) : complex := mkC (real z) (- imag z).

(** [z'] is [z] mirrored in the real axis, up to the signs of zeros. *)
Definition mirror (z z' : complex) : Prop :=
  feq (real z') (real z) /\ feq (imag z') (- imag z).

Definition mirror_num (v v' : pynum) : Prop :=
  match v, v' with
  | PyInt n, PyInt n' => n = n'
  | PyComplex z, PyComplex z' => mirror z z'
  | _, _ => False
  end.

(** Two outcomes that are the same exception or two related values. *)
Definition both {A : Type} (R : A -> A -> Prop) (r r' : result A) : Prop :=
  match r, r' with
  | Ok a, Ok a' => R a a'
  | Raise e, Raise e' => e = e'
  | _, _ => False
  end.

Lemma mirror_conjugate (z : complex) : mirror z (conjugate z).
Proof. split; apply feq_refl. Qed.

Section MirrorFacts.

Context {M : Libm}.

Lemma _Py_c_prod_mirror (z z' w w' : complex) :
  mirror z z' -> mirror w w' -> mirror (_Py_c_prod z w) (_Py_c_prod z' w').
Proof.
  intros [Hzr Hzi] [Hwr Hwi]. unfold _Py_c_prod, mirror. cbn [real imag]. split.
  - apply sub_feq; [apply mul_feq; assumption|].
    apply (feq_trans _ (- imag z * - imag w)); [apply mul_feq; assumption|].
    rewrite mul_opp_l, mul_opp_r, opp_involutive. apply feq_refl.
  - apply (feq_trans _ (- (real z * imag w) + - (imag z * real w))).
    + apply add_feq.
      * apply (feq_trans _ (real z * - imag w)); [apply mul_feq; assumption|].
        rewrite mul_opp_r. apply feq_refl.
      * apply (feq_trans _ (- imag z * real w)); [apply mul_feq; assumption|].
        rewrite mul_opp_l. apply feq_refl.
    + apply add_opp_feq.
Qed.

Lemma _Py_c_sum_mirror (z z' w w' : complex) :
  mirror z z' -> mirror w w' -> mirror (_Py_c_sum z w) (_Py_c_sum z' w').
Proof.
  intros [Hzr Hzi] [Hwr Hwi]. unfold _Py_c_sum, mirror. cbn [real imag]. split.
  - apply add_feq; assumption.
  - apply (feq_trans _ (- imag z + - imag w)); [apply add_feq; assumption|].
    apply add_opp_feq.
Qed.

Lemma c_powu_bits_mirror (n : positive) :
  forall r r' p p' : complex,
    mirror r r' -> mirror p p' ->
    mirror (c_powu_bits n r p) (c_powu_bits n r' p').
Proof.
  induction n as [n IH|n IH|]; intros r r' p p' Hr Hp; cbn [c_powu_bits].
  - apply IH; apply _Py_c_prod_mirror; assumption.
  - apply IH; [assumption | apply _Py_c_prod_mirror; assumption].
  - apply _Py_c_prod_mirror; assumption.
Qed.

Lemma c_1_mirror : mirror c_1 c_1.
Proof. split; [apply feq_refl | exact I]. Qed.

Lemma is_infinity_mirror (x x' : float) :
  feq x' x \/ feq x' (- x) -> is_infinity x' = is_infinity x.
Proof.
  intros [H|H]; unfold is_infinity.
  - rewrite (abs_feq _ _ H). reflexivity.
  - rewrite (abs_feq _ _ H), abs_opp. reflexivity.
Qed.

Lemma is_finite_mirror (x x' : float) :
  feq x' x \/ feq x' (- x) -> is_finite x' = is_finite x.
Proof.
  intros H. unfold is_finite. rewrite (is_infinity_mirror _ _ H).
  destruct H as [H|H].
  - rewrite (is_nan_feq _ _ H). reflexivity.
  - rewrite (is_nan_feq _ _ H), is_nan_opp. reflexivity.
Qed.

Lemma abs_mirror (x x' : float) : feq x' x \/ feq x' (- x) -> abs x' = abs x.
Proof.
  intros [H|H].
  - apply abs_feq, H.
  - rewrite (abs_feq _ _ H). apply abs_opp.
Qed.

Lemma is_huge_mirror (z z' : complex) : mirror z z' -> is_huge z' = is_huge z.
Proof.
  intros [Hr Hi]. unfold is_huge.
  rewrite (is_infinity_mirror (real z) (real z')) by (left; exact Hr).
  rewrite (is_infinity_mirror (imag z) (imag z')) by (right; exact Hi).
  reflexivity.
Qed.

(** One step on mirror images gives mirror images, or the same exception. *)
Lemma calc_zeta_mirror (v v' : pynum) (c c' : complex) (d : Z) :
  mirror_num v v' -> mirror c c' -> 0 <= d <= 100 ->
  both mirror_num (calc_zeta v c d) (calc_zeta v' c' d).
Proof.
  intros Hv Hc Hd. destruct v as [n|x|z], v' as [n'|x'|z']; try contradiction.
  - cbn [mirror_num] in Hv. subst n'. unfold calc_zeta, py_pow_int.
    destruct (Z.leb_spec 0 d) as [_|Hneg]; [|lia]. cbn [bind py_add to_complex to_float].
    destruct (Float64.PyLong_AsDouble (n ^ d)) as [x|e]; cbn [bind both]; [|reflexivity].
    apply _Py_c_sum_mirror; [|exact Hc]. split; [apply feq_refl | exact I].
  - cbn [mirror_num] in Hv. unfold calc_zeta. rewrite !py_pow_int_small by exact Hd.
    assert (Hp : mirror (fst (c_powi z d)) (fst (c_powi z' d))).
    { unfold c_powi. destruct (Z.ltb_spec 0 d) as [Hpos|Hzero].
      - cbn [fst]. destruct d as [|p|p]; try lia. unfold c_powu.
        apply c_powu_bits_mirror; [apply c_1_mirror | exact Hv].
      - assert (d = 0) as -> by lia. apply c_1_mirror. }
    rewrite (is_huge_mirror _ _ Hp).
    destruct (is_huge (fst (c_powi z d))); cbn [bind both]; [reflexivity|].
    cbn [py_add to_complex bind both mirror_num].
    apply _Py_c_sum_mirror; assumption.
Qed.

Hypothesis hypot_even : forall x y, hypot x y = hypot (abs x) (abs y).

Lemma complex_abs_mirror (z z' : complex) :
  mirror z z' -> complex_abs z' = complex_abs z.
Proof.
  intros [Hr Hi]. unfold complex_abs.
  rewrite (is_finite_mirror (real z) (real z')) by (left; exact Hr).
  rewrite (is_finite_mirror (imag z) (imag z')) by (right; exact Hi).
  rewrite (is_infinity_mirror (real z) (real z')) by (left; exact Hr).
  rewrite (is_infinity_mirror (imag z) (imag z')) by (right; exact Hi).
  rewrite (abs_mirror (real z) (real z')) by (left; exact Hr).
  rewrite (abs_mirror (imag z) (imag z')) by (right; exact Hi).
  rewrite (hypot_even (real z') (imag z')), (hypot_even (real z) (imag z)).
  rewrite (abs_mirror (real z) (real z')) by (left; exact Hr).
  rewrite (abs_mirror (imag z) (imag z')) by (right; exact Hi).
  reflexivity.
Qed.

Lemma diverged_mirror (divergence_limit v v' : pynum) :
  mirror_num v v' -> diverged divergence_limit v' = diverged divergence_limit v.
Proof.
  intros Hv. destruct v as [n|x|z], v' as [n'|x'|z']; try contradiction.
  - cbn [mirror_num] in Hv. subst. reflexivity.
  - unfold diverged. cbn [py_abs]. rewrite (complex_abs_mirror _ _ Hv). reflexivity.
Qed.

Lemma calc_zeta_n_loop_mirror (c c' : complex) (d : Z) (divergence_limit : pynum)
    (range : list Z) :
  mirror c c' -> 0 <= d <= 100 ->
  forall v v', mirror_num v v' ->
    both (fun r r' => mirror_num (fst r) (fst r') /\ snd r = snd r')
         (calc_zeta_n_loop c d divergence_limit range v)
         (calc_zeta_n_loop c' d divergence_limit range v').
Proof.
  intros Hc Hd. induction range as [|i range IH]; intros v v' Hv; cbn [calc_zeta_n_loop].
  - cbn [both fst snd]. split; [exact Hv | reflexivity].
  - pose proof (calc_zeta_mirror v v' c c' d Hv Hc Hd) as Hstep.
    destruct (calc_zeta v c d) as [z|e], (calc_zeta v' c' d) as [z'|e'];
      cbn [both] in Hstep; try contradiction; cbn [bind]; [|exact Hstep].
    pose proof (diverged_mirror divergence_limit z z' Hstep) as Hdiv.
    unfold diverged in Hdiv.
    destruct (py_abs z') as [a'|e']; cbn [bind] in *.
    + destruct (py_abs z) as [a|e]; cbn [bind] in *.
      * rewrite Hdiv. destruct (py_gt a divergence_limit) as [[|]|e]; cbn [bind both].
        -- cbn [fst snd]. split; [exact Hstep | reflexivity].
        -- apply IH, Hstep.
        -- reflexivity.
      * discriminate Hdiv || (rewrite Hdiv; reflexivity).
    + destruct (py_abs z) as [a|e]; cbn [bind] in *.
      * rewrite <- Hdiv. reflexivity.
      * injection Hdiv as ->. reflexivity.
Qed.

End MirrorFacts.

(** The textbook [hypot] of the sample library depends on the magnitudes
    of its arguments only. *)
Lemma mul_abs_self (x : float) : (abs x * abs x)%float = (x * x)%float.
Proof.
  apply Prim2SF_inj. rewrite !mul_spec, abs_spec.
  destruct (Prim2SF x) as [s|s| |s m e]; cbn [SFabs]; try reflexivity;
    destruct s; reflexivity.
Qed.

Lemma sample_hypot_even (x y : float) :
  hypot (Libm := SampleLibm.libm) x y = hypot (Libm := SampleLibm.libm) (abs x) (abs y).
Proof. cbn [hypot SampleLibm.libm]. rewrite !mul_abs_self. reflexivity. Qed.

(** ** The loops of the driver *)

Section MainFacts.

Context {M : Libm}.

(** The pixel of a [putpixel] call is the one of [coord_to_pixel]. *)
Lemma main_body_pixel (coord : float * float) (call : (Z * Z) * (Z * Z * Z)) :
  main_body coord = Ok call -> coord_to_pixel coord = Ok (fst call).
Proof.
  unfold main_body. intros H.
  apply bind_Ok in H as ([zeta k] & _ & H).
  apply bind_Ok in H as (colour & _ & H).
  apply bind_Ok in H as (pixel & Hp & H).
  injection H as <-. exact Hp.
Qed.

Lemma inner_loop_calls (x : float) (ys : list float) :
  forall calls0 calls : list ((Z * Z) * (Z * Z * Z)),
    for_each (fun y calls => call <- main_body (x, y) ;; Ok (calls ++ [call]))
             ys calls0 = Ok calls ->
    exists new, calls = calls0 ++ new /\
                Forall2 (fun coord call => main_body coord = Ok call)
                        (map (fun y => (x, y)) ys) new.
Proof.
  induction ys as [|y ys IH]; intros calls0 calls H; cbn [for_each] in H.
  - injection H as <-. exists []. rewrite app_nil_r. split; [reflexivity|constructor].
  - apply bind_Ok in H as (calls1 & H1 & H).
    apply bind_Ok in H1 as (call & Hcall & H1). injection H1 as <-.
    destruct (IH _ _ H) as (new & -> & Hnew).
    exists (call :: new). rewrite <- app_assoc. split; [reflexivity|].
    cbn [map]. constructor; assumption.
Qed.

Lemma outer_loop_calls (ys : list float) (xs : list float) :
  forall calls0 calls : list ((Z * Z) * (Z * Z * Z)),
    for_each (fun x calls =>
      for_each (fun y calls => call <- main_body (x, y) ;; Ok (calls ++ [call]))
               ys calls) xs calls0 = Ok calls ->
    exists new, calls = calls0 ++ new /\
                Forall2 (fun coord call => main_body coord = Ok call)
                        (list_prod xs ys) new.
Proof.
  induction xs as [|x xs IH]; intros calls0 calls H; cbn [for_each] in H.
  - injection H as <-. exists []. rewrite app_nil_r. split; [reflexivity|constructor].
  - apply bind_Ok in H as (calls1 & H1 & H).
    destruct (inner_loop_calls x ys _ _ H1) as (new1 & -> & Hnew1).
    destruct (IH _ _ H) as (new & -> & Hnew).
    exists (new1 ++ new). rewrite <- app_assoc. split; [reflexivity|].
    cbn [list_prod]. apply Forall2_app; assumption.
Qed.

(** The calls of [main_loop], one per point of the grid, in the order of
    the grid. *)
Lemma main_loop_calls (xs ys : list float) (calls : list ((Z * Z) * (Z * Z * Z))) :
  main_loop xs ys = Ok calls ->
  Forall2 (fun coord call => main_body coord = Ok call) (list_prod xs ys) calls.
Proof.
  intros H. destruct (outer_loop_calls ys xs [] calls H) as (new & -> & Hnew).
  exact Hnew.
Qed.

End MainFacts.

(** The two axes of [coord_to_pixel]. *)
Definition pixel_x (x : float) : result Z :=
  Float64.trunc (abs ((x - -2) / 0x1.0624dd2f1a9fcp-9)).

Definition pixel_y (y : float) : result Z :=
  Float64.trunc (abs ((y - -1) / 0x1.0624dd2f1a9fcp-9)).

Lemma coord_to_pixel_axes (x y : float) :
  coord_to_pixel (x, y) = px <- pixel_x x ;; py <- pixel_y y ;; Ok (px, py).
Proof.
  unfold coord_to_pixel.
  rewrite CONST_WIDTH_SPACING_value, CONST_HEIGHT_SPACING_value. reflexivity.
Qed.

(** The grid of [main], checked point by point: the number of points, the
    region they lie in, and the pixel index of each. *)
Definition axis_ok (points : result (list float)) (lo hi : float)
    (pixel : float -> result Z) (num : Z) : bool :=
  match points with
  | Ok l =>
      (Z.of_nat (length l) =? num) &&
      forallb (fun i =>
                 let v := nth (Z.to_nat i) l 0%float in
                 (lo <=? v)%float && (v <=? hi)%float &&
                 match pixel v with
                 | Ok p => p =? (if i <? num - 1 then i else num)
                 | Raise _ => false
                 end)
              (py_range 0 num)
  | Raise _ => false
  end.

Lemma axis_ok_spec (points : result (list float)) (lo hi : float)
    (pixel : float -> result Z) (num : Z) :
  axis_ok points lo hi pixel num = true ->
  exists l, points = Ok l /\ Z.of_nat (length l) = num /\
    forall i, 0 <= i < num ->
      let v := nth (Z.to_nat i) l 0%float in
      (lo <=? v)%float = true /\ (v <=? hi)%float = true /\
      pixel v = Ok (if i <? num - 1 then i else num).
Proof.
  unfold axis_ok. destruct points as [l|]; [|discriminate].
  intros H. apply andb_prop in H as [Hlen Hall]. apply Z.eqb_eq in Hlen.
  exists l. split; [reflexivity|]. split; [exact Hlen|].
  intros i Hi. cbv zeta.
  pose proof (forall_range _ 0 num Hall i Hi) as Hv. cbv beta zeta in Hv.
  set (v := nth (Z.to_nat i) l 0%float) in *.
  apply andb_prop in Hv as [Hv Hp]. apply andb_prop in Hv as [Hlo Hhi].
  repeat split; try assumption.
  destruct (pixel v) as [p|]; [|discriminate].
  apply Z.eqb_eq in Hp. subst p. reflexivity.
Qed.

Lemma x_points_ok : axis_ok x_points (-2) 1 pixel_x 1500 = true.
Proof. vm_compute. reflexivity. Qed.

Lemma y_points_ok : axis_ok y_points (-1) 1 pixel_y 1000 = true.
Proof. vm_compute. reflexivity. Qed.

Lemma In_nth_Z (l : list float) (v : float) :
  In v l -> exists i, 0 <= i < Z.of_nat (length l) /\ nth (Z.to_nat i) l 0%float = v.
Proof.
  intros H. destruct (In_nth l v 0%float H) as (n & Hn & Hv).
  exists (Z.of_nat n). rewrite Nat2Z.id. split; [lia | exact Hv].
Qed.

(** ** Numbers of bounded magnitude *)

(** [x] is a number of magnitude at most [b]. *)
Definition bounded (x : float) (b : Q) : Prop :=
  is_num (Prim2SF x) /\ (- b <= SF2Q (Prim2SF x))%Q /\ (SF2Q (Prim2SF x) <= b)%Q.

Lemma bounded_within_abs (x : float) (b : Q) :
  bounded x b -> within emax_prec (Prim2SF (abs x)) b.
Proof.
  unfold bounded. rewrite abs_spec. intros (N & Hlo & Hhi).
  pose proof (Prim2SF_valid64 x) as V.
  destruct (Prim2SF x) as [s|s| |s m e]; try contradiction; [exact I|].
  apply valid_finite in V as [_ He]. rewrite SF2Q_finite in Hlo, Hhi.
  pose proof (dyadic_pos m e). cbn [SFabs within].
  split; [exact He|]. destruct s; lra.
Qed.

Lemma within_abs_bounded (x : float) (b : Q) :
  (0 <= b)%Q -> within emax_prec (Prim2SF (abs x)) b -> bounded x b.
Proof.
  unfold bounded. rewrite abs_spec. intros Hb H.
  destruct (Prim2SF x) as [s|s| |s m e]; try contradiction.
  - simpl. split; [exact I|]. lra.
  - cbn [SFabs within] in H. destruct H as [_ H]. split; [exact I|].
    rewrite SF2Q_finite. pose proof (dyadic_pos m e). destruct s; lra.
Qed.

Lemma within_bounded (x : float) (b : Q) :
  (0 <= b)%Q -> within emax_prec (Prim2SF x) b -> bounded x b.
Proof.
  intros Hb H. destruct (within_value _ _ Hb H) as [H0 H1].
  split; [|lra]. destruct (Prim2SF x) as [s|s| |[] m e]; try contradiction; exact I.
Qed.

Lemma bounded_opp (x : float) (b : Q) : bounded (- x) b -> bounded x b.
Proof.
  unfold bounded. rewrite opp_spec. intros (N & Hlo & Hhi).
  rewrite SF2Q_opp in Hlo, Hhi. split; [|lra].
  destruct (Prim2SF x); simpl in *; tauto.
Qed.

Lemma bounded_opp_r (x : float) (b : Q) : bounded x b -> bounded (- x) b.
Proof. intros H. apply bounded_opp. rewrite opp_involutive. exact H. Qed.

Lemma bounded_weaken (x : float) (b b' : Q) :
  (b <= b')%Q -> bounded x b -> bounded x b'.
Proof. intros Hb (N & Hlo & Hhi). split; [exact N|]. lra. Qed.

Lemma bounded_between (x lo hi : float) (b : Q) :
  is_num (Prim2SF lo) -> is_num (Prim2SF hi) ->
  (- b <= SF2Q (Prim2SF lo))%Q -> (SF2Q (Prim2SF hi) <= b)%Q ->
  (lo <=? x)%float = true -> (x <=? hi)%float = true -> bounded x b.
Proof.
  intros Nlo Nhi Hlo Hhi H1 H2.
  destruct (float_between lo x hi Nlo Nhi H1 H2) as (N & Ha & Hb).
  split; [exact N|]. lra.
Qed.

Lemma bounded_leb (x hi : float) (b : Q) :
  is_num (Prim2SF hi) -> (b <= SF2Q (Prim2SF hi))%Q ->
  bounded x b -> (x <=? hi)%float = true /\ (- hi <=? x)%float = true.
Proof.
  intros Nhi Hhi (N & Ha & Hb). rewrite !leb_spec, opp_spec. split.
  - apply (SFleb_value prec emax prec_pos64); auto using Prim2SF_valid64. lra.
  - apply (SFleb_value prec emax prec_pos64); auto using Prim2SF_valid64.
    + rewrite <- opp_spec. apply Prim2SF_valid64.
    + apply is_num_opp, Nhi.
    + rewrite SF2Q_opp. lra.
Qed.

Lemma within_same (f g : spec_float) (b : Q) :
  same_number f g -> within emax_prec f b -> within emax_prec g b.
Proof.
  intros H. destruct (same_number_cases _ _ H) as [->|(s & s' & -> & ->)]; auto.
Qed.

Lemma SFabs_SFmul (x y : spec_float) :
  SFabs (SFmul prec emax x y) = SFmul prec emax (SFabs x) (SFabs y).
Proof.
  destruct x as [sx|sx| |sx mx ex], y as [sy|sy| |sy my ey]; cbn [SFmul SFabs];
    try reflexivity.
  apply SFabs_binary_round_aux.
Qed.

Lemma abs_mul (x y : float) : abs (x * y) = (abs x * abs y)%float.
Proof. apply Prim2SF_inj. rewrite abs_spec, !mul_spec, !abs_spec. apply SFabs_SFmul. Qed.

Lemma SFsub_add_opp (x y : spec_float) :
  SFsub prec emax x y = SFadd prec emax x (SFopp y).
Proof.
  destruct x as [sx|sx| |sx mx ex], y as [sy|sy| |sy my ey]; cbn [SFsub SFadd SFopp];
    try reflexivity; destruct sx, sy; reflexivity.
Qed.

Lemma sub_add_opp (x y : float) : (x - y)%float = (x + - y)%float.
Proof. apply Prim2SF_inj. rewrite sub_spec, add_spec, opp_spec. apply SFsub_add_opp. Qed.

(** The product of two bounded numbers. *)
Lemma mul_bounded (x y : float) (bx by_ : Q) (mb : positive) (eb : Z) :
  canonical64 mb eb -> (0 <= bx)%Q ->
  bounded x bx -> bounded y by_ ->
  (bx * by_ <= dyadic (Zpos mb) eb)%Q ->
  bounded (x * y) (dyadic (Zpos mb) eb).
Proof.
  intros Hcan Hbx Hx Hy Hle.
  pose proof (dyadic_pos mb eb) as Hpos.
  apply within_abs_bounded; [lra|]. rewrite abs_mul.
  apply bounded_within_abs in Hx, Hy.
  destruct (Prim2SF (abs y)) as [sy|sy| |sy my ey] eqn:Ey; try contradiction.
  - rewrite mul_spec, Ey. unfold SF64mul.
    destruct (Prim2SF (abs x)) as [sx|sx| |sx mx ex]; try contradiction; exact I.
  - destruct sy; [contradiction|]. destruct Hy as [_ Hy].
    apply (mul_within (abs x) (abs y) bx my ey mb eb Hcan Ey Hx).
    pose proof (dyadic_pos my ey). nra.
Qed.

(** The sum of two bounded numbers. *)
Lemma add_bounded (x y : float) (bx by_ : Q) (mb : positive) (eb : Z) :
  canonical64 mb eb ->
  bounded x bx -> bounded y by_ ->
  (bx + by_ <= dyadic (Zpos mb) eb)%Q ->
  bounded (x + y) (dyadic (Zpos mb) eb).
Proof.
  intros Hcan (Nx & Hx1 & Hx2) (Ny & Hy1 & Hy2) Hle.
  pose proof (dyadic_pos mb eb) as Hpos.
  destruct (Qlt_le_dec (SF2Q (Prim2SF x) + SF2Q (Prim2SF y)) 0) as [Hneg|Hnn].
  - apply bounded_opp. apply within_bounded; [lra|].
    apply (within_same (Prim2SF (- x + - y))); [apply add_opp_feq|].
    apply add_within; try assumption.
    + rewrite opp_spec. apply is_num_opp, Nx.
    + rewrite opp_spec. apply is_num_opp, Ny.
    + rewrite !opp_spec, !SF2Q_opp. lra.
    + rewrite !opp_spec, !SF2Q_opp. lra.
  - apply within_bounded; [lra|]. apply add_within; try assumption. lra.
Qed.

Lemma sub_bounded (x y : float) (bx by_ : Q) (mb : positive) (eb : Z) :
  canonical64 mb eb ->
  bounded x bx -> bounded y by_ ->
  (bx + by_ <= dyadic (Zpos mb) eb)%Q ->
  bounded (x - y) (dyadic (Zpos mb) eb).
Proof.
  intros Hcan Hx Hy Hle. rewrite sub_add_opp.
  apply (add_bounded x (- y) bx by_); try assumption. apply bounded_opp_r, Hy.
Qed.

(** Complex numbers whose parts are bounded. *)
Definition cbounded (z : complex) (b : Q) : Prop :=
  bounded (real z) b /\ bounded (imag z) b.

Section BoundedFacts.

Context {M : Libm}.

Lemma _Py_c_prod_bounded (z w : complex) (a c : Q)
    (mp : positive) (ep : Z) (ms : positive) (es : Z) :
  canonical64 mp ep -> canonical64 ms es -> (0 <= a)%Q ->
  cbounded z a -> cbounded w c ->
  (a * c <= dyadic (Zpos mp) ep)%Q ->
  (dyadic (Zpos mp) ep + dyadic (Zpos mp) ep <= dyadic (Zpos ms) es)%Q ->
  cbounded (_Py_c_prod z w) (dyadic (Zpos ms) es).
Proof.
  intros Cp Cs Ha [Hzr Hzi] [Hwr Hwi] Hp Hs. unfold _Py_c_prod, cbounded.
  cbn [real imag]. split.
  - apply (sub_bounded _ _ (dyadic (Zpos mp) ep) (dyadic (Zpos mp) ep)); try assumption;
      apply (mul_bounded _ _ a c); assumption.
  - apply (add_bounded _ _ (dyadic (Zpos mp) ep) (dyadic (Zpos mp) ep)); try assumption;
      apply (mul_bounded _ _ a c); assumption.
Qed.

Lemma _Py_c_sum_bounded (z w : complex) (a c : Q) (ms : positive) (es : Z) :
  canonical64 ms es -> cbounded z a -> cbounded w c ->
  (a + c <= dyadic (Zpos ms) es)%Q ->
  cbounded (_Py_c_sum z w) (dyadic (Zpos ms) es).
Proof.
  intros Cs [Hzr Hzi] [Hwr Hwi] Hs. unfold _Py_c_sum, cbounded. cbn [real imag].
  split; apply (add_bounded _ _ a c); assumption.
Qed.

Lemma cbounded_not_huge (z : complex) (b : Q) : cbounded z b -> is_huge z = false.
Proof.
  intros [[Nr _] [Ni _]]. unfold is_huge.
  rewrite (is_num_not_infinity _ Nr), (is_num_not_infinity _ Ni). reflexivity.
Qed.

End BoundedFacts.

(** ** The step inside the divergence radius *)

(** Both parts of [z] lie between [-b] and [b]. *)
Definition in_square (b : float) (z : complex) : bool :=
  ((- b <=? real z) && (real z <=? b) && (- b <=? imag z) && (imag z <=? b))%float.

Lemma in_square_cbounded (b : float) (q : Q) (z : complex) :
  is_num (Prim2SF b) -> (SF2Q (Prim2SF b) <= q)%Q ->
  in_square b z = true -> cbounded z q.
Proof.
  intros Nb Hb H. unfold in_square in H.
  apply andb_prop in H as [H H4]. apply andb_prop in H as [H H3].
  apply andb_prop in H as [H1 H2].
  assert (Nb' : is_num (Prim2SF (- b))) by (rewrite opp_spec; apply is_num_opp, Nb).
  assert (Hb' : (- q <= SF2Q (Prim2SF (- b)))%Q) by (rewrite opp_spec, SF2Q_opp; lra).
  split; apply (bounded_between _ (- b) b); assumption.
Qed.

Lemma cbounded_in_square (b : float) (q : Q) (z : complex) :
  is_num (Prim2SF b) -> (q <= SF2Q (Prim2SF b))%Q ->
  cbounded z q -> in_square b z = true.
Proof.
  intros Nb Hb [Hr Hi]. unfold in_square.
  destruct (bounded_leb _ b q Nb Hb Hr) as [-> ->].
  destruct (bounded_leb _ b q Nb Hb Hi) as [-> ->]. reflexivity.
Qed.

Lemma is_num_finite (x : float) : is_num (Prim2SF x) -> is_finite x = true.
Proof.
  intros N. unfold is_finite. rewrite (is_num_not_infinity x N).
  unfold is_nan. rewrite FloatAxioms.eqb_spec.
  destruct (Prim2SF x) as [s|s| |s m e]; try contradiction.
  - reflexivity.
  - rewrite SFeqb_finite_refl. reflexivity.
Qed.

Lemma is_finite_num (x : float) : is_finite x = true -> is_num (Prim2SF x).
Proof.
  unfold is_finite, is_nan, is_infinity.
  rewrite !FloatAxioms.eqb_spec, abs_spec.
  destruct (Prim2SF x) as [s|s| |s m e]; intros H; try exact I;
    cbn in H; try destruct s; discriminate.
Qed.

(** [x > n] is false for a number [x]: the value of [x] is at most [n]. *)
Lemma gt_int_false (x : float) (n : Z) :
  is_num (Prim2SF x) -> Float64.gt_int x n = false ->
  (SF2Q (Prim2SF x) <= inject_Z n)%Q.
Proof.
  unfold Float64.gt_int. intros N H.
  destruct (Prim2SF x) as [s|s| |s m e]; try contradiction.
  - apply Z.ltb_ge in H. simpl. rewrite <- (Zle_Qle 0). exact H.
  - cbv zeta in H. simpl SF2Q. set (v := cond_Zopp s (Zpos m)) in *.
    destruct (Z.leb_spec 0 e) as [He|He]; apply Z.ltb_ge in H.
    + rewrite Z.shiftl_mul_pow2 in H by lia.
      unfold dyadic. rewrite bpow_Z by lia. rewrite <- inject_Z_mult, <- Zle_Qle.
      exact H.
    + rewrite Z.shiftl_mul_pow2 in H by lia.
      rewrite Zle_Qle, inject_Z_mult, <- bpow_Z in H by lia.
      unfold dyadic. pose proof (bpow_pos e) as Hp.
      pose proof (bpow_add e (- e)) as Ha. replace (e + - e) with 0 in Ha by lia.
      change (bpow 0) with 1%Q in Ha.
      set (p := bpow e) in *. set (q := bpow (- e)) in *.
      assert (Hq : (0 < q)%Q) by apply bpow_pos.
      assert (H1 : (inject_Z v * p <= inject_Z n * q * p)%Q) by nra.
      assert (H2 : (inject_Z n * q * p == inject_Z n)%Q).
      { rewrite <- Qmult_assoc, (Qmult_comm q p), <- Ha. ring. }
      lra.
Qed.

(** Powers of two and the bound of a step, as numbers of the format. *)
Lemma canonical64_pow2 :
  canonical64 4503599627370496 (-51) /\ canonical64 4503599627370496 (-50) /\
  canonical64 4503599627370496 (-49) /\ canonical64 4503599627370496 (-46) /\
  canonical64 4503599627370496 (-45) /\ canonical64 4503599627370496 (-44) /\
  canonical64 4538783999459328 (-44).
Proof. repeat match goal with |- _ /\ _ => split end; canonical_closed. Qed.

Section StepFacts.

Context {M : Libm}.

(** [z ** 4 + c] for [z] and [c] in the square of half side [2]. *)
Lemma calc_zeta_default_bounded (z c : complex) :
  cbounded z 2 -> cbounded c 2 ->
  exists w, calc_zeta (PyComplex z) c CONST_D = Ok (PyComplex w) /\
            cbounded w (dyadic 4538783999459328 (-44)).
Proof.
  intros Hz Hc.
  destruct canonical64_pow2 as (C2 & C4 & C8 & C64 & C128 & C256 & C258).
  assert (Q4 : (dyadic 4503599627370496 (-50) == 4)%Q) by q_closed.
  assert (Q8 : (dyadic 4503599627370496 (-49) == 8)%Q) by q_closed.
  assert (Q64 : (dyadic 4503599627370496 (-46) == 64)%Q) by q_closed.
  assert (Q128 : (dyadic 4503599627370496 (-45) == 128)%Q) by q_closed.
  assert (Q256 : (dyadic 4503599627370496 (-44) == 256)%Q) by q_closed.
  assert (Q258 : (dyadic 4538783999459328 (-44) == 258)%Q) by q_closed.
  assert (H2 : cbounded (_Py_c_prod z z) (dyadic 4503599627370496 (-49))).
  { apply (_Py_c_prod_bounded z z 2 2 4503599627370496 (-50)); try assumption; lra. }
  assert (H4 : cbounded (_Py_c_prod (_Py_c_prod z z) (_Py_c_prod z z))
                        (dyadic 4503599627370496 (-45))).
  { apply (_Py_c_prod_bounded _ _ (dyadic 4503599627370496 (-49))
             (dyadic 4503599627370496 (-49)) 4503599627370496 (-46));
      try assumption; try lra. rewrite Q8, Q64. lra. }
  assert (H1 : cbounded c_1 1).
  { split; (split; [exact I|]); split; q_closed. }
  assert (Hp : cbounded (_Py_c_prod c_1 (_Py_c_prod (_Py_c_prod z z) (_Py_c_prod z z)))
                        (dyadic 4503599627370496 (-44))).
  { apply (_Py_c_prod_bounded _ _ 1 (dyadic 4503599627370496 (-45))
             4503599627370496 (-45)); try assumption; lra. }
  assert (Hs : cbounded (_Py_c_sum (_Py_c_prod c_1 (_Py_c_prod (_Py_c_prod z z)
                                                     (_Py_c_prod z z))) c)
                        (dyadic 4538783999459328 (-44))).
  { apply (_Py_c_sum_bounded _ _ (dyadic 4503599627370496 (-44)) 2);
      try assumption; lra. }
  unfold calc_zeta. rewrite py_pow_int_small by (unfold CONST_D; lia).
  change (fst (c_powi z CONST_D))
    with (_Py_c_prod c_1 (_Py_c_prod (_Py_c_prod z z) (_Py_c_prod z z))).
  rewrite (cbounded_not_huge _ _ Hp). cbn [bind py_add to_complex].
  eexists. split; [reflexivity | exact Hs].
Qed.

(** The first step, from the literal [0]. *)
Lemma calc_zeta_first_bounded (c : complex) :
  cbounded c 2 ->
  exists w, calc_zeta (PyInt 0) c CONST_D = Ok (PyComplex w) /\ cbounded w 2.
Proof.
  intros [Hr Hi]. rewrite calc_zeta_first by (unfold CONST_D; lia).
  eexists. split; [reflexivity|].
  destruct canonical64_pow2 as (C2 & _).
  assert (Q2 : (dyadic 4503599627370496 (-51) == 2)%Q) by q_closed.
  assert (H0 : bounded 0 0).
  { split; [exact I|]. split; q_closed. }
  split; cbn [real imag];
    (apply (bounded_weaken _ (dyadic 4503599627370496 (-51))); [lra|]);
    apply (add_bounded _ _ 0 2); try assumption; lra.
Qed.

End StepFacts.

(** What the loop needs of [hypot] at an iterate: a finite result, not below
    the magnitude of either argument. *)
Definition hypot_sound {M : Libm} (z : complex) : Prop :=
  let r := hypot (real z) (imag z) in
  is_finite r = true /\
  (abs (real z) <=? r)%float = true /\ (abs (imag z) <=? r)%float = true.

Section LoopTotal.

Context {M : Libm}.

(** An iterate that passed the test against the limit [2] lies in the
    square of half side [2]. *)
Lemma not_diverged_bounded (w : complex) (q : Q) :
  cbounded w q -> hypot_sound w ->
  exists r, py_abs (PyComplex w) = Ok (PyFloat r) /\
            (Float64.gt_int r 2 = false -> cbounded w 2).
Proof.
  intros [[Nr _] [Ni _]] (Hfin & Hre & Him).
  exists (hypot (real w) (imag w)). split.
  - cbn [py_abs]. unfold complex_abs.
    rewrite (is_num_finite _ Nr), (is_num_finite _ Ni). cbn [negb orb].
    rewrite Hfin. reflexivity.
  - intros Hgt. set (r := hypot (real w) (imag w)) in *.
    pose proof (is_finite_num r Hfin) as Nr'.
    pose proof (gt_int_false r 2 Nr' Hgt) as Hr2.
    assert (Habs : forall x, is_num (Prim2SF x) -> (abs x <=? r)%float = true ->
                             bounded x 2).
    { intros x Nx Hx. apply within_abs_bounded; [lra|].
      assert (Na : is_num (Prim2SF (abs x))).
      { rewrite abs_spec. destruct (Prim2SF x); try contradiction; exact I. }
      rewrite leb_spec in Hx.
      apply (SFleb_value prec emax prec_pos64) in Hx; auto using Prim2SF_valid64.
      apply nonneg_within; [exact Na | | ].
      - rewrite abs_spec. destruct (Prim2SF x) as [s|s| |s m e]; try contradiction.
        + simpl. lra.
        + cbn [SFabs]. rewrite SF2Q_finite. pose proof (dyadic_pos m e). lra.
      - change (inject_Z 2) with 2%Q in Hr2. lra. }
    split; apply Habs; assumption.
Qed.

(** The loop of [calc_zeta_n] under the default power and limit never
    raises from a start inside the square, as long as [hypot] is sound on
    the iterates it meets. *)
Lemma calc_zeta_n_loop_total (c : complex) (len : nat) :
  cbounded c 2 ->
  forall (lo : Z) (z0 : pynum),
    1 <= lo ->
    orbit c CONST_D (Z.to_nat (lo - 1)) = Ok z0 ->
    (z0 = PyInt 0 \/ exists z, z0 = PyComplex z /\ cbounded z 2) ->
    (forall k z, lo <= k < lo + Z.of_nat len ->
                 orbit c CONST_D (Z.to_nat k) = Ok (PyComplex z) ->
                 in_square 258 z = true -> hypot_sound z) ->
    exists r, calc_zeta_n_loop c CONST_D CONST_DIVERGENCE_LIMIT
                (py_range lo (lo + Z.of_nat len)) z0 = Ok r.
Proof.
  intros Hc. induction len as [|len IH]; intros lo z0 Hlo Horbit Hz0 Hsound.
  - rewrite py_range_nil by lia. cbn [calc_zeta_n_loop]. eauto.
  - rewrite py_range_cons by lia.
    replace (lo + Z.of_nat (S len)) with (lo + 1 + Z.of_nat len) in * by lia.
    cbn [calc_zeta_n_loop].
    assert (Hstep : exists w, calc_zeta z0 c CONST_D = Ok (PyComplex w) /\
                              cbounded w (dyadic 4538783999459328 (-44))).
    { destruct Hz0 as [->|(z & -> & Hz)].
      - destruct (calc_zeta_first_bounded c Hc) as (w & Hw & Hb).
        exists w. split; [exact Hw|].
        destruct Hb as [Hr Hi]. split; eapply bounded_weaken; try eassumption;
          apply Qle_bool_iff; vm_compute; reflexivity.
      - apply calc_zeta_default_bounded; assumption. }
    destruct Hstep as (w & Hw & Hb). rewrite Hw. cbn [bind].
    assert (Horbit' : orbit c CONST_D (Z.to_nat lo) = Ok (PyComplex w)).
    { replace lo with (lo - 1 + 1) at 1 by lia.
      rewrite (orbit_succ c CONST_D (lo - 1) z0) by (lia || assumption). exact Hw. }
    assert (Hsq : in_square 258 w = true).
    { apply (cbounded_in_square _ (dyadic 4538783999459328 (-44))); try assumption.
      - exact I.
      - apply Qle_bool_iff. vm_compute. reflexivity. }
    pose proof (Hsound lo w ltac:(lia) Horbit' Hsq) as Hs.
    destruct (not_diverged_bounded w _ Hb Hs) as (r & Habs & Hstay).
    rewrite Habs. cbn [bind]. unfold CONST_DIVERGENCE_LIMIT. cbn [py_gt bind].
    destruct (Float64.gt_int r 2) eqn:Hgt.
    + eauto.
    + apply IH; try lia.
      * replace (lo + 1 - 1) with lo by lia. exact Horbit'.
      * right. exists w. split; [reflexivity | apply Hstay; reflexivity].
      * intros k z Hk. apply Hsound. lia.
Qed.

End LoopTotal.

(** ** Lower bounds of rounded sums, and the exponent of the brightness *)







Lemma PyLong_AsDouble_of_Z (n : Z) (y : float) :
  Float64.PyLong_AsDouble n = Ok y -> y = Float64.of_Z n.
Proof.
  unfold Float64.PyLong_AsDouble, Float64.of_Z.
  destruct (binary_normalize prec emax n 0 false); intros H;
    try discriminate; injection H as <-; reflexivity.
Qed.


Section BrightnessFacts.

Context {M : Libm}.


End BrightnessFacts.

(** ** The complex zero to a negative power *)

Section ZeroPower.

Context {M : Libm}.

Lemma c_powu_bits_zero (n : positive) (r : complex) :
  r = c_1 \/ r = mkC 0 0 -> c_powu_bits n r (mkC 0 0) = mkC 0 0.
Proof.
  revert r. induction n as [n IH|n IH|]; intros r Hr; cbn [c_powu_bits].
  - change (_Py_c_prod (mkC 0 0) (mkC 0 0)) with (mkC 0 0).
    apply IH. right. destruct Hr as [-> | ->]; reflexivity.
  - change (_Py_c_prod (mkC 0 0) (mkC 0 0)) with (mkC 0 0).
    apply IH, Hr.
  - destruct Hr as [-> | ->]; reflexivity.
Qed.

Lemma c_powi_zero_negative (n : Z) :
  n < 0 -> c_powi (mkC 0 0) n = (mkC 0 0, true).
Proof.
  intros Hn. unfold c_powi. destruct (Z.ltb_spec 0 n) as [|_]; [lia|].
  destruct n as [|p|p]; try lia. cbn [Z.opp c_powu].
  rewrite c_powu_bits_zero by (left; reflexivity). reflexivity.
Qed.

(** [0j ** y] raises [ZeroDivisionError] for every negative finite float
    [y], on the integer path and on the general one. *)
Lemma complex_pow_zero_negative (y : float) (m : positive) (e : Z) :
  Prim2SF y = S754_finite true m e ->
  complex_pow (mkC 0 0) y = Raise ZeroDivisionError.
Proof.
  intros Hy. unfold complex_pow.
  destruct (Float64.is_integer y && (abs y <=? 100)%float) eqn:Hint.
  - apply andb_true_iff in Hint as [Hint _].
    unfold Float64.is_integer in Hint. unfold Float64.trunc. rewrite Hy in *.
    cbn [cond_Zopp].
    assert (Hs : 0 < Z.shiftl (Zpos m) e).
    { pose proof (Z.shiftl_nonneg (Zpos m) e) as H.
      destruct (Z.eq_dec (Z.shiftl (Zpos m) e) 0) as [E|]; [|lia].
      rewrite E, Z.shiftl_0_l in Hint. apply Z.eqb_eq in Hint. lia. }
    rewrite c_powi_zero_negative by lia. reflexivity.
  - unfold _Py_c_pow.
    assert (H0 : (y =? 0)%float = false).
    { rewrite FloatAxioms.eqb_spec, Hy. reflexivity. }
    assert (Hlt : (y <? 0)%float = true).
    { rewrite ltb_spec, Hy. reflexivity. }
    rewrite H0. cbn [real imag]. change ((0 =? 0)%float) with true.
    cbn [andb]. rewrite Hlt. reflexivity.
Qed.

Lemma calc_zeta_zero_negative (c : complex) (d : Z) :
  - 2 ^ 53 < d < 0 ->
  calc_zeta (PyComplex (mkC 0 0)) c d = Raise ZeroDivisionError.
Proof.
  intros Hd. destruct (PyLong_AsDouble_negative d Hd) as (y & m & e & Hy & Hf).
  unfold calc_zeta, py_pow_int. rewrite Hy. cbn [bind].
  rewrite (complex_pow_zero_negative y m e Hf). reflexivity.
Qed.

End ZeroPower.

(** ** The two paths of the complex power, by the size of the exponent *)

Lemma small_exponent_signed (d : Z) : - 100 <= d <= 100 -> small_exponent d = true.
Proof.
  intros H.
  apply (forall_range small_exponent (- 100) 101); [vm_compute; reflexivity | lia].
Qed.

(** An int exponent of magnitude in [101 .. 2^53 - 1] reaches [complex_pow]
    as the float of the same value, which fails the test
    [fabs(b.real) <= 100.0]. *)
Lemma large_exponent (d : Z) :
  100 < Z.abs d < 2 ^ 53 ->
  Float64.PyLong_AsDouble d = Ok (Float64.of_Z d) /\
  (Float64.of_Z d =? 0)%float = false /\
  (abs (Float64.of_Z d) <=? 100)%float = false.
Proof.
  intros Hd. destruct (PyLong_AsDouble_small d) as (y & Hy & Ny & Hval); [lia|].
  pose proof (PyLong_AsDouble_of_Z _ _ Hy) as ->. split; [exact Hy|].
  set (y := Float64.of_Z d) in *.
  split.
  { rewrite FloatAxioms.eqb_spec.
    destruct (Prim2SF y) as [s|s| |s m e]; try contradiction.
    - simpl in Hval. change 0%Q with (inject_Z 0) in Hval.
      rewrite inject_Z_injective in Hval. lia.
    - destruct s; reflexivity. }
  destruct (abs y <=? 100)%float eqn:Hle; [exfalso|reflexivity].
  rewrite leb_spec, abs_spec in Hle.
  assert (Q100 : (SF2Q (Prim2SF 100) == inject_Z 100)%Q) by q_closed.
  pose proof (Prim2SF_valid64 y) as V.
  destruct (Prim2SF y) as [s|s| |s m e] eqn:E; try contradiction.
  - simpl in Hval. change 0%Q with (inject_Z 0) in Hval.
    rewrite inject_Z_injective in Hval. lia.
  - cbn [SFabs] in Hle.
    apply (SFleb_value prec emax prec_pos64) in Hle;
      [|destruct s; exact V|apply Prim2SF_valid64|exact I|exact I].
    rewrite SF2Q_finite in Hle, Hval. rewrite Q100 in Hle.
    pose proof (dyadic_pos m e) as Hp.
    destruct s.
    + assert (H : (inject_Z (- 100) <= inject_Z d)%Q).
      { rewrite <- Hval. change (inject_Z (- 100)) with (- (100 # 1))%Q.
        change (inject_Z 100) with (100 # 1)%Q in Hle. lra. }
      rewrite <- Zle_Qle in H.
      assert (H' : (inject_Z d <= inject_Z 0)%Q).
      { rewrite <- Hval. change (inject_Z 0) with 0%Q. lra. }
      rewrite <- Zle_Qle in H'. lia.
    + assert (H : (inject_Z d <= inject_Z 100)%Q) by (rewrite <- Hval; lra).
      rewrite <- Zle_Qle in H.
      assert (H' : (inject_Z 0 <= inject_Z d)%Q).
      { rewrite <- Hval. change (inject_Z 0) with 0%Q. lra. }
      rewrite <- Zle_Qle in H'. lia.
Qed.

Section PowerCases.

Context {M : Libm}.

(** For an exponent in [-100 .. 100] the power is [c_powi]: a division by
    zero raises [ZeroDivisionError], an infinite component
    [OverflowError]. *)
Lemma py_pow_int_integer_path (z : complex) (d : Z) :
  - 100 <= d <= 100 ->
  py_pow_int (PyComplex z) d =
  if snd (c_powi z d) then Raise ZeroDivisionError
  else if is_huge (fst (c_powi z d)) then Raise OverflowError
  else Ok (PyComplex (fst (c_powi z d))).
Proof.
  intros Hd. pose proof (small_exponent_signed d Hd) as Hs.
  unfold small_exponent in Hs. unfold py_pow_int.
  destruct (Float64.PyLong_AsDouble d) as [y|]; [|discriminate]. cbn [bind].
  apply andb_prop in Hs as [Hg Ht]. unfold complex_pow. rewrite Hg.
  destruct (Float64.trunc y) as [n|]; [|discriminate].
  apply Z.eqb_eq in Ht. subst n.
  destruct (c_powi z d) as [p edom]. cbn [fst snd bind].
  destruct edom; [reflexivity|]. destruct (is_huge p); reflexivity.
Qed.

(** For an exponent of magnitude in [101 .. 2^53 - 1] the power is the
    polar form [_Py_c_pow], and it raises what [errno] says. *)
Lemma py_pow_int_polar_path (z : complex) (d : Z) :
  100 < Z.abs d < 2 ^ 53 ->
  py_pow_int (PyComplex z) d =
  match _Py_c_pow z (Float64.of_Z d) with
  | (p, None) => Ok (PyComplex p)
  | (_, Some e) => Raise e
  end.
Proof.
  intros Hd. destruct (large_exponent d Hd) as (Hy & _ & Hle).
  unfold py_pow_int. rewrite Hy. cbn [bind]. unfold complex_pow.
  rewrite Hle, andb_false_r.
  destruct (_Py_c_pow z (Float64.of_Z d)) as [p [e|]]; reflexivity.
Qed.

(** The polar form written out, for a base other than zero: the modulus to
    the power [d] by the C library's [pow], the phase [d] times the
    argument, [ZeroDivisionError] for an infinite phase and [OverflowError]
    for an infinite component. *)
Lemma py_pow_int_polar (z : complex) (d : Z) :
  100 < Z.abs d < 2 ^ 53 ->
  (real z =? 0)%float && (imag z =? 0)%float = false ->
  py_pow_int (PyComplex z) d =
  let y := Float64.of_Z d in
  let len := pow (hypot (real z) (imag z)) y in
  let phase := (atan2 (imag z) (real z) * y)%float in
  let r := mkC (len * cos phase) (len * sin phase) in
  if is_infinity phase then Raise ZeroDivisionError
  else if is_huge r then Raise OverflowError
  else Ok (PyComplex r).
Proof.
  intros Hd Hz. rewrite (py_pow_int_polar_path z d Hd).
  destruct (large_exponent d Hd) as (_ & H0 & _).
  unfold _Py_c_pow. rewrite H0, Hz. cbv zeta.
  destruct (is_infinity (atan2 (imag z) (real z) * Float64.of_Z d)); [reflexivity|].
  destruct (is_huge _); reflexivity.
Qed.

Lemma calc_zeta_of_power (z c : complex) (d : Z) :
  calc_zeta (PyComplex z) c d =
  match py_pow_int (PyComplex z) d with
  | Ok (PyComplex p) => Ok (PyComplex (_Py_c_sum p c))
  | Ok v => py_add v (PyComplex c)
  | Raise e => Raise e
  end.
Proof.
  unfold calc_zeta. destruct (py_pow_int (PyComplex z) d) as [[n|x|p]|e]; reflexivity.
Qed.

End PowerCases.

(** * The claims *)

(** ** C1: the evaluator *)

(** C1.  For every point [c], exponent [d], bound [n] and divergence limit,
    [calc_zeta_n] starts from the literal [0] ([orbit c d 0]) and applies
    [calc_zeta] once per iteration ([orbit c d (k + 1)] is [calc_zeta] of
    [orbit c d k]).  It returns [(zeta_i, i)] at the first iteration
    [i] in [1..n] whose magnitude exceeds the limit; when no iteration in
    [1..n] does, it performs [n] steps and returns [(zeta_n, n)].  The test is
    strict: a magnitude equal to the limit, be the limit a float or an int,
    does not count as divergence. *)
Theorem calc_zeta_n_spec (M : Libm) (c : complex) (d n : Z) (divergence_limit : pynum) :
  (forall (i : Z) (zi : pynum),
      1 <= i <= n ->
      (forall j, 1 <= j < i -> stays c d divergence_limit j) ->
      orbit c d (Z.to_nat i) = Ok zi ->
      diverged divergence_limit zi = Ok true ->
      calc_zeta_n c d n divergence_limit = Ok (zi, i)) /\
  ((forall j, 1 <= j <= n -> stays c d divergence_limit j) ->
   exists zn, orbit c d (Z.to_nat n) = Ok zn /\
              calc_zeta_n c d n divergence_limit = Ok (zn, n)) /\
  (forall (z : complex) (a : float),
      complex_abs z = Ok a -> diverged (PyFloat a) (PyComplex z) = Ok false) /\
  (forall (z : complex) (a : float) (k : Z),
      complex_abs z = Ok a -> Float64.is_integer a = true -> Float64.trunc a = Ok k ->
      diverged (PyInt k) (PyComplex z) = Ok false).
Proof.
  assert (Hrange : py_range 1 (n + 1) = py_range 1 (1 + Z.of_nat (Z.to_nat n))).
  { destruct (Z.le_gt_cases 0 n) as [Hn|Hn].
    - f_equal. lia.
    - rewrite !py_range_nil by lia. reflexivity. }
  split; [|split; [|split]].
  - intros i zi Hi Hstay Hzi Hdiv. unfold calc_zeta_n. rewrite Hrange.
    rewrite (loop_first c d divergence_limit (Z.to_nat n) 1 i (PyInt 0) zi);
      try assumption; try lia; reflexivity.
  - intros Hstay. unfold calc_zeta_n. rewrite Hrange.
    destruct (loop_exhausted c d divergence_limit (Z.to_nat n) 1 (PyInt 0))
      as (zn & Hzn & Hloop); try lia; try reflexivity.
    + intros j Hj. apply Hstay. lia.
    + exists zn. rewrite Hloop. split; [|reflexivity].
      rewrite <- Hzn. f_equal. lia.
  - intros z a Ha. unfold diverged. simpl. rewrite Ha. simpl.
    rewrite float_ltb_irrefl. reflexivity.
  - intros z a k Ha Hint Hk. unfold diverged. simpl. rewrite Ha. simpl.
    rewrite (gt_int_exact a k Hint Hk). reflexivity.
Qed.

(** The first test of [test_calc_zeta_n_pass], through the theorem: the
    orbit of [1 + 1j] under [d = 2] leaves the disc of radius [2] at the
    second step. *)
Lemma calc_zeta_n_spec_witness :
  calc_zeta_n (M := SampleLibm.libm) (mkC 1 1) 2 4 (PyInt 2)
  = Ok (PyComplex (mkC 1 3), 2).
Proof.
  apply (proj1 (calc_zeta_n_spec SampleLibm.libm (mkC 1 1) 2 4 (PyInt 2))).
  - lia.
  - intros j Hj. assert (j = 1) as -> by lia.
    exists (PyComplex (mkC 1 1)). split; vm_compute; reflexivity.
  - vm_compute. reflexivity.
  - vm_compute. reflexivity.
Defined.

(** ** C2: the iteration count *)

(** C2 as stated fails on the code.  With [n = 2] the orbit of [1 + 1j]
    exceeds the limit at the second, and last, step: the count returned is
    [n] although the point did exceed the limit.  With [n = 0] the loop body
    never runs and the count returned is [0], outside [1..n]. *)
Lemma calc_zeta_n_count_counterexample :
  calc_zeta_n (M := SampleLibm.libm) (mkC 1 1) 2 2 (PyInt 2)
  = Ok (PyComplex (mkC 1 3), 2) /\
  diverged (M := SampleLibm.libm) (PyInt 2) (PyComplex (mkC 1 3)) = Ok true /\
  calc_zeta_n (M := SampleLibm.libm) (mkC 1 1) 2 0 (PyInt 2) = Ok (PyInt 0, 0).
Proof. repeat split; vm_compute; reflexivity. Qed.

(** C2, amended.  For a bound [n >= 1], when [calc_zeta_n] returns
    [(zeta, k)]: [k] lies in [1..n]; [zeta] is step [k] of the orbit; no step
    before [k] exceeded the limit; a count below [n] means that step [k] did
    exceed it; and a point that never exceeds the limit within [n] steps
    gets the count [n]. *)
Theorem calc_zeta_n_count (M : Libm) (c : complex) (d n : Z)
    (divergence_limit zeta : pynum) (k : Z) :
  1 <= n ->
  calc_zeta_n c d n divergence_limit = Ok (zeta, k) ->
  1 <= k <= n /\
  orbit c d (Z.to_nat k) = Ok zeta /\
  (forall j, 1 <= j < k -> stays c d divergence_limit j) /\
  (k < n -> diverged divergence_limit zeta = Ok true) /\
  ((forall j, 1 <= j <= n -> stays c d divergence_limit j) -> k = n).
Proof.
  intros Hn Hrun. unfold calc_zeta_n in Hrun.
  apply bind_Ok in Hrun as ([z r] & Hloop & Hret).
  replace (n + 1) with (1 + Z.of_nat (Z.to_nat n)) in Hloop by lia.
  apply (loop_inv c d divergence_limit (Z.to_nat n) 1 (PyInt 0)) in Hloop;
    [|lia|reflexivity].
  destruct Hloop as (Hstay & Horb & Hr).
  assert (Hcases : 1 <= k <= n /\ orbit c d (Z.to_nat k) = Ok zeta /\
                   (forall j, 1 <= j < k -> stays c d divergence_limit j) /\
                   (k < n -> diverged divergence_limit zeta = Ok true)).
  { destruct r as [i|]; injection Hret as <- <-.
    - destruct Hr as [Hi Hdiv]. repeat split; try lia; try assumption.
      intros _. exact Hdiv.
    - repeat split; try lia.
      + rewrite <- Horb. f_equal. lia.
      + intros j Hj. apply Hstay. lia. }
  destruct Hcases as (Hk & Hzeta & Hbefore & Hlt).
  repeat split; try lia; try assumption.
  intros Hall. destruct (Z.eq_dec k n) as [|Hne]; [assumption|exfalso].
  destruct (Hall k ltac:(lia)) as (z' & Hz' & Hd').
  rewrite Hzeta in Hz'. injection Hz' as <-.
  rewrite Hlt in Hd' by lia. discriminate.
Qed.

(** The theorem at the second test of [test_calc_zeta_n_pass]: the orbit of
    [0.2 + 0.2j] stays inside the disc for four steps. *)
Lemma calc_zeta_n_count_witness :
  let c := mkC 0x1.999999999999ap-3 0x1.999999999999ap-3 in
  let zeta := PyComplex (mkC 0x1.07b8dbff19d10p-3 0x1.340efb45861c2p-2) in
  1 <= 4 <= 4 /\
  orbit (M := SampleLibm.libm) c 2 (Z.to_nat 4) = Ok zeta /\
  (forall j, 1 <= j < 4 -> stays (M := SampleLibm.libm) c 2 (PyInt 2) j) /\
  (4 < 4 -> diverged (M := SampleLibm.libm) (PyInt 2) zeta = Ok true) /\
  ((forall j, 1 <= j <= 4 -> stays (M := SampleLibm.libm) c 2 (PyInt 2) j) -> 4 = 4).
Proof.
  intros c zeta.
  apply (calc_zeta_n_count SampleLibm.libm c 2 4 (PyInt 2) zeta 4).
  - lia.
  - vm_compute. reflexivity.
Defined.

(** ** C3: the step *)

(** C3 as stated fails on the code.  The step works on binary64 numbers:
    for [zeta_prev = 0.1], [c = 0] and [d = 2] it returns
    [0.010000000000000002], the product rounded, which is above the square
    of its input; and for [zeta_prev = 0] and [d = -1] it returns nothing
    and raises [ZeroDivisionError]. *)
Lemma calc_zeta_spec_counterexample :
  calc_zeta (M := SampleLibm.libm) (PyComplex (mkC 0x1.999999999999ap-4 0)) (mkC 0 0) 2
  = Ok (PyComplex (mkC 0x1.47ae147ae147cp-7 0)) /\
  Prim2SF 0x1.999999999999ap-4 = S754_finite false 7205759403792794 (-56) /\
  Prim2SF 0x1.47ae147ae147cp-7 = S754_finite false 5764607523034236 (-59) /\
  (SF2Q (Prim2SF 0x1.47ae147ae147cp-7)
   ?= SF2Q (Prim2SF 0x1.999999999999ap-4) * SF2Q (Prim2SF 0x1.999999999999ap-4))%Q
  = Gt /\
  calc_zeta (M := SampleLibm.libm) (PyComplex (mkC 0 0)) (mkC 1 1) (-1)
  = Raise ZeroDivisionError.
Proof. repeat apply conj; vm_compute; reflexivity. Qed.

(** C3, amended.  For a complex [zeta_prev], a complex [c] and an int [d],
    [calc_zeta] is the binary64 complex power [zeta_prev ** d] followed by
    the binary64 complex sum with [c], and nothing else; for [d = 2] the
    power is the product [zeta_prev * zeta_prev] of [c_powu].  For [d] in
    [-100 .. 100] the power is [c_powi], which raises [ZeroDivisionError]
    on a division by zero and [OverflowError] on an infinite component;
    for [100 < |d| < 2^53] and a base other than zero it is the polar form,
    [pow(hypot(re, im), d)] times the cosine and the sine of
    [atan2(im, re) * d], which raises [ZeroDivisionError] on an infinite
    phase and [OverflowError] on an infinite component.  On Gaussian
    integers the step is exact
    integer arithmetic: for [0 <= d <= 100], as long as
    [bound zeta_prev ^ d + norm1 c] stays below [2^53], the result is the
    Gaussian integer [zeta_prev^d + c].  For [zeta_prev = 0] and
    [-2^53 < d < 0] the step raises [ZeroDivisionError].  On the vectors of
    [test_calc_zeta_pass] the result is the expected one, bit for bit:
    [step(0, 1+1j, 2) = 1+1j], [step(51-25j, 51-25j, 2) = 2027-2575j] and the
    float vector with [d = 20]; and with [d = -1] the two branches of the
    quotient give [step(2, 1+1j, -1) = 1.5+1j] and
    [step(2j, 1+1j, -1) = 1+0.5j]. *)
Theorem calc_zeta_spec (M : Libm) :
  (forall (z c : complex) (d : Z),
      calc_zeta (PyComplex z) c d =
      y <- Float64.PyLong_AsDouble d ;;
      p <- complex_pow z y ;;
      Ok (PyComplex (_Py_c_sum p c))) /\
  (forall z c : complex,
      calc_zeta (PyComplex z) c 2 =
      let p := _Py_c_prod c_1 (_Py_c_prod z z) in
      if is_huge p then Raise OverflowError else Ok (PyComplex (_Py_c_sum p c))) /\
  (forall (z c : complex) (d : Z),
      - 100 <= d <= 100 ->
      calc_zeta (PyComplex z) c d =
      if snd (c_powi z d) then Raise ZeroDivisionError
      else if is_huge (fst (c_powi z d)) then Raise OverflowError
      else Ok (PyComplex (_Py_c_sum (fst (c_powi z d)) c))) /\
  (forall (z c : complex) (d : Z),
      100 < Z.abs d < 2 ^ 53 ->
      (real z =? 0)%float && (imag z =? 0)%float = false ->
      calc_zeta (PyComplex z) c d =
      let y := Float64.of_Z d in
      let len := pow (hypot (real z) (imag z)) y in
      let phase := (atan2 (imag z) (real z) * y)%float in
      let r := mkC (len * cos phase) (len * sin phase) in
      if is_infinity phase then Raise ZeroDivisionError
      else if is_huge r then Raise OverflowError
      else Ok (PyComplex (_Py_c_sum r c))) /\
  (forall (z c : complex) (g h : gauss) (d : Z),
      represents z g -> represents c h -> 0 <= d <= 100 ->
      bound g ^ d + norm1 h < 2 ^ 53 ->
      exists w, calc_zeta (PyComplex z) c d = Ok (PyComplex w) /\
                represents w (gadd (gpow g (Z.to_nat d)) h)) /\
  (forall (c : complex) (d : Z),
      - 2 ^ 53 < d < 0 ->
      calc_zeta (PyComplex (mkC 0 0)) c d = Raise ZeroDivisionError) /\
  calc_zeta (PyComplex (mkC 0 0)) (mkC 1 1) 2 = Ok (PyComplex (mkC 1 1)) /\
  calc_zeta (PyInt 0) (mkC 1 1) 2 = Ok (PyComplex (mkC 1 1)) /\
  calc_zeta (PyComplex (mkC 51 (-25))) (mkC 51 (-25)) 2
  = Ok (PyComplex (mkC 2027 (-2575))) /\
  calc_zeta (PyComplex (mkC (-12) 4)) (mkC (-12) 4) 20
  = Ok (PyComplex (mkC 0x1.26984e0000000p+73 (-0x1.6897800000000p+70))) /\
  calc_zeta (PyComplex (mkC 2 0)) (mkC 1 1) (-1) = Ok (PyComplex (mkC 0x1.8p+0 1)) /\
  calc_zeta (PyComplex (mkC 0 2)) (mkC 1 1) (-1) = Ok (PyComplex (mkC 1 0x1p-1)).
Proof.
  repeat apply conj.
  - intros z c d. unfold calc_zeta, py_pow_int.
    destruct (Float64.PyLong_AsDouble d) as [y|e]; [|reflexivity]. simpl.
    destruct (complex_pow z y); reflexivity.
  - intros z c. unfold calc_zeta. rewrite py_pow_int_small by lia.
    change (fst (c_powi z 2)) with (_Py_c_prod c_1 (_Py_c_prod z z)).
    cbv zeta. destruct (is_huge _); reflexivity.
  - intros z c d Hd. rewrite calc_zeta_of_power, (py_pow_int_integer_path z d Hd).
    destruct (snd (c_powi z d)); [reflexivity|].
    destruct (is_huge (fst (c_powi z d))); reflexivity.
  - intros z c d Hd Hz. rewrite calc_zeta_of_power, (py_pow_int_polar z d Hd Hz).
    cbv zeta.
    destruct (is_infinity (atan2 (imag z) (real z) * Float64.of_Z d));
      [reflexivity|].
    destruct (is_huge _); reflexivity.
  - apply calc_zeta_exact.
  - apply calc_zeta_zero_negative.
  - unfold calc_zeta. rewrite py_pow_int_small by lia. vm_compute. reflexivity.
  - vm_compute. reflexivity.
  - unfold calc_zeta. rewrite py_pow_int_small by lia. vm_compute. reflexivity.
  - unfold calc_zeta. rewrite py_pow_int_small by lia. vm_compute. reflexivity.
  - rewrite calc_zeta_of_power, py_pow_int_integer_path by lia.
    vm_compute. reflexivity.
  - rewrite calc_zeta_of_power, py_pow_int_integer_path by lia.
    vm_compute. reflexivity.
Qed.

(** The second vector of [test_calc_zeta_pass] as integer arithmetic:
    [(51 - 25i)^2 + (51 - 25i) = 2027 - 2575i]. *)
Lemma calc_zeta_spec_witness :
  exists w,
    calc_zeta (M := SampleLibm.libm) (PyComplex (mkC 51 (-25))) (mkC 51 (-25)) 2
    = Ok (PyComplex w) /\
    represents w (2027, -2575).
Proof.
  apply (proj1 (proj2 (proj2 (proj2 (proj2 (calc_zeta_spec SampleLibm.libm)))))
           (mkC 51 (-25)) (mkC 51 (-25)) (51, -25) (51, -25) 2).
  - split; (split; [exact I | vm_compute; reflexivity]).
  - split; (split; [exact I | vm_compute; reflexivity]).
  - lia.
  - vm_compute. reflexivity.
Defined.

(** ** C4: overflow *)

(** C4 as stated fails on the code.  With [zeta_prev = c = 2^1023] and
    [d = 1] the power is [2^1023] and the exact sum is [2^1024], beyond the
    largest binary64 number: [calc_zeta] raises nothing and returns a value
    whose real part is infinite. *)
Lemma calc_zeta_overflow_counterexample :
  calc_zeta (M := SampleLibm.libm) (PyComplex (mkC 0x1p1023 0)) (mkC 0x1p1023 0) 1
  = Ok (PyComplex (mkC infinity 0)) /\
  Prim2SF 0x1p1023 = S754_finite false 4503599627370496 971 /\
  SFmax_float prec emax = S754_finite false 9007199254740991 971 /\
  4503599627370496 + 4503599627370496 > 9007199254740991.
Proof. repeat apply conj; vm_compute; reflexivity. Qed.

(** C4, amended.  [calc_zeta] raises an exception exactly when the power
    [zeta_prev ** d] raises it: the sum with [c] never raises (an overflow
    of the sum is returned as an infinite component), and when the power
    returns, [calc_zeta] returns a complex value.  For an exponent in
    [0..100] the power raises [OverflowError] exactly when a component of
    the product [c_powi] is infinite; for an exponent in [-100 .. 100] the
    step raises [OverflowError] exactly when [c_powi] divides by no zero and
    has an infinite component; for [100 < |d| < 2^53] and a base other than
    zero exactly when the phase [atan2(im, re) * d] is finite and a
    component of the polar form is infinite.
    [step(-12+4j, -12+4j, d=20000)] raises
    [OverflowError] once the C library's [pow] overflows on the modulus.
    An exception of a step leaves [calc_zeta_n] as it is. *)
Theorem calc_zeta_overflow (M : Libm) :
  (forall (z c : complex) (d : Z) (e : exn),
      calc_zeta (PyComplex z) c d = Raise e <->
      py_pow_int (PyComplex z) d = Raise e) /\
  (forall (z c : complex) (d : Z) (p : pynum),
      py_pow_int (PyComplex z) d = Ok p ->
      exists w, p = PyComplex w /\
                calc_zeta (PyComplex z) c d = Ok (PyComplex (_Py_c_sum w c))) /\
  (forall (z : complex) (d : Z),
      0 <= d <= 100 ->
      py_pow_int (PyComplex z) d =
      if is_huge (fst (c_powi z d)) then Raise OverflowError
      else Ok (PyComplex (fst (c_powi z d)))) /\
  (forall (z c : complex) (d : Z),
      - 100 <= d <= 100 ->
      calc_zeta (PyComplex z) c d = Raise OverflowError <->
      snd (c_powi z d) = false /\ is_huge (fst (c_powi z d)) = true) /\
  (forall (z c : complex) (d : Z),
      100 < Z.abs d < 2 ^ 53 ->
      (real z =? 0)%float && (imag z =? 0)%float = false ->
      let y := Float64.of_Z d in
      let len := pow (hypot (real z) (imag z)) y in
      let phase := (atan2 (imag z) (real z) * y)%float in
      calc_zeta (PyComplex z) c d = Raise OverflowError <->
      is_infinity phase = false /\
      is_huge (mkC (len * cos phase) (len * sin phase)) = true) /\
  (let phase := (atan2 4 (-12) * 20000)%float in
   pow (hypot (-12) 4) 20000 = infinity ->
   is_infinity phase = false ->
   is_huge (mkC (infinity * cos phase) (infinity * sin phase)) = true ->
   calc_zeta (PyComplex (mkC (-12) 4)) (mkC (-12) 4) 20000 = Raise OverflowError) /\
  (forall (c : complex) (d n : Z) (divergence_limit : pynum) (i : Z) (e : exn),
      1 <= i <= n ->
      (forall j, 1 <= j < i -> stays c d divergence_limit j) ->
      orbit c d (Z.to_nat i) = Raise e ->
      calc_zeta_n c d n divergence_limit = Raise e).
Proof.
  repeat apply conj.
  - intros z c d e. split; [apply calc_zeta_raise|].
    intros H. unfold calc_zeta. rewrite H. reflexivity.
  - apply calc_zeta_value.
  - apply py_pow_int_small.
  - intros z c d Hd. rewrite calc_zeta_of_power, (py_pow_int_integer_path z d Hd).
    destruct (snd (c_powi z d)); [split; [discriminate|intros [H _]; discriminate]|].
    destruct (is_huge (fst (c_powi z d)));
      (split; [intros H; try discriminate; split; reflexivity
              |intros [_ H]; try discriminate; reflexivity]).
  - intros z c d Hd Hz y len phase.
    rewrite calc_zeta_of_power, (py_pow_int_polar z d Hd Hz). cbv zeta.
    fold y. fold len. fold phase.
    destruct (is_infinity phase);
      [split; [discriminate|intros [H _]; discriminate]|].
    destruct (is_huge _);
      (split; [intros H; try discriminate; split; reflexivity
              |intros [_ H]; try discriminate; reflexivity]).
  - apply calc_zeta_20000.
  - intros c d n limit i e Hi Hstay Hraise. unfold calc_zeta_n.
    replace (n + 1) with (1 + Z.of_nat (Z.to_nat n)) by lia.
    rewrite (loop_raises c d limit (Z.to_nat n) 1 i (PyInt 0) e);
      try lia; try assumption; try reflexivity.
    rewrite Hraise. reflexivity.
Qed.

(** [test_calc_zeta_fail], through the theorem. *)
Lemma calc_zeta_overflow_witness :
  calc_zeta (M := SampleLibm.libm) (PyComplex (mkC (-12) 4)) (mkC (-12) 4) 20000
  = Raise OverflowError.
Proof.
  apply (proj1 (proj2 (proj2 (proj2 (proj2 (proj2
           (calc_zeta_overflow SampleLibm.libm))))))).
  - vm_compute. reflexivity.
  - vm_compute. reflexivity.
  - vm_compute. reflexivity.
Defined.

(** ** C5: the colour ramp *)

(** C5 as stated fails on the code.  At [angle = 0.4] the raw value is
    [int(0.85) = 0], where rounding gives [1]: the code returns [(0, 1, 1)]
    and the function of the specification's words [(1, 1, 1)].  At
    [angle = -180] the reflected angle is [360], the raw value [765] and the
    sector [3]: the code returns the four components
    [(255, 255, 255, 0)]. *)
Lemma map_angle_to_colour_counterexample :
  map_angle_to_colour 0x1.999999999999ap-2 = Ok [0; 1; 1] /\
  spec_angle_to_rgb 0x1.999999999999ap-2 = Ok [1; 1; 1] /\
  map_angle_to_colour (-180) = Ok [255; 255; 255; 0].
Proof. repeat apply conj; vm_compute; reflexivity. Qed.

(** C5, amended.  For every angle in [-180, 180] whose reflection
    [|angle| + 180] stays below [360] (every angle of the range but the
    negative ones that reflect to [360.0]): a negative angle is replaced by
    [|angle| + 180]; [raw] is [(765/360) * angle] truncated toward zero, not
    rounded; the sector [raw div 255] is [0], [1] or [2]; and the result has
    exactly three components, [sector] of them [255], then [raw mod 255],
    then [2 - sector] of them [1].  [angle = -10] maps as [190]. *)
Theorem map_angle_to_colour_spec (angle : float) :
  (-180 <=? angle)%float = true -> (angle <=? 180)%float = true ->
  let a := if (angle <? 0)%float then (abs angle + 180)%float else angle in
  (a <? 360)%float = true ->
  (exists raw,
      Float64.trunc (765 / 360 * a)%float = Ok raw /\
      0 <= raw / 255 <= 2 /\
      0 <= raw mod 255 < 255 /\
      map_angle_to_colour angle =
      Ok (repeat 255 (Z.to_nat (raw / 255)) ++ [raw mod 255]
          ++ repeat 1 (Z.to_nat (2 - raw / 255))) /\
      exists r g b, map_angle_to_colour angle = Ok [r; g; b]) /\
  map_angle_to_colour (-10) = map_angle_to_colour 190.
Proof.
  intros H1 H2 a Ha. split; [|vm_compute; reflexivity].
  destruct (map_angle_to_colour_ramp angle H1 H2 Ha) as (raw & Hraw & Hr & Hmap).
  exists raw. split; [exact Hraw|].
  assert (Hs : 0 <= raw / 255 <= 2).
  { split; [apply Z.div_pos; lia|].
    assert (raw / 255 < 3) by (apply Z.div_lt_upper_bound; lia). lia. }
  split; [exact Hs|]. split; [apply Z.mod_pos_bound; lia|]. split; [exact Hmap|].
  rewrite Hmap.
  assert (Hc : raw / 255 = 0 \/ raw / 255 = 1 \/ raw / 255 = 2) by lia.
  destruct Hc as [->|[->| ->]]; simpl; eauto.
Qed.

Lemma map_angle_to_colour_spec_witness :
  (exists raw,
      Float64.trunc (765 / 360 * (abs (-10) + 180))%float = Ok raw /\
      0 <= raw / 255 <= 2 /\
      0 <= raw mod 255 < 255 /\
      map_angle_to_colour (-10) =
      Ok (repeat 255 (Z.to_nat (raw / 255)) ++ [raw mod 255]
          ++ repeat 1 (Z.to_nat (2 - raw / 255))) /\
      exists r g b, map_angle_to_colour (-10) = Ok [r; g; b]) /\
  map_angle_to_colour (-10) = map_angle_to_colour 190.
Proof.
  apply (map_angle_to_colour_spec (-10)); reflexivity.
Defined.

(** ** C6: the colour of a pixel *)




(** ** C7: the colour of a point on the negative real axis *)

(** C7 fails on the code.  For [zeta = -1 - 0j] the C library's [atan2]
    returns [-pi], the angle is [-180], the ramp returns four components,
    and unpacking them into [red, green, blue] raises: [get_pixel_colour]
    returns no triple, whatever the iteration count. *)
Theorem get_pixel_colour_negative_axis (M : Libm) (iteration : Z) :
  atan2 (-0) (-1) = (- np_pi)%float ->
  np_angle_deg (PyComplex (mkC (-1) (-0))) = Ok (-180)%float /\
  map_angle_to_colour (-180) = Ok [255; 255; 255; 0] /\
  get_pixel_colour (PyComplex (mkC (-1) (-0))) CONST_N = Raise ValueError /\
  exists e, get_pixel_colour (PyComplex (mkC (-1) (-0))) iteration = Raise e.
Proof.
  intros Hatan.
  assert (Hangle : np_angle_deg (PyComplex (mkC (-1) (-0))) = Ok (-180)%float).
  { unfold np_angle_deg. cbn [real imag]. rewrite Hatan. vm_compute. reflexivity. }
  assert (Hmap : map_angle_to_colour (-180) = Ok [255; 255; 255; 0])
    by (vm_compute; reflexivity).
  repeat apply conj; try assumption.
  - unfold get_pixel_colour. rewrite Hangle. cbn [bind].
    change (CONST_N =? CONST_N) with true. cbn [bind]. rewrite Hmap. reflexivity.
  - unfold get_pixel_colour. rewrite Hangle. cbn [bind].
    destruct (if iteration =? CONST_N then Ok (PyInt 0)
              else diverging_brightness iteration) as [x|e]; cbn [bind].
    + rewrite Hmap. exists ValueError. reflexivity.
    + exists e. reflexivity.
Qed.

Lemma get_pixel_colour_negative_axis_witness :
  let M := SampleLibm.libm in
  np_angle_deg (PyComplex (mkC (-1) (-0))) = Ok (-180)%float /\
  map_angle_to_colour (-180) = Ok [255; 255; 255; 0] /\
  get_pixel_colour (PyComplex (mkC (-1) (-0))) CONST_N = Raise ValueError /\
  exists e, get_pixel_colour (PyComplex (mkC (-1) (-0))) 1 = Raise e.
Proof.
  intros M. apply (get_pixel_colour_negative_axis M 1). vm_compute. reflexivity.
Defined.

(** ** C8 and C9: the pixel of a coordinate *)

(** C8.  For every coordinate of the plane region, [coord_to_pixel] returns
    the pair [(floor(|x - MIN_RE| / spacing_re),
    floor(|y - MIN_IM| / spacing_im))] of the specification's words, with
    [spacing = |MAX - MIN| / resolution], in the program's binary64
    arithmetic. *)
Theorem coord_to_pixel_floor (x y : float) :
  (Float64.of_Z CONST_MIN_WIDTH <=? x)%float = true ->
  (x <=? Float64.of_Z CONST_MAX_WIDTH)%float = true ->
  (Float64.of_Z CONST_MIN_HEIGHT <=? y)%float = true ->
  (y <=? Float64.of_Z CONST_MAX_HEIGHT)%float = true ->
  exists px py,
    coord_to_pixel (x, y) = Ok (px, py) /\ spec_to_pixel (x, y) = Ok (px, py).
Proof.
  intros Hx1 Hx2 Hy1 Hy2.
  destruct (coord_to_pixel_range x y Hx1 Hx2 Hy1 Hy2) as (px & py & H & _).
  exists px, py. split; [exact H|].
  rewrite <- coord_to_pixel_spec_to_pixel. exact H.
Qed.

Lemma coord_to_pixel_floor_witness :
  exists px py,
    coord_to_pixel (0.5, -0.25)%float = Ok (px, py) /\
    spec_to_pixel (0.5, -0.25)%float = Ok (px, py).
Proof.
  apply (coord_to_pixel_floor 0.5 (-0.25)); reflexivity.
Defined.

(** C9.  For every coordinate with [MIN_RE <= x <= MAX_RE] and
    [MIN_IM <= y <= MAX_IM], [coord_to_pixel] returns a pixel [(px, py)] with
    [0 <= px <= WIDTH_RES] and [0 <= py <= HEIGHT_RES]; the upper bounds are
    those of the corner [(MAX_RE, MAX_IM)] and the lower ones those of
    [(MIN_RE, MIN_IM)], so every pixel lies in an image of
    [(WIDTH_RES + 1) x (HEIGHT_RES + 1)]. *)
Theorem coord_to_pixel_in_image (x y : float) :
  (Float64.of_Z CONST_MIN_WIDTH <=? x)%float = true ->
  (x <=? Float64.of_Z CONST_MAX_WIDTH)%float = true ->
  (Float64.of_Z CONST_MIN_HEIGHT <=? y)%float = true ->
  (y <=? Float64.of_Z CONST_MAX_HEIGHT)%float = true ->
  (exists px py,
      coord_to_pixel (x, y) = Ok (px, py) /\
      0 <= px <= CONST_WIDTH_RESOLUTION /\ 0 <= py <= CONST_HEIGHT_RESOLUTION) /\
  coord_to_pixel (Float64.of_Z CONST_MAX_WIDTH, Float64.of_Z CONST_MAX_HEIGHT)
  = Ok (CONST_WIDTH_RESOLUTION, CONST_HEIGHT_RESOLUTION) /\
  coord_to_pixel (Float64.of_Z CONST_MIN_WIDTH, Float64.of_Z CONST_MIN_HEIGHT)
  = Ok (0, 0).
Proof.
  intros Hx1 Hx2 Hy1 Hy2. split; [|split; vm_compute; reflexivity].
  apply coord_to_pixel_range; assumption.
Qed.

Lemma coord_to_pixel_in_image_witness :
  (exists px py,
      coord_to_pixel (0.5, -0.25)%float = Ok (px, py) /\
      0 <= px <= CONST_WIDTH_RESOLUTION /\ 0 <= py <= CONST_HEIGHT_RESOLUTION) /\
  coord_to_pixel (Float64.of_Z CONST_MAX_WIDTH, Float64.of_Z CONST_MAX_HEIGHT)
  = Ok (CONST_WIDTH_RESOLUTION, CONST_HEIGHT_RESOLUTION) /\
  coord_to_pixel (Float64.of_Z CONST_MIN_WIDTH, Float64.of_Z CONST_MIN_HEIGHT)
  = Ok (0, 0).
Proof.
  apply (coord_to_pixel_in_image 0.5 (-0.25)); reflexivity.
Defined.

(** ** C10: the constant behind the black branch *)

(** C10.  [get_pixel_colour] takes no bound: it compares the count with the
    constant [CONST_N = 200].  For every [zeta] and every count other than
    [200] the colour is computed with the brightness of the diverging branch,
    also for the result [(zeta, n)] of an evaluation under a bound
    [n <> 200] that never diverged; for the count [200] it is computed with
    the brightness [0]. *)
Theorem get_pixel_colour_branch (M : Libm) (zeta : pynum) (iteration : Z) :
  iteration <> 200 ->
  CONST_N = 200 /\
  get_pixel_colour zeta iteration = colour_with (diverging_brightness iteration) zeta /\
  get_pixel_colour zeta 200 = colour_with (Ok (PyInt 0)) zeta /\
  (forall (c : complex) (d : Z) (divergence_limit : pynum),
      calc_zeta_n c d iteration divergence_limit = Ok (zeta, iteration) ->
      get_pixel_colour zeta iteration
      = colour_with (diverging_brightness iteration) zeta).
Proof.
  intros Hne.
  assert (H : get_pixel_colour zeta iteration
              = colour_with (diverging_brightness iteration) zeta).
  { rewrite get_pixel_colour_colour_with.
    replace (iteration =? CONST_N) with false; [reflexivity|].
    symmetry. apply Z.eqb_neq. exact Hne. }
  repeat apply conj; try reflexivity; try assumption.
  intros c d limit _. exact H.
Qed.

(** Under the bound [4] the orbit of [0.2 + 0.2j] never diverges; its pixel
    is coloured by the diverging branch and is not black. *)
Lemma get_pixel_colour_branch_witness :
  let M := SampleLibm.libm in
  let c := mkC 0x1.999999999999ap-3 0x1.999999999999ap-3 in
  let zeta := PyComplex (mkC 0x1.07b8dbff19d10p-3 0x1.340efb45861c2p-2) in
  calc_zeta_n c 2 4 (PyInt 2) = Ok (zeta, 4) /\
  get_pixel_colour zeta 4 = colour_with (diverging_brightness 4) zeta /\
  get_pixel_colour zeta 4 = Ok (133, 0, 0).
Proof.
  intros M c zeta. repeat apply conj.
  - vm_compute. reflexivity.
  - apply (get_pixel_colour_branch M zeta 4). lia.
  - vm_compute. reflexivity.
Defined.

(** * Further properties of the program *)

(** ** The evaluator *)

(** X1.  With a bound [n <= 0] the range [1..n] is empty: [calc_zeta_n]
    evaluates no step and returns the literal int [0] it started from,
    together with the bound itself as the count, whatever the point, the
    power and the limit. *)
Theorem calc_zeta_n_no_iteration (M : Libm) (c : complex) (d n : Z)
    (divergence_limit : pynum) :
  n <= 0 -> calc_zeta_n c d n divergence_limit = Ok (PyInt 0, n).
Proof.
  intros Hn. unfold calc_zeta_n. rewrite py_range_nil by lia. reflexivity.
Qed.

Lemma calc_zeta_n_no_iteration_witness :
  calc_zeta_n (M := SampleLibm.libm) (mkC 1 1) (-3) (-5) (PyInt 2)
  = Ok (PyInt 0, -5).
Proof.
  apply (calc_zeta_n_no_iteration SampleLibm.libm (mkC 1 1) (-3) (-5) (PyInt 2)).
  lia.
Defined.

(** X2.  A run that stopped before its bound does not depend on the bound:
    when [calc_zeta_n] returns [(zeta, k)] with [k < n], it returns the same
    pair under every bound [n' >= k]. *)
Theorem calc_zeta_n_bound_irrelevant (M : Libm) (c : complex) (d n n' : Z)
    (divergence_limit zeta : pynum) (k : Z) :
  calc_zeta_n c d n divergence_limit = Ok (zeta, k) ->
  k < n -> k <= n' ->
  calc_zeta_n c d n' divergence_limit = Ok (zeta, k).
Proof.
  intros Hrun Hk Hn'. unfold calc_zeta_n in Hrun.
  rewrite calc_zeta_n_range in Hrun.
  apply bind_Ok in Hrun as ([z r] & Hloop & Hret).
  destruct r as [i|]; injection Hret as <- <-; [|lia].
  destruct (loop_inv c d divergence_limit (Z.to_nat n) 1 (PyInt 0) z (Some i))
    as (Hstay & Horbit & Hi & Hdiv); try lia; try reflexivity; try assumption.
  unfold calc_zeta_n. rewrite calc_zeta_n_range.
  rewrite (loop_first c d divergence_limit (Z.to_nat n') 1 i (PyInt 0) z);
    try assumption; try lia; reflexivity.
Qed.

(** The first test of [test_calc_zeta_n_pass] under the bound [1000]. *)
Lemma calc_zeta_n_bound_irrelevant_witness :
  calc_zeta_n (M := SampleLibm.libm) (mkC 1 1) 2 1000 (PyInt 2)
  = Ok (PyComplex (mkC 1 3), 2).
Proof.
  apply (calc_zeta_n_bound_irrelevant SampleLibm.libm (mkC 1 1) 2 4 1000
           (PyInt 2) (PyComplex (mkC 1 3)) 2).
  - vm_compute. reflexivity.
  - lia.
  - lia.
Defined.



(** X4.  With the power [d = 0] the orbit is constant: every step gives
    [complex(1.0 + c.real, 0.0 + c.imag)], so [calc_zeta_n] returns it at
    iteration [1] when its magnitude exceeds the limit and after all [n]
    iterations otherwise. *)
Theorem calc_zeta_n_zero_power (M : Libm) (c : complex) (n : Z)
    (divergence_limit : pynum) (b : bool) :
  1 <= n ->
  let z1 := PyComplex (mkC (1 + real c) (0 + imag c)) in
  diverged divergence_limit z1 = Ok b ->
  calc_zeta_n c 0 n divergence_limit = Ok (z1, if b then 1 else n).
Proof.
  intros Hn z1 Hdiv. unfold calc_zeta_n. rewrite calc_zeta_n_range.
  assert (Horbit : forall j, 1 <= j -> orbit c 0 (Z.to_nat j) = Ok z1).
  { intros j Hj. replace (Z.to_nat j) with (S (Z.to_nat (j - 1))) by lia.
    apply orbit_zero_power. }
  destruct b.
  - rewrite (loop_first c 0 divergence_limit (Z.to_nat n) 1 1 (PyInt 0) z1);
      try assumption; try lia; reflexivity.
  - destruct (loop_exhausted c 0 divergence_limit (Z.to_nat n) 1 (PyInt 0))
      as (zn & Hzn & Hloop); try lia; try reflexivity.
    + intros j Hj. exists z1. split; [apply Horbit; lia | exact Hdiv].
    + rewrite Horbit in Hzn by lia. injection Hzn as <-.
      rewrite Hloop. reflexivity.
Qed.

Lemma calc_zeta_n_zero_power_witness :
  let z1 := PyComplex (mkC (1 + 0x1p-1) (0 + 0)) in
  calc_zeta_n (M := SampleLibm.libm) (mkC 0x1p-1 0) 0 200 (PyInt 2) = Ok (z1, 200).
Proof.
  apply (calc_zeta_n_zero_power SampleLibm.libm (mkC 0x1p-1 0) 200 (PyInt 2) false).
  - lia.
  - vm_compute. reflexivity.
Defined.

(** X5.  A negative power makes the first step fail: for [-2^53 < d < 0]
    the int power [0 ** d] is taken on floats and raises
    [ZeroDivisionError], and the exception leaves [calc_zeta_n] under every
    bound [n >= 1]. *)
Theorem calc_zeta_n_negative_power (M : Libm) (c : complex) (d n : Z)
    (divergence_limit : pynum) :
  - 2 ^ 53 < d < 0 -> 1 <= n ->
  calc_zeta (PyInt 0) c d = Raise ZeroDivisionError /\
  calc_zeta_n c d n divergence_limit = Raise ZeroDivisionError.
Proof.
  intros Hd Hn. pose proof (calc_zeta_negative_power c d Hd) as Hstep.
  split; [exact Hstep|].
  unfold calc_zeta_n. rewrite calc_zeta_n_range.
  rewrite (loop_raises c d divergence_limit (Z.to_nat n) 1 1 (PyInt 0)
             ZeroDivisionError); try lia; try reflexivity.
  change (Z.to_nat 1) with 1%nat. cbn [orbit bind]. rewrite Hstep. reflexivity.
Qed.

Lemma calc_zeta_n_negative_power_witness :
  calc_zeta (M := SampleLibm.libm) (PyInt 0) (mkC 1 1) (-2)
  = Raise ZeroDivisionError /\
  calc_zeta_n (M := SampleLibm.libm) (mkC 1 1) (-2) 200 (PyInt 2)
  = Raise ZeroDivisionError.
Proof.
  apply (calc_zeta_n_negative_power SampleLibm.libm (mkC 1 1) (-2) 200 (PyInt 2)).
  - lia.
  - lia.
Defined.

(** X13.  Under a bound [n >= 1] every value [calc_zeta_n] returns is a
    complex number: never [None], which its docstring announces for a
    divergent point, and never the int [0] it starts from. *)
Theorem calc_zeta_n_returns_complex (M : Libm) (c : complex) (d n : Z)
    (divergence_limit zeta : pynum) (k : Z) :
  1 <= n ->
  calc_zeta_n c d n divergence_limit = Ok (zeta, k) ->
  exists z, zeta = PyComplex z.
Proof.
  intros Hn H. unfold calc_zeta_n in H.
  apply bind_Ok in H as ([z r] & Hloop & H).
  assert (Hz : exists w, z = PyComplex w).
  { apply (calc_zeta_n_loop_complex c d divergence_limit _ _ _ _) in Hloop;
      [exact Hloop|].
    rewrite py_range_cons by lia. discriminate. }
  destruct r; injection H as <- _; exact Hz.
Qed.

Lemma calc_zeta_n_returns_complex_witness :
  exists z, PyComplex (mkC 1 3) = PyComplex z.
Proof.
  apply (calc_zeta_n_returns_complex SampleLibm.libm (mkC 1 1) 2 4 (PyInt 2)
           (PyComplex (mkC 1 3)) 2).
  - lia.
  - vm_compute. reflexivity.
Defined.

(** ** The colours *)

(** X7.  Whatever the angle, a tuple returned by [map_angle_to_colour] has
    at least three components and each of them is a channel value in
    [0..255]: unpacking it into [red, green, blue] can fail only by too many
    values, never by too few.  A NaN angle raises [ValueError] and an
    infinite one [OverflowError]. *)
Theorem map_angle_to_colour_channels :
  (forall (angle : float) (l : list Z),
      map_angle_to_colour angle = Ok l ->
      Forall (fun v => 0 <= v <= 255) l /\ (3 <= length l)%nat) /\
  map_angle_to_colour nan = Raise ValueError /\
  map_angle_to_colour infinity = Raise OverflowError /\
  map_angle_to_colour neg_infinity = Raise OverflowError.
Proof.
  repeat apply conj.
  - apply map_angle_to_colour_components.
  - vm_compute. reflexivity.
  - vm_compute. reflexivity.
  - vm_compute. reflexivity.
Qed.

(** An angle of [400] degrees, outside the range of [numpy.angle]: four
    components, all of them channel values. *)
Lemma map_angle_to_colour_channels_witness :
  map_angle_to_colour 400%float = Ok [255; 255; 255; 85] /\
  Forall (fun v => 0 <= v <= 255) [255; 255; 255; 85] /\
  (3 <= length [255; 255; 255; 85])%nat.
Proof.
  split; [vm_compute; reflexivity|].
  apply (proj1 map_angle_to_colour_channels 400%float). vm_compute. reflexivity.
Defined.

(** X8.  For a count in [1..200] and a point whose angle maps to three
    components [(r, g, b)], [get_pixel_colour] returns a colour whose
    channels lie between [0] and the channels of the ramp, hence in
    [0..255], as soon as the C library's [pow] returns a number between [0]
    and [1] for [2 ** (-iteration - 1/255)]. *)
Theorem get_pixel_colour_channels (M : Libm) (zeta : pynum) (iteration : Z)
    (angle : float) (r g b : Z) :
  np_angle_deg zeta = Ok angle ->
  map_angle_to_colour angle = Ok [r; g; b] ->
  1 <= iteration <= 200 ->
  (0 <=? pow 2 (brightness_exponent iteration))%float = true ->
  (pow 2 (brightness_exponent iteration) <=? 1)%float = true ->
  exists r' g' b',
    get_pixel_colour zeta iteration = Ok (r', g', b') /\
    0 <= r' <= r /\ 0 <= g' <= g /\ 0 <= b' <= b /\
    r <= 255 /\ g <= 255 /\ b <= 255.
Proof.
  intros Hangle Hrgb Hit Hp0 Hp1.
  destruct (map_angle_to_colour_components angle _ Hrgb) as [Hall _].
  inversion Hall as [|? ? Hr Hall1]; subst.
  inversion Hall1 as [|? ? Hg Hall2]; subst.
  inversion Hall2 as [|? ? Hb _]; subst.
  rewrite get_pixel_colour_colour_with. unfold colour_with.
  rewrite Hangle. cbn [bind].
  destruct (Z.eqb_spec iteration CONST_N) as [->|Hne]; cbn [bind].
  - rewrite Hrgb. cbn [bind]. rewrite !scaled_int_zero. cbn [bind].
    exists 0, 0, 0. repeat split; lia.
  - rewrite (diverging_brightness_value iteration Hit). cbv zeta.
    destruct (brightness_within _ Hp0 Hp1) as [Hinf Hx].
    rewrite Hinf. cbn [py_neg py_add to_float bind].
    rewrite Hrgb. cbn [bind].
    destruct (scaled_within _ r Hx) as (r' & -> & Hr'); [lia|].
    destruct (scaled_within _ g Hx) as (g' & -> & Hg'); [lia|].
    destruct (scaled_within _ b Hx) as (b' & -> & Hb'); [lia|].
    cbn [bind]. exists r', g', b'. repeat split; lia.
Qed.

(** The point [1 + 0j] escaping at the first iteration: the ramp gives
    [(0, 1, 1)] and the colour is black. *)
Lemma get_pixel_colour_channels_witness :
  exists r' g' b',
    get_pixel_colour (M := SampleLibm.libm) (PyComplex (mkC 1 0)) 1
    = Ok (r', g', b') /\
    0 <= r' <= 0 /\ 0 <= g' <= 1 /\ 0 <= b' <= 1 /\
    0 <= 255 /\ 1 <= 255 /\ 1 <= 255.
Proof.
  apply (get_pixel_colour_channels SampleLibm.libm (PyComplex (mkC 1 0)) 1 0%float 0 1 1).
  - vm_compute. reflexivity.
  - vm_compute. reflexivity.
  - lia.
  - vm_compute. reflexivity.
  - vm_compute. reflexivity.
Defined.

(** ** The pixel of any coordinate *)

Lemma trunc_abs_nonneg (u : float) (p : Z) :
  Float64.trunc (abs u) = Ok p -> 0 <= p.
Proof.
  unfold Float64.trunc. rewrite abs_spec.
  destruct (Prim2SF u) as [s|s| |s m e]; cbn [SFabs]; intros H;
    try discriminate; injection H as <-; [lia|].
  cbn [cond_Zopp]. apply Z.shiftl_nonneg. lia.
Qed.

(** X6.  [coord_to_pixel] never returns a negative index: whatever the
    coordinate, inside the plane region or not, both components of a returned
    pixel are at least [0] (a coordinate left of [MIN_RE] or below [MIN_IM]
    is folded back by [abs]).  A NaN abscissa raises [ValueError] and an
    infinite one [OverflowError], whatever the ordinate. *)
Theorem coord_to_pixel_nonneg :
  (forall (x y : float) (px py : Z),
      coord_to_pixel (x, y) = Ok (px, py) -> 0 <= px /\ 0 <= py) /\
  (forall y, coord_to_pixel (nan, y) = Raise ValueError) /\
  (forall y, coord_to_pixel (infinity, y) = Raise OverflowError) /\
  (forall y, coord_to_pixel (neg_infinity, y) = Raise OverflowError).
Proof.
  repeat apply conj.
  - intros x y px py H. unfold coord_to_pixel in H.
    apply bind_Ok in H as (ws & _ & H). apply bind_Ok in H as (hs & _ & H).
    apply bind_Ok in H as (mw & _ & H). apply bind_Ok in H as (qx & Hx & H).
    apply bind_Ok in H as (mh & _ & H). apply bind_Ok in H as (qy & Hy & H).
    injection H as <- <-.
    split; [apply (trunc_abs_nonneg _ _ Hx) | apply (trunc_abs_nonneg _ _ Hy)].
  - intros y. vm_compute. reflexivity.
  - intros y. vm_compute. reflexivity.
  - intros y. vm_compute. reflexivity.
Qed.

(** The point [(-3, -2)], left of and below the region, lands on the pixel
    [(500, 500)] of its mirror image [(-1, 0)]. *)
Lemma coord_to_pixel_nonneg_witness :
  coord_to_pixel (-3, -2)%float = coord_to_pixel (-1, 0)%float /\
  0 <= 500 /\ 0 <= 500.
Proof.
  split; [vm_compute; reflexivity|].
  apply (proj1 coord_to_pixel_nonneg (-3)%float (-2)%float 500 500). vm_compute. reflexivity.
Defined.

(** ** The driver *)

(** The C library at the first point of the grid, [(-2, -1)]: the values of
    [atan2] and [pow] the colour of that point takes. *)
Module GridLibm.

Local Open Scope float_scope.

Definition libm : Libm := {|
  hypot x y := sqrt (x * x + y * y);
  pow := SampleLibm.lookup2 [ (2, -0x1.0101010101010p+0, 0x1.fe9c336144d7fp-2) ];
  atan2 := SampleLibm.lookup2 [ (-1, -2, -0x1.56c6e7397f5aep+1) ];
  cos := fun _ => nan;
  sin := fun _ => nan
|}.

End GridLibm.

(** X9.  Every [putpixel] call of the loops of [main] stays inside the
    image: over points of the plane region, however many, [main_loop] makes
    one call per pair of points, in the order of the two loops, and the
    pixel of each call is a pixel of the image of size
    [(WIDTH_RES + 1, HEIGHT_RES + 1)] that [main] creates. *)
Theorem main_loop_inside (M : Libm) (xs ys : list float)
    (calls : list ((Z * Z) * (Z * Z * Z))) :
  Forall (fun x => (Float64.of_Z CONST_MIN_WIDTH <=? x)%float = true /\
                   (x <=? Float64.of_Z CONST_MAX_WIDTH)%float = true) xs ->
  Forall (fun y => (Float64.of_Z CONST_MIN_HEIGHT <=? y)%float = true /\
                   (y <=? Float64.of_Z CONST_MAX_HEIGHT)%float = true) ys ->
  main_loop xs ys = Ok calls ->
  length calls = (length xs * length ys)%nat /\
  Forall2 (fun coord call => coord_to_pixel coord = Ok (fst call))
          (list_prod xs ys) calls /\
  Forall (fun call => inside image_size (fst call) = true) calls.
Proof.
  intros Hxs Hys Hloop. apply main_loop_calls in Hloop.
  rewrite Forall_forall in Hxs, Hys.
  split; [|split].
  - rewrite <- (Forall2_length Hloop). apply length_prod.
  - eapply Forall2_impl; [|exact Hloop]. intros coord call. apply main_body_pixel.
  - assert (Hin : forall coord, In coord (list_prod xs ys) ->
                  forall call, main_body coord = Ok call ->
                  inside image_size (fst call) = true).
    { intros [x y] Hc call Hcall. apply in_prod_iff in Hc as [Hx Hy].
      destruct (Hxs x Hx) as [Hx1 Hx2]. destruct (Hys y Hy) as [Hy1 Hy2].
      destruct (coord_to_pixel_range x y Hx1 Hx2 Hy1 Hy2) as (px & py & Hp & Hpx & Hpy).
      apply main_body_pixel in Hcall. rewrite Hp in Hcall. injection Hcall as <-.
      unfold inside, image_size, CONST_WIDTH_RESOLUTION, CONST_HEIGHT_RESOLUTION in *.
      cbn [fst snd]. lia. }
    revert Hin. induction Hloop as [|coord call coords calls Hcall _ IH]; intros Hin.
    + constructor.
    + constructor.
      * apply (Hin coord); [left; reflexivity | exact Hcall].
      * apply IH. intros coord' Hc. apply Hin. right. exact Hc.
Qed.

(** The loops over the single point [(-2, -1)], the first of the grid. *)
Lemma main_loop_inside_witness :
  let calls := [((0, 0), (127, 127, 99))] in
  main_loop (M := GridLibm.libm) [(-2)%float] [(-1)%float] = Ok calls /\
  length calls = (1 * 1)%nat /\
  Forall2 (fun coord call => coord_to_pixel coord = Ok (fst call))
          (list_prod [(-2)%float] [(-1)%float]) calls /\
  Forall (fun call => inside image_size (fst call) = true) calls.
Proof.
  intros calls.
  assert (H : main_loop (M := GridLibm.libm) [(-2)%float] [(-1)%float] = Ok calls)
    by (vm_compute; reflexivity).
  split; [exact H|].
  apply (main_loop_inside GridLibm.libm [(-2)%float] [(-1)%float] calls).
  - repeat constructor.
  - repeat constructor.
  - exact H.
Defined.

(** X10.  The grid of [main] and its pixels.  [x_points] holds [1500]
    points and [y_points] [1000], all of them in the plane region.  The
    point of index [(i, j)] lands on the pixel [(i, j)], except that the last
    abscissa lands on column [1500] and the last ordinate on row [1000]:
    distinct points of the grid never share a pixel, and no point lands on
    column [1499] or on row [999], which [main] therefore never paints. *)
Theorem main_grid_pixels :
  exists xs ys,
    x_points = Ok xs /\ y_points = Ok ys /\
    length xs = 1500%nat /\ length ys = 1000%nat /\
    Forall (fun x => (Float64.of_Z CONST_MIN_WIDTH <=? x)%float = true /\
                     (x <=? Float64.of_Z CONST_MAX_WIDTH)%float = true) xs /\
    Forall (fun y => (Float64.of_Z CONST_MIN_HEIGHT <=? y)%float = true /\
                     (y <=? Float64.of_Z CONST_MAX_HEIGHT)%float = true) ys /\
    (forall i j, 0 <= i < 1500 -> 0 <= j < 1000 ->
       coord_to_pixel (nth (Z.to_nat i) xs 0%float, nth (Z.to_nat j) ys 0%float)
       = Ok (if i <? 1499 then i else 1500, if j <? 999 then j else 1000)) /\
    (forall x y px py, In x xs -> In y ys ->
       coord_to_pixel (x, y) = Ok (px, py) ->
       px <> 1499 /\ py <> 999 /\ inside image_size (px, py) = true).
Proof.
  destruct (axis_ok_spec _ _ _ _ _ x_points_ok) as (xs & Hxs & Hlx & Hx).
  destruct (axis_ok_spec _ _ _ _ _ y_points_ok) as (ys & Hys & Hly & Hy).
  cbv zeta in Hx, Hy.
  exists xs, ys. repeat apply conj; try assumption; try lia.
  - apply Forall_forall. intros x Hin.
    destruct (In_nth_Z xs x Hin) as (i & Hi & <-).
    destruct (Hx i ltac:(lia)) as (H1 & H2 & _). split; assumption.
  - apply Forall_forall. intros y Hin.
    destruct (In_nth_Z ys y Hin) as (j & Hj & <-).
    destruct (Hy j ltac:(lia)) as (H1 & H2 & _). split; assumption.
  - intros i j Hi Hj. rewrite coord_to_pixel_axes.
    destruct (Hx i Hi) as (_ & _ & ->). destruct (Hy j Hj) as (_ & _ & ->).
    reflexivity.
  - intros x y px py Hinx Hiny Hp.
    destruct (In_nth_Z xs x Hinx) as (i & Hi & <-).
    destruct (In_nth_Z ys y Hiny) as (j & Hj & <-).
    rewrite coord_to_pixel_axes in Hp.
    destruct (Hx i ltac:(lia)) as (_ & _ & Hpx).
    destruct (Hy j ltac:(lia)) as (_ & _ & Hpy).
    rewrite Hpx, Hpy in Hp. cbn [bind] in Hp. injection Hp as <- <-.
    unfold inside, image_size, CONST_WIDTH_RESOLUTION, CONST_HEIGHT_RESOLUTION.
    cbn [fst snd].
    destruct (Z.ltb_spec i 1499); destruct (Z.ltb_spec j 999);
      repeat split; lia.
Qed.

(** X11.  One iteration of the loops of [main], for a point of the plane
    region: when the evaluator returns [(zeta, k)] and the angle of [zeta]
    maps to three components, the count [k] lies in [1..200], and, as soon as
    the C library's [pow] returns a number between [0] and [1] for
    [2 ** (-k - 1/255)], the body reaches [putpixel] with a pixel of the
    image and a colour whose channels lie in [0..255]. *)
Theorem main_body_valid (M : Libm) (x y : float) (zeta : pynum) (k : Z)
    (angle : float) (r g b : Z) :
  (Float64.of_Z CONST_MIN_WIDTH <=? x)%float = true ->
  (x <=? Float64.of_Z CONST_MAX_WIDTH)%float = true ->
  (Float64.of_Z CONST_MIN_HEIGHT <=? y)%float = true ->
  (y <=? Float64.of_Z CONST_MAX_HEIGHT)%float = true ->
  calc_zeta_n (coord_to_complex (x, y)) CONST_D CONST_N CONST_DIVERGENCE_LIMIT
  = Ok (zeta, k) ->
  np_angle_deg zeta = Ok angle ->
  map_angle_to_colour angle = Ok [r; g; b] ->
  (0 <=? pow 2 (brightness_exponent k))%float = true ->
  (pow 2 (brightness_exponent k) <=? 1)%float = true ->
  1 <= k <= 200 /\
  exists pixel r' g' b',
    main_body (x, y) = Ok (pixel, (r', g', b')) /\
    inside image_size pixel = true /\
    0 <= r' <= 255 /\ 0 <= g' <= 255 /\ 0 <= b' <= 255.
Proof.
  intros Hx1 Hx2 Hy1 Hy2 Hrun Hangle Hrgb Hp0 Hp1.
  assert (Hk : 1 <= k <= 200).
  { pose proof (calc_zeta_n_count_range _ _ _ _ _ _ Hrun) as H.
    unfold CONST_N in H. lia. }
  split; [exact Hk|].
  destruct (get_pixel_colour_within zeta k angle r g b Hangle Hrgb Hk Hp0 Hp1)
    as (r' & g' & b' & Hcol & Hr & Hg & Hb & Hr2 & Hg2 & Hb2).
  destruct (coord_to_pixel_range x y Hx1 Hx2 Hy1 Hy2) as (px & py & Hp & Hpx & Hpy).
  exists (px, py), r', g', b'.
  unfold main_body. rewrite Hrun. cbn [bind]. rewrite Hcol. cbn [bind].
  rewrite Hp. cbn [bind]. split; [reflexivity|].
  unfold inside, image_size, CONST_WIDTH_RESOLUTION, CONST_HEIGHT_RESOLUTION in *.
  cbn [fst snd]. repeat split; lia.
Qed.

(** The first point of the grid, [(-2, -1)]: it escapes at the first
    iteration and is painted at the pixel [(0, 0)]. *)
Lemma main_body_valid_witness :
  main_body (M := GridLibm.libm) (-2, -1)%float = Ok ((0, 0), (127, 127, 99)) /\
  1 <= 1 <= 200 /\
  exists pixel r' g' b',
    main_body (M := GridLibm.libm) (-2, -1)%float = Ok (pixel, (r', g', b')) /\
    inside image_size pixel = true /\
    0 <= r' <= 255 /\ 0 <= g' <= 255 /\ 0 <= b' <= 255.
Proof.
  split; [vm_compute; reflexivity|].
  apply (main_body_valid GridLibm.libm (-2) (-1) (PyComplex (mkC (-2) (-1))) 1
           (-0x1.32deb19cb3c47p+7)%float 255 255 198).
  - vm_compute. reflexivity.
  - vm_compute. reflexivity.
  - vm_compute. reflexivity.
  - vm_compute. reflexivity.
  - vm_compute. reflexivity.
  - vm_compute. reflexivity.
  - vm_compute. reflexivity.
  - vm_compute. reflexivity.
  - vm_compute. reflexivity.
Defined.

(** ** The symmetry in the real axis *)

(** X12.  The evaluator is symmetric in the real axis.  For a power
    [0 <= d <= 100] (the powers [complex ** int] takes by repeated
    multiplication) and a [hypot] that depends on the magnitudes of its
    arguments only, the runs of [calc_zeta_n] on [c] and on its conjugate
    [complex(c.real, -c.imag)] end alike: both raise the same exception, or
    both return, with the same count and with values that are mirror images
    of each other (the real parts are the same number and the imaginary parts
    opposite numbers, up to the sign of a zero). *)
Theorem calc_zeta_n_conjugate (M : Libm) (c : complex) (d n : Z)
    (divergence_limit : pynum) :
  0 <= d <= 100 ->
  (forall x y, hypot x y = hypot (abs x) (abs y)) ->
  match calc_zeta_n c d n divergence_limit,
        calc_zeta_n (conjugate c) d n divergence_limit with
  | Ok (zeta, k), Ok (zeta', k') => mirror_num zeta zeta' /\ k = k'
  | Raise e, Raise e' => e = e'
  | _, _ => False
  end.
Proof.
  intros Hd Hhypot. unfold calc_zeta_n.
  pose proof (calc_zeta_n_loop_mirror Hhypot c (conjugate c) d divergence_limit
                (py_range 1 (n + 1)) (mirror_conjugate c) Hd (PyInt 0) (PyInt 0)
                eq_refl) as H.
  destruct (calc_zeta_n_loop c d divergence_limit (py_range 1 (n + 1)) (PyInt 0))
    as [[zeta r]|e];
    destruct (calc_zeta_n_loop (conjugate c) d divergence_limit (py_range 1 (n + 1))
                (PyInt 0)) as [[zeta' r']|e'];
    cbn [both fst snd] in H; try contradiction; cbn [bind].
  - destruct H as [Hz <-]. destruct r; split; (exact Hz || reflexivity).
  - exact H.
Qed.

(** The first test of [test_calc_zeta_n_pass] and its mirror image: the
    orbits of [1 + 1j] and [1 - 1j] leave the disc at the second step, at
    [1 + 3j] and [1 - 3j]. *)
Lemma calc_zeta_n_conjugate_witness :
  calc_zeta_n (M := SampleLibm.libm) (mkC 1 1) 2 4 (PyInt 2)
  = Ok (PyComplex (mkC 1 3), 2) /\
  calc_zeta_n (M := SampleLibm.libm) (conjugate (mkC 1 1)) 2 4 (PyInt 2)
  = Ok (PyComplex (mkC 1 (-3)), 2) /\
  match calc_zeta_n (M := SampleLibm.libm) (mkC 1 1) 2 4 (PyInt 2),
        calc_zeta_n (M := SampleLibm.libm) (conjugate (mkC 1 1)) 2 4 (PyInt 2) with
  | Ok (zeta, k), Ok (zeta', k') => mirror_num zeta zeta' /\ k = k'
  | Raise e, Raise e' => e = e'
  | _, _ => False
  end.
Proof.
  split; [vm_compute; reflexivity|]. split; [vm_compute; reflexivity|].
  apply (calc_zeta_n_conjugate SampleLibm.libm (mkC 1 1) 2 4 (PyInt 2)).
  - lia.
  - exact sample_hypot_even.
Defined.

(** ** No overflow inside the divergence radius *)

(** X14.  With the default power [d = 4], a step from an iterate whose
    parts lie in [-2, 2], for a point whose parts lie in [-2, 2], cannot
    overflow: [calc_zeta] returns a complex number whose parts lie in
    [-258, 258]. *)
Theorem calc_zeta_no_overflow (M : Libm) (z c : complex) :
  in_square 2 z = true -> in_square 2 c = true ->
  exists w, calc_zeta (PyComplex z) c CONST_D = Ok (PyComplex w) /\
            in_square 258 w = true.
Proof.
  intros Hz Hc.
  apply (in_square_cbounded 2 2) in Hz; [|exact I | q_closed].
  apply (in_square_cbounded 2 2) in Hc; [|exact I | q_closed].
  destruct (calc_zeta_default_bounded z c Hz Hc) as (w & Hw & Hb).
  exists w. split; [exact Hw|].
  apply (cbounded_in_square 258 (dyadic 4538783999459328 (-44))); try assumption.
  - exact I.
  - q_closed.
Qed.

Lemma calc_zeta_no_overflow_witness :
  exists w, calc_zeta (M := SampleLibm.libm) (PyComplex (mkC 1 1)) (mkC 1 1) CONST_D
            = Ok (PyComplex w) /\
            in_square 258 w = true.
Proof.
  apply (calc_zeta_no_overflow SampleLibm.libm (mkC 1 1) (mkC 1 1)).
  - vm_compute. reflexivity.
  - vm_compute. reflexivity.
Defined.

(** X15.  Under the default power [4] and limit [2], [calc_zeta_n] never
    raises for a point whose parts lie in [-2, 2], the plane region
    included, whatever the bound [n]: it returns a value and a count, the
    count in [1..n] when [n >= 1].  This holds as soon as the C library's
    [hypot] is sound on the iterates of the run with parts in [-258, 258]:
    its result there is finite and not below the magnitude of either
    argument. *)
Theorem calc_zeta_n_never_raises (M : Libm) (c : complex) (n : Z) :
  in_square 2 c = true ->
  (forall k z, 1 <= k <= n ->
               orbit c CONST_D (Z.to_nat k) = Ok (PyComplex z) ->
               in_square 258 z = true -> hypot_sound z) ->
  exists zeta k,
    calc_zeta_n c CONST_D n CONST_DIVERGENCE_LIMIT = Ok (zeta, k) /\
    (1 <= n -> 1 <= k <= n).
Proof.
  intros Hc Hsound.
  apply (in_square_cbounded 2 2) in Hc; [|exact I | q_closed].
  destruct (calc_zeta_n_loop_total c (Z.to_nat n) Hc 1 (PyInt 0)) as ([zeta r] & Hloop);
    try lia; try reflexivity.
  - left. reflexivity.
  - intros k z Hk. apply Hsound. lia.
  - assert (Hrun : exists k, calc_zeta_n c CONST_D n CONST_DIVERGENCE_LIMIT
                             = Ok (zeta, k)).
    { unfold calc_zeta_n. rewrite calc_zeta_n_range, Hloop. cbn [bind].
      destruct r; eauto. }
    destruct Hrun as (k & Hrun). exists zeta, k. split; [exact Hrun|].
    apply (calc_zeta_n_count_range _ _ _ _ _ _ Hrun).
Qed.

(** The point [1 + 1j] under the bound [2]: it escapes at the second
    iteration, at [-3 + 1j]. *)
Lemma calc_zeta_n_never_raises_witness :
  calc_zeta_n (M := SampleLibm.libm) (mkC 1 1) CONST_D 2 CONST_DIVERGENCE_LIMIT
  = Ok (PyComplex (mkC (-3) 1), 2) /\
  exists zeta k,
    calc_zeta_n (M := SampleLibm.libm) (mkC 1 1) CONST_D 2 CONST_DIVERGENCE_LIMIT
    = Ok (zeta, k) /\
    (1 <= 2 -> 1 <= k <= 2).
Proof.
  split; [vm_compute; reflexivity|].
  apply (calc_zeta_n_never_raises SampleLibm.libm (mkC 1 1) 2).
  - vm_compute. reflexivity.
  - intros k z Hk Horbit _.
    assert (Hcases : k = 1 \/ k = 2) by lia.
    destruct Hcases as [-> | ->]; vm_compute in Horbit; injection Horbit as <-;
      repeat split; vm_compute; reflexivity.
Defined.
